(** * The Mali optimization barrier pass

    A shallow embedding of [MaliOptimizationBarrierPass]
    (source/opt/mali_optimization_barrier_pass.cpp): the pass scans every
    instruction of every function body, and after each
    [OpShiftLeftLogical] whose shift amount is a declared integer (or
    integer vector) constant it renames the shift's result and inserts an
    [OpBitFieldInsert base zero zero zero] under the original result id.

    The source file holds two revisions of the pass; the embedding follows
    the later one, which handles vector shift amounts and counts the two
    kinds of rewrite.  The earlier one is embedded in the module [Earlier]
    and compared with it.

    The pass is written against the optimizer's IR context (identifier
    allocation, type manager, constant manager, message consumer).  That
    infrastructure is modelled here as one record passed explicitly through
    every operation. *)

From Stdlib Require Import ZArith List Bool Lia Permutation.
From Stdlib Require String Ascii.
From Equations Require Import Equations.
Import ListNotations.
Open Scope Z_scope.

(** ** Instructions, blocks, functions *)

(** Modelled from the spec: the opcodes ([spv::Op]) are declared outside the
    pass's sources; these are the ones the development names. *)
Inductive Op :=
| OpNop
| OpLoad
| OpStore
| OpIAdd
| OpIMul
| OpShiftRightLogical
| OpShiftRightArithmetic
| OpShiftLeftLogical
| OpBitFieldInsert
| OpReturn.

Definition Op_eqb (a b : Op) : bool :=
  match a, b with
  | OpNop, OpNop | OpLoad, OpLoad | OpStore, OpStore | OpIAdd, OpIAdd
  | OpIMul, OpIMul | OpShiftRightLogical, OpShiftRightLogical
  | OpShiftRightArithmetic, OpShiftRightArithmetic
  | OpShiftLeftLogical, OpShiftLeftLogical
  | OpBitFieldInsert, OpBitFieldInsert | OpReturn, OpReturn => true
  | _, _ => false
  end.

Inductive spv_operand_type_t :=
| SPV_OPERAND_TYPE_ID
| SPV_OPERAND_TYPE_LITERAL_INTEGER.

(** Modelled from the spec: an operand is a kind and its words ("typed
    operands, each either an identifier reference or an immediate
    literal"), as the [Instruction::OperandList] of the barrier is written. *)
Record Operand := mkOperand {
  otype : spv_operand_type_t;
  words : list Z
}.

(** Modelled from the spec: an instruction "has an opcode, an optional
    result type identifier, an optional result identifier, and an ordered
    list of typed operands"; an absent id is 0. *)
Record Instruction := mkInstruction {
  opcode : Op;
  type_id : Z;
  result_id : Z;
  in_operands : list Operand
}.

(** Modelled from the spec: [inst->GetSingleWordInOperand(index)], the word
    of the input operand at [index].  Every [OpShiftLeftLogical] of a module
    has its two id operands; for an operand that is missing or has several
    words the model answers the invalid id 0. *)
Definition GetSingleWordInOperand (inst : Instruction) (index : nat) : Z :=
  match nth_error (in_operands inst) index with
  | Some op => match words op with
               | [w] => w
               | _ => 0
               end
  | None => 0
  end.

(** Modelled from the spec: [inst->SetResultId(id)], the spec's
    [set_result_identifier]: the result id changes, "leaving its opcode,
    type, and operands otherwise unchanged". *)
Definition SetResultId (inst : Instruction) (id : Z) : Instruction :=
  {| opcode := opcode inst;
     type_id := type_id inst;
     result_id := id;
     in_operands := in_operands inst |}.

(** Modelled from the spec: a block is an ordered sequence of instructions
    under a label, a function a sequence of blocks. *)
Record BasicBlock := mkBasicBlock {
  label_id : Z;
  insts : list Instruction
}.

Record Function := mkFunction {
  function_id : Z;
  blocks : list BasicBlock
}.

(** Modelled from the spec: [func.IsDeclaration()], an external function:
    one without a body. *)
Definition IsDeclaration (f : Function) : bool :=
  match blocks f with
  | [] => true
  | _ :: _ => false
  end.

(** ** Types and constants ([analysis::Type], [analysis::Constant]) *)

(** Modelled from the spec: a type is a closed sum; the variants that matter
    are [Integer] with its width and signedness and [Vector] with its
    element type and component count. *)
Inductive Type_ :=
| Void
| Bool
| Integer (width : Z) (signed : bool)
| Float (width : Z)
| Vector (element_type : Type_) (element_count : Z).

Definition AsInteger (t : Type_) : option (Z * bool) :=
  match t with
  | Integer w s => Some (w, s)
  | _ => None
  end.

Definition AsVector (t : Type_) : option (Type_ * Z) :=
  match t with
  | Vector e n => Some (e, n)
  | _ => None
  end.

Fixpoint Type_eqb (a b : Type_) : bool :=
  match a, b with
  | Void, Void => true
  | Bool, Bool => true
  | Integer w s, Integer w' s' => (w =? w') && Bool.eqb s s'
  | Float w, Float w' => w =? w'
  | Vector e n, Vector e' n' => Type_eqb e e' && (n =? n')
  | _, _ => false
  end.

(** Modelled from the spec: a constant is "a typed literal value": an
    integer literal, or a composite that lists the ids of its components. *)
Inductive Constant :=
| IntConstant (ty : Type_) (value : Z)
| VectorConstant (ty : Type_) (components : list Z).

Definition const_type (k : Constant) : Type_ :=
  match k with
  | IntConstant ty _ => ty
  | VectorConstant ty _ => ty
  end.

Fixpoint ids_eqb (a b : list Z) : bool :=
  match a, b with
  | [], [] => true
  | x :: a', y :: b' => (x =? y) && ids_eqb a' b'
  | _, _ => false
  end.

Definition Constant_eqb (a b : Constant) : bool :=
  match a, b with
  | IntConstant t v, IntConstant t' v' => Type_eqb t t' && (v =? v')
  | VectorConstant t c, VectorConstant t' c' => Type_eqb t t' && ids_eqb c c'
  | _, _ => false
  end.

(** ** Messages sent to the consumer *)

Inductive spv_message_level_t :=
| SPV_MSG_ERROR
| SPV_MSG_INFO
| SPV_MSG_DEBUG.

(** The three messages of the pass, with the values they format. *)
Inductive MessageText :=
| FailedConstantZero
| FailedTempResultId (inst : Instruction)
| AddedBarriers (scalar_barriers vector_barriers : Z).

Definition Message : Type := spv_message_level_t * MessageText.

(** ** The IR context *)

(** Modelled from the spec: the module-wide registries the pass consumes and
    that are not part of the pass's sources (spec sections 3, 6 and 9): the
    identifier counter with its limit, the type table, the constant table,
    and the message sink.  New entries are appended; a lookup answers the
    first entry for the id. *)
Record IRContext := mkIRContext {
  id_bound : Z;
  max_id_bound : Z;
  id_to_type : list (Z * Type_);
  id_to_constant : list (Z * Constant);
  messages : list Message
}.

Definition set_id_bound (c : IRContext) (b : Z) : IRContext :=
  {| id_bound := b; max_id_bound := max_id_bound c;
     id_to_type := id_to_type c; id_to_constant := id_to_constant c;
     messages := messages c |}.

Definition add_type (c : IRContext) (id : Z) (t : Type_) : IRContext :=
  {| id_bound := id_bound c; max_id_bound := max_id_bound c;
     id_to_type := id_to_type c ++ [(id, t)];
     id_to_constant := id_to_constant c;
     messages := messages c |}.

Definition add_constant (c : IRContext) (id : Z) (k : Constant) : IRContext :=
  {| id_bound := id_bound c; max_id_bound := max_id_bound c;
     id_to_type := id_to_type c;
     id_to_constant := id_to_constant c ++ [(id, k)];
     messages := messages c |}.

(** Modelled from the spec: [consumer()(level, ...)], the leveled message
    sink: the message is appended. *)
Definition consumer (c : IRContext) (level : spv_message_level_t)
    (text : MessageText) : IRContext :=
  {| id_bound := id_bound c; max_id_bound := max_id_bound c;
     id_to_type := id_to_type c; id_to_constant := id_to_constant c;
     messages := messages c ++ [(level, text)] |}.

Fixpoint lookup {A} (id : Z) (l : list (Z * A)) : option A :=
  match l with
  | [] => None
  | (i, a) :: l' => if i =? id then Some a else lookup id l'
  end.

Fixpoint find_id {A} (eqb : A -> A -> bool) (a : A) (l : list (Z * A))
    : option Z :=
  match l with
  | [] => None
  | (i, b) :: l' => if eqb b a then Some i else find_id eqb a l'
  end.

(** Modelled from the spec: [context()->TakeNextId()], the spec's
    [allocate_fresh_identifier]: allocation is monotonic, and it fails by
    returning the invalid identifier 0 once the identifier space is
    exhausted. *)
Definition TakeNextId (c : IRContext) : Z * IRContext :=
  if max_id_bound c <=? id_bound c then (0, c)
  else (id_bound c, set_id_bound c (id_bound c + 1)).

(** Modelled from the spec: [type_mgr->GetType(id)], the spec's
    [lookup_type]. *)
Definition GetType (c : IRContext) (id : Z) : option Type_ :=
  lookup id (id_to_type c).

(** Modelled from the spec: [type_mgr->GetTypeInstruction(type)], the spec's
    [lookup_or_create_vector_type]: the id of the registered type, or a
    fresh declaration of it; 0 when no id can be allocated. *)
Definition GetTypeInstruction (c : IRContext) (t : Type_) : Z * IRContext :=
  match find_id Type_eqb t (id_to_type c) with
  | Some id => (id, c)
  | None =>
      let '(id, c1) := TakeNextId c in
      if id =? 0 then (0, c1) else (id, add_type c1 id t)
  end.

(** Modelled from the spec: [const_mgr->FindDeclaredConstant(id)], the
    spec's [find_constant_for]. *)
Definition FindDeclaredConstant (c : IRContext) (id : Z) : option Constant :=
  lookup id (id_to_constant c).

(** Modelled from the spec: [const_mgr->GetDefiningInstruction(k)->result_id()]:
    constants are deduplicated by type and value, so an equal registered
    constant gives its id; otherwise the constant is declared under a fresh
    id; 0 when no id can be allocated. *)
Definition GetDefiningInstruction (c : IRContext) (k : Constant)
    : Z * IRContext :=
  match find_id Constant_eqb k (id_to_constant c) with
  | Some id => (id, c)
  | None =>
      let '(id, c1) := TakeNextId c in
      if id =? 0 then (0, c1) else (id, add_constant c1 id k)
  end.

(** Modelled from the spec: [const_mgr->GetSIntConstId(val)] and
    [const_mgr->GetUIntConstId(val)], the spec's
    [get_or_create_zero_constant]: the deduplicated integer constant of the
    given signedness.  The call sites pass the value alone, so the type is
    the manager's own 32-bit integer type of that signedness, declared
    first when the module lacks it. *)
Definition GetIntConstId (signed : bool) (c : IRContext) (val : Z)
    : Z * IRContext :=
  let int_type := Integer 32 signed in
  let '(tid, c1) := GetTypeInstruction c int_type in
  if tid =? 0 then (0, c1)
  else GetDefiningInstruction c1 (IntConstant int_type val).

Definition GetSIntConstId := GetIntConstId true.
Definition GetUIntConstId := GetIntConstId false.

(** Modelled from the spec: [const_mgr->GetConstant(type, ids)], the spec's
    [get_or_create_constant(vector_type, component_identifiers)]: the
    vector constant with exactly these component ids; nothing when the type
    is not a vector or a component id is not a declared constant. *)
Definition GetConstant (c : IRContext) (t : option Type_) (ids : list Z)
    : option Constant :=
  match t with
  | Some (Vector e n) =>
      if forallb (fun id => match FindDeclaredConstant c id with
                            | Some _ => true
                            | None => false
                            end) ids
      then Some (VectorConstant (Vector e n) ids)
      else None
  | _ => None
  end.

(** ** The pass *)

(** [MaliOptimizationBarrierPass::GetOrCreateConstantZero]. *)
Definition GetOrCreateConstantZero (c : IRContext) (type_id : Z)
    : Z * IRContext :=
  match GetType c type_id with
  | None => (0, c)
  | Some type =>
      match AsInteger type with
      | None => (0, c)
      | Some (_, is_signed) =>
          if is_signed then GetSIntConstId c 0 else GetUIntConstId c 0
      end
  end.

(** The loop of [GetOrCreateConstantZeroVector] that fills [component_ids]:
    one request for the scalar zero per component. *)
Fixpoint zero_components (is_signed : bool) (n : nat) (c : IRContext)
    (component_ids : list Z) : list Z * IRContext :=
  match n with
  | O => (component_ids, c)
  | S n' =>
      let '(id, c1) :=
        if is_signed then GetSIntConstId c 0 else GetUIntConstId c 0 in
      zero_components is_signed n' c1 (component_ids ++ [id])
  end.

(** [MaliOptimizationBarrierPass::GetOrCreateConstantZeroVector]. *)
Definition GetOrCreateConstantZeroVector (c : IRContext) (type_id : Z)
    : Z * IRContext :=
  match GetType c type_id with
  | None => (0, c)
  | Some type =>
      match AsVector type with
      | None => (0, c)
      | Some (element_type, element_count) =>
          match AsInteger element_type with
          | None => (0, c)
          | Some (_, is_signed) =>
              let '(component_ids, c1) :=
                zero_components is_signed (Z.to_nat element_count) c [] in
              let '(vec_type_id, c2) := GetTypeInstruction c1 type in
              if vec_type_id =? 0 then (0, c2)
              else
                match GetConstant c2 (GetType c2 vec_type_id) component_ids with
                | Some uvec_const => GetDefiningInstruction c2 uvec_const
                | None => (0, c2)
                end
          end
      end
  end.

(** The running state of [Process]: the context and the three locals. *)
Record PassState := mkPassState {
  ctx : IRContext;
  modified : bool;
  scalar_modifications : Z;
  vector_modifications : Z
}.

Definition with_ctx (st : PassState) (c : IRContext) : PassState :=
  {| ctx := c; modified := modified st;
     scalar_modifications := scalar_modifications st;
     vector_modifications := vector_modifications st |}.

(** Addition on [unsigned]. *)
Definition uint32_add (a b : Z) : Z := (a + b) mod 2 ^ 32.

(** The instruction built for the barrier:
    [%original_result_id = OpBitFieldInsert %type %temp_result_id 0 0 0]. *)
Definition noop_barrier_inst (original_result_type_id original_result_id
    temp_result_id const_0_id : Z) : Instruction :=
  {| opcode := OpBitFieldInsert;
     type_id := original_result_type_id;
     result_id := original_result_id;
     in_operands :=
       [ mkOperand SPV_OPERAND_TYPE_ID [temp_result_id];
         mkOperand SPV_OPERAND_TYPE_ID [const_0_id];
         mkOperand SPV_OPERAND_TYPE_ID [const_0_id];
         mkOperand SPV_OPERAND_TYPE_ID [const_0_id] ] |}.

(** What one execution of the innermost loop body does. *)
Inductive Visit :=
| Continue
    (* the instruction is passed over *)
| ReturnFailure (st : PassState)
    (* [return Status::Failure] *)
| Rewritten (st : PassState) (shift barrier : Instruction).
    (* the shift was renamed and the barrier inserted after it *)

(** The matching part of the loop body: nothing for an instruction that is
    passed over, otherwise [is_scalar]. *)
Definition classify (c : IRContext) (inst : Instruction) : option bool :=
  if negb (Op_eqb (opcode inst) OpShiftLeftLogical) then None
  else
    let shift_amount_id := GetSingleWordInOperand inst 1 in
    match FindDeclaredConstant c shift_amount_id with
    | None => None
    | Some shift_constant =>
        let is_scalar :=
          match AsInteger (const_type shift_constant) with
          | Some _ => true
          | None => false
          end in
        let is_vector :=
          match AsVector (const_type shift_constant) with
          | Some (element_type, _) =>
              match AsInteger element_type with
              | Some _ => true
              | None => false
              end
          | None => false
          end in
        if negb is_scalar && negb is_vector then None else Some is_scalar
    end.

(** The body of the innermost loop of [Process]. *)
Definition visit (st : PassState) (inst : Instruction) : Visit :=
  match classify (ctx st) inst with
  | None => Continue
  | Some is_scalar =>
      let original_result_type_id := type_id inst in
      let original_result_id := result_id inst in
      let '(const_0_id, c1) :=
        if is_scalar
        then GetOrCreateConstantZero (ctx st) original_result_type_id
        else GetOrCreateConstantZeroVector (ctx st) original_result_type_id in
      if const_0_id =? 0 then
        ReturnFailure (with_ctx st (consumer c1 SPV_MSG_ERROR FailedConstantZero))
      else
        let '(temp_result_id, c2) := TakeNextId c1 in
        if temp_result_id =? 0 then
          ReturnFailure
            (with_ctx st (consumer c2 SPV_MSG_ERROR (FailedTempResultId inst)))
        else
          Rewritten
            {| ctx := c2;
               modified := true;
               scalar_modifications :=
                 if is_scalar then uint32_add (scalar_modifications st) 1
                 else scalar_modifications st;
               vector_modifications :=
                 if is_scalar then vector_modifications st
                 else uint32_add (vector_modifications st) 1 |}
            (SetResultId inst temp_result_id)
            (noop_barrier_inst original_result_type_id original_result_id
               temp_result_id const_0_id)
  end.

(** How a loop ends: it ran to its end, or [Process] returned from inside. *)
Inductive Flow :=
| Next (st : PassState)
| Return (st : PassState).

Definition is_shift (inst : Instruction) : bool :=
  Op_eqb (opcode inst) OpShiftLeftLogical.

(** The measure of the instruction loop: each step either leaves an
    instruction behind or trades a shift at the cursor for its barrier. *)
Definition weight (l : list Instruction) : nat :=
  (length l + length (filter is_shift l))%nat.

Definition inspect {A} (a : A) : {b : A | a = b} := exist _ a eq_refl.

Definition emit (inst : Instruction) (r : Flow * list Instruction)
    : Flow * list Instruction :=
  (fst r, inst :: snd r).

(** The loop over the instructions of one block.  The iterator stands on
    the instruction at the head of the list; a barrier is inserted in front
    of [inst->NextNode()], right behind the instruction, so the increment
    moves onto the barrier, which is visited like any other instruction.
    (A block ends in a terminator, so a shift has a next node.) *)
Equations? scan_block (st : PassState) (l : list Instruction)
    : Flow * list Instruction by wf (weight l) lt :=
  scan_block st [] := (Next st, []);
  scan_block st (inst :: rest) with inspect (visit st inst) := {
    | exist _ Continue _ => emit inst (scan_block st rest);
    | exist _ (ReturnFailure st') _ => (Return st', inst :: rest);
    | exist _ (Rewritten st' shift barrier) e =>
        emit shift (scan_block st' (barrier :: rest)) }.
Proof.
  - unfold weight; simpl. destruct (is_shift inst); simpl; lia.
  - assert (Hi : is_shift inst = true /\ is_shift barrier = false).
    { revert e. unfold visit.
      destruct (classify (ctx st) inst) as [k|] eqn:Hc; [|discriminate].
      assert (Hs : is_shift inst = true).
      { unfold classify in Hc. unfold is_shift.
        destruct (Op_eqb (opcode inst) OpShiftLeftLogical);
          [reflexivity|discriminate]. }
      match goal with
      | |- context [let '(_, _) := ?x in _] => destruct x as [z c1]
      end.
      destruct (z =? 0); [discriminate|].
      destruct (TakeNextId c1) as [t c2].
      destruct (t =? 0); [discriminate|].
      intros H; inversion H; subst; auto. }
    destruct Hi as [Hi Hb].
    unfold weight; simpl. rewrite Hi, Hb; simpl; lia.
Qed.

(** The loop over the blocks of one function. *)
Fixpoint scan_blocks (st : PassState) (bs : list BasicBlock)
    : Flow * list BasicBlock :=
  match bs with
  | [] => (Next st, [])
  | b :: bs' =>
      match scan_block st (insts b) with
      | (Next st', l') =>
          let '(f, out) := scan_blocks st' bs' in
          (f, mkBasicBlock (label_id b) l' :: out)
      | (Return st', l') =>
          (Return st', mkBasicBlock (label_id b) l' :: bs')
      end
  end.

(** The loop over the functions of the module. *)
Fixpoint scan_functions (st : PassState) (fs : list Function)
    : Flow * list Function :=
  match fs with
  | [] => (Next st, [])
  | func :: fs' =>
      if IsDeclaration func then
        let '(f, out) := scan_functions st fs' in (f, func :: out)
      else
        match scan_blocks st (blocks func) with
        | (Next st', bs') =>
            let '(f, out) := scan_functions st' fs' in
            (f, mkFunction (function_id func) bs' :: out)
        | (Return st', bs') =>
            (Return st', mkFunction (function_id func) bs' :: fs')
        end
  end.

Inductive Status :=
| Failure
| SuccessWithChange
| SuccessWithoutChange.

Definition initial_state (c : IRContext) : PassState :=
  {| ctx := c; modified := false;
     scalar_modifications := 0; vector_modifications := 0 |}.

(** [MaliOptimizationBarrierPass::Process], on the context and the
    functions of its module. *)
Definition Process (c : IRContext) (m : list Function)
    : Status * IRContext * list Function :=
  match scan_functions (initial_state c) m with
  | (Return st, m') => (Failure, ctx st, m')
  | (Next st, m') =>
      if modified st then
        (SuccessWithChange,
         consumer (ctx st) SPV_MSG_INFO
           (AddedBarriers (scalar_modifications st) (vector_modifications st)),
         m')
      else (SuccessWithoutChange, ctx st, m')
  end.

(** ** Well-formed contexts and growth of the registries *)

Fixpoint distinct_ids (l : list Z) : bool :=
  match l with
  | [] => true
  | x :: r => negb (existsb (Z.eqb x) r) && distinct_ids r
  end.

Definition wf_table {A} (bound : Z) (l : list (Z * A)) : bool :=
  distinct_ids (map fst l)
  && forallb (fun p => (0 <? fst p) && (fst p <? bound)) l.

(** Every registered id is a valid id below the bound and is declared
    once; the bound itself is a valid id. *)
Definition wf_context (c : IRContext) : bool :=
  (0 <? id_bound c)
  && wf_table (id_bound c) (id_to_type c)
  && wf_table (id_bound c) (id_to_constant c).

(** [c'] is [c] after some identifiers were allocated and some types,
    constants and messages were added. *)
Record extends (c c' : IRContext) : Prop := mk_extends {
  ext_bound : id_bound c <= id_bound c';
  ext_max : max_id_bound c' = max_id_bound c;
  ext_cap : id_bound c' <= Z.max (id_bound c) (max_id_bound c);
  ext_types : exists ts,
      id_to_type c' = id_to_type c ++ ts
      /\ Forall (fun p => id_bound c <= fst p < id_bound c') ts;
  ext_constants : exists ks,
      id_to_constant c' = id_to_constant c ++ ks
      /\ Forall (fun p => id_bound c <= fst p < id_bound c') ks;
  ext_messages : exists ms, messages c' = messages c ++ ms
}.

(** Growth that keeps a well-formed context well-formed. *)
Definition grows (c c' : IRContext) : Prop :=
  extends c c' /\ (wf_context c = true -> wf_context c' = true).

(** ** The instructions of a module in scan order *)

Definition block_stream (bs : list BasicBlock) : list Instruction :=
  flat_map insts bs.

Definition stream (m : list Function) : list Instruction :=
  flat_map (fun f => if IsDeclaration f then [] else block_stream (blocks f)) m.

(** The shift-amount ids of the module's shifts are below the bound. *)
Definition operands_below (c : IRContext) (l : list Instruction) : bool :=
  forallb (fun i => negb (is_shift i)
                    || (GetSingleWordInOperand i 1 <? id_bound c)) l.

(** The number of instructions that the context classifies as [k]. *)
Definition count_class (c : IRContext) (k : bool) (l : list Instruction) : nat :=
  length (filter (fun i => match classify c i with
                           | Some k' => Bool.eqb k k'
                           | None => false
                           end) l).

(** ** What a scan does to an instruction list *)

(** [Barriers Pk Pg l l']: [l'] is [l] where some instructions are kept as
    they are (those satisfy [Pk]) and every other one is renamed to a
    temporary [t] with [Pg] and followed at once by the barrier that
    carries its former result type and result id. *)
Inductive Barriers (Pk : Instruction -> Prop) (Pg : Instruction -> Z -> Prop)
    : list Instruction -> list Instruction -> Prop :=
| Barriers_nil : Barriers Pk Pg [] []
| Barriers_keep i l l' :
    Pk i -> Barriers Pk Pg l l' -> Barriers Pk Pg (i :: l) (i :: l')
| Barriers_guard i t z l l' :
    Pg i t -> z <> 0 -> Barriers Pk Pg l l' ->
    Barriers Pk Pg (i :: l)
      (SetResultId i t
         :: noop_barrier_inst (type_id i) (result_id i) t z :: l').

(** The same, block by block and function by function; identifiers of
    functions and labels of blocks stay. *)
Definition Blocks_rel (R : list Instruction -> list Instruction -> Prop)
    (bs bs' : list BasicBlock) : Prop :=
  Forall2 (fun b b' => label_id b' = label_id b /\ R (insts b) (insts b')) bs bs'.

Definition Module_rel (R : list Instruction -> list Instruction -> Prop)
    (m m' : list Function) : Prop :=
  Forall2 (fun f f' =>
             function_id f' = function_id f
             /\ if IsDeclaration f then f' = f
                else Blocks_rel R (blocks f) (blocks f')) m m'.

(** An instruction was classified as [k] when the scan stood on it: by
    some context between the first and the last one. *)
Definition visited_as (c c' : IRContext) (i : Instruction) (k : option bool)
    : Prop :=
  exists cv, extends c cv /\ extends cv c' /\ classify cv i = k.

Definition passed_over (c c' : IRContext) (i : Instruction) : Prop :=
  visited_as c c' i None.

Definition renamed_to (c c' : IRContext) (i : Instruction) (t : Z) : Prop :=
  (exists k, visited_as c c' i (Some k))
  /\ t <> 0 /\ id_bound c <= t < id_bound c'.

(** The request for the zero constant, by classification. *)
Definition synthesize (is_scalar : bool) (c : IRContext) (type_id : Z)
    : Z * IRContext :=
  if is_scalar then GetOrCreateConstantZero c type_id
  else GetOrCreateConstantZeroVector c type_id.

Definition flow_state (f : Flow) : PassState :=
  match f with
  | Next st => st
  | Return st => st
  end.

Definition Scanned (c c' : IRContext) : list Instruction -> list Instruction -> Prop :=
  Barriers (passed_over c c') (renamed_to c c').

Definition Touched (c c' : IRContext) : list Instruction -> list Instruction -> Prop :=
  Barriers (fun _ => True) (renamed_to c c').

(** [Guarded c c' l l']: every instruction of [l] that [c] matches is
    renamed in [l'] to an id allocated between [c] and [c'], and is
    followed at once by its barrier; what is kept is kept as it is. *)
Definition Guarded (c c' : IRContext) : list Instruction -> list Instruction -> Prop :=
  Barriers (fun i => classify c i = None)
           (fun i t => t <> 0 /\ id_bound c <= t < id_bound c').

(** [Ascending hi lo l l']: the ids that the renamed instructions of [l']
    carry are at least [lo], below [hi], and ascend along the list: no id
    is given twice. *)
Inductive Ascending (hi : Z) : Z -> list Instruction -> list Instruction -> Prop :=
| Ascending_nil lo : Ascending hi lo [] []
| Ascending_keep lo i l l' :
    Ascending hi lo l l' -> Ascending hi lo (i :: l) (i :: l')
| Ascending_guard lo i t z l l' :
    lo <= t < hi -> Ascending hi (t + 1) l l' ->
    Ascending hi lo (i :: l)
      (SetResultId i t :: noop_barrier_inst (type_id i) (result_id i) t z :: l').

(** [Kept c l l']: whatever was renamed and given a barrier in [l'] is an
    instruction that [c] matches; everything else of [l] is in [l'] as it
    was. *)
Definition Kept (c : IRContext) : list Instruction -> list Instruction -> Prop :=
  Barriers (fun _ => True) (fun i _ => classify c i <> None).

(** [Rewrites c l l' s v]: [l'] is [l] with every instruction that [c]
    matches rewritten and every other one kept; [s] of the rewritten ones
    are classified as scalar and [v] as vector. *)
Inductive Rewrites (c : IRContext)
    : list Instruction -> list Instruction -> nat -> nat -> Prop :=
| Rewrites_nil : Rewrites c [] [] 0 0
| Rewrites_keep i l l' s v :
    classify c i = None -> Rewrites c l l' s v ->
    Rewrites c (i :: l) (i :: l') s v
| Rewrites_scalar i t z l l' s v :
    classify c i = Some true -> Rewrites c l l' s v ->
    Rewrites c (i :: l)
      (SetResultId i t :: noop_barrier_inst (type_id i) (result_id i) t z :: l')
      (S s) v
| Rewrites_vector i t z l l' s v :
    classify c i = Some false -> Rewrites c l l' s v ->
    Rewrites c (i :: l)
      (SetResultId i t :: noop_barrier_inst (type_id i) (result_id i) t z :: l')
      s (S v).

Definition in_uint32 (a : Z) : Prop := 0 <= a < 2 ^ 32.

(** The request for the scalar zero of a signedness, as both synthesizers
    write it. *)
Definition zero_request (is_signed : bool) (c : IRContext) : Z * IRContext :=
  if is_signed then GetSIntConstId c 0 else GetUIntConstId c 0.

(** The scalar type of a type: the element type of a vector, the type
    itself otherwise. *)
Definition scalar_of (T : Type_) : Type_ :=
  match T with
  | Vector e _ => e
  | _ => T
  end.

(** The 32-bit integer type of the same signedness. *)
Definition int32_like (T : Type_) : Type_ :=
  match scalar_of T with
  | Integer _ s => Integer 32 s
  | t => t
  end.

(** [denotes_zero c T lit z]: in [c] the id [z] is declared as a zero of
    type [T] whose scalar literals have type [lit]: the literal 0 for an
    integer type; for a vector type a composite of that very type with one
    component per element, each the id of a literal 0. *)
Definition denotes_zero (c : IRContext) (T lit : Type_) (z : Z) : Prop :=
  match T with
  | Integer _ _ => FindDeclaredConstant c z = Some (IntConstant lit 0)
  | Vector _ n =>
      exists components,
        FindDeclaredConstant c z = Some (VectorConstant T components)
        /\ length components = Z.to_nat n
        /\ Forall (fun id => FindDeclaredConstant c id = Some (IntConstant lit 0))
             components
  | _ => False
  end.

(** The result type does not resolve, or resolves to a type that the
    synthesizer of the given path does not support. *)
Definition unsupported_type (is_scalar : bool) (c : IRContext) (ty : Z) : bool :=
  match GetType c ty with
  | None => true
  | Some T =>
      if is_scalar then
        match AsInteger T with
        | Some _ => false
        | None => true
        end
      else
        match AsVector T with
        | Some (e, _) =>
            match AsInteger e with
            | Some _ => false
            | None => true
            end
        | None => true
        end
  end.

(** ** What the two instructions compute *)

(** Modelled from the spec: the values of the instructions are outside the
    pass's sources.  A value is an integer of the result's width and
    signedness, or one such integer per component of a vector. *)
Inductive Value :=
| Scalar (n : Z)
| Lanes (ns : list Z).

(** An integer kept to [w] bits: in [0, 2^w) when unsigned, in
    [-2^(w-1), 2^(w-1)) when signed. *)
Definition wrap (w : Z) (signed : bool) (x : Z) : Z :=
  if signed then (x + 2 ^ (w - 1)) mod 2 ^ w - 2 ^ (w - 1)
  else x mod 2 ^ w.

(** Modelled from the spec: the shift of [value << amount]. *)
Definition ShiftLeftLogical (w : Z) (signed : bool) (base shift : Z) : Z :=
  wrap w signed (Z.shiftl base shift).

(** Modelled from the spec: bitfield insert, "replace [count] bits at
    [offset] of the base with bits from the insertion value". *)
Definition BitFieldInsert (w : Z) (signed : bool)
    (base insert offset count : Z) : Z :=
  let mask := Z.shiftl (Z.ones count) offset in
  wrap w signed
    (Z.lor (Z.land base (Z.lnot mask)) (Z.land (Z.shiftl insert offset) mask)).

Fixpoint lanes2 (f : Z -> Z -> Z) (a b : list Z) : option (list Z) :=
  match a, b with
  | [], [] => Some []
  | x :: a', y :: b' => option_map (cons (f x y)) (lanes2 f a' b')
  | _, _ => None
  end.

Fixpoint lanes4 (f : Z -> Z -> Z -> Z -> Z) (a b c d : list Z)
    : option (list Z) :=
  match a, b, c, d with
  | [], [], [], [] => Some []
  | x :: a', y :: b', u :: c', v :: d' =>
      option_map (cons (f x y u v)) (lanes4 f a' b' c' d')
  | _, _, _, _ => None
  end.

(** Modelled from the spec: an operation applies to scalars, or to vectors
    of one length component by component ("for every component when
    vectorized"). *)
Definition apply2 (f : Z -> Z -> Z) (a b : Value) : option Value :=
  match a, b with
  | Scalar x, Scalar y => Some (Scalar (f x y))
  | Lanes xs, Lanes ys => option_map Lanes (lanes2 f xs ys)
  | _, _ => None
  end.

Definition apply4 (f : Z -> Z -> Z -> Z -> Z) (a b c d : Value)
    : option Value :=
  match a, b, c, d with
  | Scalar x, Scalar y, Scalar u, Scalar v => Some (Scalar (f x y u v))
  | Lanes xs, Lanes ys, Lanes us, Lanes vs =>
      option_map Lanes (lanes4 f xs ys us vs)
  | _, _, _, _ => None
  end.

(** The zero of the shape of a value. *)
Definition zero_like (v : Value) : Value :=
  match v with
  | Scalar _ => Scalar 0
  | Lanes xs => Lanes (repeat 0 (length xs))
  end.

(** An environment gives values to ids; the newest binding comes first. *)
Definition Env : Type := list (Z * Value).

Definition operand_value (env : Env) (inst : Instruction) (index : nat)
    : option Value :=
  lookup (GetSingleWordInOperand inst index) env.

(** The value of an instruction whose integers have width [w] and the
    given signedness. *)
Definition eval (w : Z) (signed : bool) (env : Env) (inst : Instruction)
    : option Value :=
  match opcode inst with
  | OpShiftLeftLogical =>
      match operand_value env inst 0, operand_value env inst 1 with
      | Some base, Some shift => apply2 (ShiftLeftLogical w signed) base shift
      | _, _ => None
      end
  | OpBitFieldInsert =>
      match operand_value env inst 0, operand_value env inst 1,
            operand_value env inst 2, operand_value env inst 3 with
      | Some base, Some insert, Some offset, Some count =>
          apply4 (BitFieldInsert w signed) base insert offset count
      | _, _, _, _ => None
      end
  | _ => None
  end.

(** Running a sequence binds each result id to its value. *)
Fixpoint run (w : Z) (signed : bool) (env : Env) (l : list Instruction)
    : option Env :=
  match l with
  | [] => Some env
  | inst :: l' =>
      match eval w signed env inst with
      | Some v => run w signed ((result_id inst, v) :: env) l'
      | None => None
      end
  end.

(** The value that a sequence leaves under an id. *)
Definition result_of (w : Z) (signed : bool) (env : Env)
    (l : list Instruction) (id : Z) : option Value :=
  match run w signed env l with
  | Some env' => lookup id env'
  | None => None
  end.

(** The integers of a value are kept to [w] bits. *)
Definition kept_to (w : Z) (signed : bool) (v : Value) : Prop :=
  match v with
  | Scalar x => wrap w signed x = x
  | Lanes xs => Forall (fun x => wrap w signed x = x) xs
  end.

(** Values for the small module: the vector [v], the splat of 3, and the
    zero vector that the pass declares under the id 20. *)
Definition sample_env : Env :=
  [(9, Lanes [1; 2; 3; 1073741824]);
   (4, Lanes [3; 3; 3; 3]);
   (20, Lanes [0; 0; 0; 0])].

(** ** A small module

    The scenario of the pass's description: [r = x << 3] on 32-bit unsigned
    integers, a shift by a run-time amount, and [r = v << splat 3] on
    4-component vectors, in one block of one function.  The context
    declares the two types, the constant 3, its splat and the scalar zero;
    [limit] is the end of the identifier space.  Blocks end in a
    terminator, as the blocks of every module do. *)
Definition id_operand (id : Z) : Operand := mkOperand SPV_OPERAND_TYPE_ID [id].

Definition uint_type : Type_ := Integer 32 false.
Definition uvec4_type : Type_ := Vector uint_type 4.

Definition sample_context (limit : Z) : IRContext :=
  {| id_bound := 20;
     max_id_bound := limit;
     id_to_type := [(1, uint_type); (2, uvec4_type)];
     id_to_constant :=
       [(3, IntConstant uint_type 3);
        (4, VectorConstant uvec4_type [3; 3; 3; 3]);
        (5, IntConstant uint_type 0)];
     messages := [] |}.

(** A context whose types are the 64-bit and the 16-bit unsigned
    integers. *)
Definition wide_context : IRContext :=
  {| id_bound := 20;
     max_id_bound := 100;
     id_to_type := [(1, Integer 64 false); (2, Integer 16 false)];
     id_to_constant := [];
     messages := [] |}.

Definition scalar_shift : Instruction :=
  mkInstruction OpShiftLeftLogical 1 10 [id_operand 8; id_operand 3].

Definition dynamic_shift : Instruction :=
  mkInstruction OpShiftLeftLogical 1 11 [id_operand 8; id_operand 10].

Definition vector_shift : Instruction :=
  mkInstruction OpShiftLeftLogical 2 12 [id_operand 9; id_operand 4].

(** A shift by the constant 3 whose result type id is not declared. *)
Definition untyped_shift : Instruction :=
  mkInstruction OpShiftLeftLogical 13 14 [id_operand 8; id_operand 3].

Definition return_inst : Instruction := mkInstruction OpReturn 0 0 [].

(** One function of one block: the given instructions and the block's
    terminator. *)
Definition one_block (l : list Instruction) : list Function :=
  [mkFunction 6 [mkBasicBlock 7 (l ++ [return_inst])]].

(** A declaration (a function without blocks) and the block. *)
Definition sample_module : list Function :=
  mkFunction 15 [] :: one_block [scalar_shift; dynamic_shift; vector_shift].

(** ** The identifiers that a module defines *)

(** The [n] identifiers from [lo] on, and those from [lo] up to [hi]. *)
Fixpoint ids_from (lo : Z) (n : nat) : list Z :=
  match n with
  | O => []
  | S n' => lo :: ids_from (lo + 1) n'
  end.

Definition ids_between (lo hi : Z) : list Z := ids_from lo (Z.to_nat (hi - lo)).

(** The result ids of a list of instructions; 0 stands for no result. *)
Definition result_ids (l : list Instruction) : list Z :=
  filter (fun r => negb (r =? 0)) (map result_id l).

(** The ids under which the context declares types and constants. *)
Definition declared_ids (c : IRContext) : list Z :=
  map fst (id_to_type c) ++ map fst (id_to_constant c).

(** The ids of the functions and the labels of their blocks. *)
Definition label_ids (m : list Function) : list Z :=
  flat_map (fun f => function_id f :: map label_id (blocks f)) m.

(** Every definition of an id in the context and the module, in one list:
    an id that is defined twice is twice in the list. *)
Definition defined_ids (c : IRContext) (m : list Function) : list Z :=
  declared_ids c ++ label_ids m ++ result_ids (stream m).

(** Each id has one definition, and it is a valid id below the bound. *)
Definition valid_ids (c : IRContext) (m : list Function) : bool :=
  (0 <? id_bound c)
  && distinct_ids (defined_ids c m)
  && forallb (fun x => (0 <? x) && (x <? id_bound c)) (defined_ids c m).

(** The result ids of a list of instructions with their result types. *)
Definition typed_results (l : list Instruction) : list (Z * Z) :=
  map (fun i => (result_id i, type_id i)) l.

(** The ids that an instruction uses: the words of its id operands. *)
Definition id_words (inst : Instruction) : list Z :=
  flat_map (fun op => match otype op with
                      | SPV_OPERAND_TYPE_ID => words op
                      | SPV_OPERAND_TYPE_LITERAL_INTEGER => []
                      end) (in_operands inst).

Definition known_id (known : list Z) (x : Z) : bool := existsb (Z.eqb x) known.

(** Along the list, every id that an instruction uses is known: it is in
    [known], or it is the result of an instruction in front of it. *)
Fixpoint defined_before (known : list Z) (l : list Instruction) : bool :=
  match l with
  | [] => true
  | i :: rest =>
      forallb (known_id known) (id_words i)
      && defined_before (result_id i :: known) rest
  end.

(** The ids of the constants that the context declares. *)
Definition constant_ids (c : IRContext) : list Z := map fst (id_to_constant c).

(** The context without its messages. *)
Definition registries (c : IRContext)
    : Z * Z * list (Z * Type_) * list (Z * Constant) :=
  (id_bound c, max_id_bound c, id_to_type c, id_to_constant c).

(** The result type of every instruction that the context matches is one
    that the synthesizer of its path supports. *)
Definition supported_results (c : IRContext) (l : list Instruction) : bool :=
  forallb (fun i => match classify c i with
                    | Some k => negb (unsupported_type k c (type_id i))
                    | None => true
                    end) l.

(** The most identifiers that the rewrites of a list can take: for a shift
    by a scalar the 32-bit type, the zero and the new result id; for a
    shift by a vector also the vector constant. *)
Definition ids_needed (c : IRContext) (l : list Instruction) : Z :=
  3 * Z.of_nat (count_class c true l) + 4 * Z.of_nat (count_class c false l).

(** The result type of every [OpShiftLeftLogical] is a declared type. *)
Definition typed_shifts (c : IRContext) (l : list Instruction) : bool :=
  forallb (fun i => negb (is_shift i)
                    || match GetType c (type_id i) with
                       | Some _ => true
                       | None => false
                       end) l.

(** [allocates c c']: the declarations of [c'] are those of [c] and one
    more for each id between the two bounds. *)
Definition allocates (c c' : IRContext) : Prop :=
  id_bound c <= id_bound c'
  /\ Permutation (declared_ids c')
       (declared_ids c ++ ids_between (id_bound c) (id_bound c')).

(** The entries of the two tables that [c'] has after those of [c]. *)
Definition new_types (c c' : IRContext) : list (Z * Type_) :=
  skipn (length (id_to_type c)) (id_to_type c').

Definition new_constants (c c' : IRContext) : list (Z * Constant) :=
  skipn (length (id_to_constant c)) (id_to_constant c').

Definition int32_type (T : Type_) : bool :=
  match T with
  | Integer w _ => w =? 32
  | _ => false
  end.

(** The id is declared as the literal 0 of the 32-bit integer type of the
    given signedness. *)
Definition zero_literal (c : IRContext) (s : bool) (id : Z) : bool :=
  match FindDeclaredConstant c id with
  | Some (IntConstant (Integer w s') v) =>
      (w =? 32) && Bool.eqb s' s && (v =? 0)
  | _ => false
  end.

(** A constant is a zero of the kind the pass asks for: the literal 0 of a
    32-bit integer type, or a composite of an integer vector type with one
    component per element, each the id of such a literal of the element's
    signedness. *)
Definition zero_constant (c : IRContext) (k : Constant) : bool :=
  match k with
  | IntConstant (Integer w _) v => (w =? 32) && (v =? 0)
  | VectorConstant (Vector (Integer _ s) n) ids =>
      Nat.eqb (length ids) (Z.to_nat n) && forallb (zero_literal c s) ids
  | _ => false
  end.

(** [Zeroed c l l']: [l'] is [l] with some instructions renamed and given
    a barrier, and the id that each of these barriers has as its insert,
    offset and count operand is declared in [c] as a zero for the result
    type of its shift. *)
Inductive Zeroed (c : IRContext)
    : list Instruction -> list Instruction -> Prop :=
| Zeroed_nil : Zeroed c [] []
| Zeroed_keep i l l' : Zeroed c l l' -> Zeroed c (i :: l) (i :: l')
| Zeroed_guard i t z T l l' :
    GetType c (type_id i) = Some T ->
    denotes_zero c T (int32_like T) z ->
    Zeroed c l l' ->
    Zeroed c (i :: l)
      (SetResultId i t
         :: noop_barrier_inst (type_id i) (result_id i) t z :: l').

(** Every type that [c'] has after those of [c] is a 32-bit integer type,
    and every constant a zero. *)
Definition declares_zeros (c c' : IRContext) : bool :=
  forallb (fun p => int32_type (snd p)) (new_types c c')
  && forallb (fun p => zero_constant c' (snd p)) (new_constants c c').

(** ** The earlier revision of the pass

    The first part of the source file is the pass before vector shift
    amounts were handled: it matches a shift only when its amount is a
    declared constant of integer type, always asks for the scalar zero,
    keeps no counts, and reports a change at debug level.  Its summary has
    no numbers, so its messages are a type of their own, and the messages
    that a run sends through [consumer()] are collected in the running
    state. *)
Module Earlier.

Inductive MessageText :=
| FailedConstantZero
| FailedTempResultId (inst : Instruction)
| AddedBarriers.

Definition Message : Type := spv_message_level_t * MessageText.

(** [MaliOptimizationBarrierPass::GetOrCreateConstantZero] as the earlier
    revision has it. *)
Definition GetOrCreateConstantZero (c : IRContext) (type_id : Z)
    : Z * IRContext :=
  match GetType c type_id with
  | None => (0, c)
  | Some type =>
      match AsInteger type with
      | None => (0, c)
      | Some (_, is_signed) =>
          if is_signed then GetSIntConstId c 0 else GetUIntConstId c 0
      end
  end.

(** The running state of [Process]: the context, the local [modified], and
    the messages sent so far. *)
Record PassState := mkPassState {
  ctx : IRContext;
  modified : bool;
  sent : list Message
}.

Definition LOG_ (st : PassState) (level : spv_message_level_t)
    (text : MessageText) : PassState :=
  {| ctx := ctx st; modified := modified st;
     sent := sent st ++ [(level, text)] |}.

Definition with_ctx (st : PassState) (c : IRContext) : PassState :=
  {| ctx := c; modified := modified st; sent := sent st |}.

Inductive Visit :=
| Continue
| ReturnFailure (st : PassState)
| Rewritten (st : PassState) (shift barrier : Instruction).

(** The two tests of the loop body that end in [continue]: the opcode, and
    [!shift_constant || !shift_constant->type()->AsInteger()]. *)
Definition matches (c : IRContext) (inst : Instruction) : bool :=
  if negb (Op_eqb (opcode inst) OpShiftLeftLogical) then false
  else
    let shift_amount_id := GetSingleWordInOperand inst 1 in
    match FindDeclaredConstant c shift_amount_id with
    | None => false
    | Some shift_constant =>
        match AsInteger (const_type shift_constant) with
        | Some _ => true
        | None => false
        end
    end.

(** The body of the innermost loop of [Process]. *)
Definition visit (st : PassState) (inst : Instruction) : Visit :=
  if negb (matches (ctx st) inst) then Continue
  else
    let original_result_type_id := type_id inst in
    let original_result_id := result_id inst in
    let '(const_0_id, c1) :=
      GetOrCreateConstantZero (ctx st) original_result_type_id in
    if const_0_id =? 0 then
      ReturnFailure (LOG_ (with_ctx st c1) SPV_MSG_ERROR FailedConstantZero)
    else
      let '(temp_result_id, c2) := TakeNextId c1 in
      if temp_result_id =? 0 then
        ReturnFailure
          (LOG_ (with_ctx st c2) SPV_MSG_ERROR (FailedTempResultId inst))
      else
        Rewritten
          {| ctx := c2; modified := true; sent := sent st |}
          (SetResultId inst temp_result_id)
          (noop_barrier_inst original_result_type_id original_result_id
             temp_result_id const_0_id).

Inductive Flow :=
| Next (st : PassState)
| Return (st : PassState).

Definition flow_state (f : Flow) : PassState :=
  match f with
  | Next st => st
  | Return st => st
  end.

Definition emit (inst : Instruction) (r : Flow * list Instruction)
    : Flow * list Instruction :=
  (fst r, inst :: snd r).

(** The loop over the instructions of one block; the iterator steps onto
    the barrier that was inserted behind the shift, as in the later
    revision. *)
Equations? scan_block (st : PassState) (l : list Instruction)
    : Flow * list Instruction by wf (weight l) lt :=
  scan_block st [] := (Next st, []);
  scan_block st (inst :: rest) with inspect (visit st inst) := {
    | exist _ Continue _ => emit inst (scan_block st rest);
    | exist _ (ReturnFailure st') _ => (Return st', inst :: rest);
    | exist _ (Rewritten st' shift barrier) e =>
        emit shift (scan_block st' (barrier :: rest)) }.
Proof.
  - unfold weight; simpl. destruct (is_shift inst); simpl; lia.
  - assert (Hi : is_shift inst = true /\ is_shift barrier = false).
    { revert e. unfold visit.
      destruct (matches (ctx st) inst) eqn:Hc; [|discriminate].
      assert (Hs : is_shift inst = true).
      { unfold matches in Hc. unfold is_shift.
        destruct (Op_eqb (opcode inst) OpShiftLeftLogical);
          [reflexivity|discriminate]. }
      simpl.
      destruct (GetOrCreateConstantZero (ctx st) (type_id inst)) as [z c1].
      destruct (z =? 0); [discriminate|].
      destruct (TakeNextId c1) as [t c2].
      destruct (t =? 0); [discriminate|].
      intros H; inversion H; subst; auto. }
    destruct Hi as [Hi Hb].
    unfold weight; simpl. rewrite Hi, Hb; simpl; lia.
Qed.

(** The loop over the blocks of one function. *)
Fixpoint scan_blocks (st : PassState) (bs : list BasicBlock)
    : Flow * list BasicBlock :=
  match bs with
  | [] => (Next st, [])
  | b :: bs' =>
      match scan_block st (insts b) with
      | (Next st', l') =>
          let '(f, out) := scan_blocks st' bs' in
          (f, mkBasicBlock (label_id b) l' :: out)
      | (Return st', l') =>
          (Return st', mkBasicBlock (label_id b) l' :: bs')
      end
  end.

(** The loop over the functions of the module. *)
Fixpoint scan_functions (st : PassState) (fs : list Function)
    : Flow * list Function :=
  match fs with
  | [] => (Next st, [])
  | func :: fs' =>
      if IsDeclaration func then
        let '(f, out) := scan_functions st fs' in (f, func :: out)
      else
        match scan_blocks st (blocks func) with
        | (Next st', bs') =>
            let '(f, out) := scan_functions st' fs' in
            (f, mkFunction (function_id func) bs' :: out)
        | (Return st', bs') =>
            (Return st', mkFunction (function_id func) bs' :: fs')
        end
  end.

Definition initial_state (c : IRContext) : PassState :=
  {| ctx := c; modified := false; sent := [] |}.

(** [MaliOptimizationBarrierPass::Process] of the earlier revision: the
    status, the context, the functions of the module, and the messages
    that the run sent. *)
Definition Process (c : IRContext) (m : list Function)
    : Status * IRContext * list Function * list Message :=
  match scan_functions (initial_state c) m with
  | (Return st, m') => (Failure, ctx st, m', sent st)
  | (Next st, m') =>
      if modified st then
        (SuccessWithChange, ctx st, m',
         sent (LOG_ st SPV_MSG_DEBUG AddedBarriers))
      else (SuccessWithoutChange, ctx st, m', sent st)
  end.

End Earlier.

(** ** The build script

    The script that runs the pass (the [opt] function of the build
    fragment) names the optimized file after its input:
    [FILE_OPT="${FILE%.*}_opt.spv"], and writes the disassembly to
    [$FILE_OPT.txt]. *)
Module Script.

Import String Ascii.





End Script.

(** * Properties *)

(** ** Equality tests *)

Lemma Type_eqb_eq a b : Type_eqb a b = true <-> a = b.
Proof.
  revert b; induction a; destruct b; simpl; split; intros H;
    try discriminate; try reflexivity.
  - apply andb_true_iff in H as [Hw Hs].
    apply Z.eqb_eq in Hw. apply Bool.eqb_prop in Hs. congruence.
  - inversion H; subst. now rewrite Z.eqb_refl, Bool.eqb_reflx.
  - apply Z.eqb_eq in H. congruence.
  - inversion H; subst. apply Z.eqb_refl.
  - apply andb_true_iff in H as [He Hn].
    apply IHa in He. apply Z.eqb_eq in Hn. congruence.
  - inversion H; subst. rewrite Z.eqb_refl, andb_true_r. now apply IHa.
Qed.

Lemma ids_eqb_eq a b : ids_eqb a b = true <-> a = b.
Proof.
  revert b; induction a as [|x a IH]; destruct b as [|y b]; simpl; split;
    intros H; try discriminate; try reflexivity.
  - apply andb_true_iff in H as [Hx Hr].
    apply Z.eqb_eq in Hx. apply IH in Hr. congruence.
  - inversion H; subst. rewrite Z.eqb_refl. now apply IH.
Qed.

Lemma Constant_eqb_eq a b : Constant_eqb a b = true <-> a = b.
Proof.
  destruct a, b; simpl; split; intros H; try discriminate.
  - apply andb_true_iff in H as [Ht Hv].
    apply Type_eqb_eq in Ht. apply Z.eqb_eq in Hv. congruence.
  - inversion H; subst. rewrite Z.eqb_refl, andb_true_r. now apply Type_eqb_eq.
  - apply andb_true_iff in H as [Ht Hv].
    apply Type_eqb_eq in Ht. apply ids_eqb_eq in Hv. congruence.
  - inversion H; subst. apply andb_true_iff; split;
      [now apply Type_eqb_eq | now apply ids_eqb_eq].
Qed.

Lemma Type_eqb_refl t : Type_eqb t t = true.
Proof. now apply Type_eqb_eq. Qed.

Lemma Constant_eqb_refl k : Constant_eqb k k = true.
Proof. now apply Constant_eqb_eq. Qed.

(** ** Tables *)

Section Tables.
Context {A : Type}.
Implicit Types (l : list (Z * A)) (id : Z).

Lemma lookup_app id l l' :
  lookup id (l ++ l') =
  match lookup id l with
  | Some a => Some a
  | None => lookup id l'
  end.
Proof.
  induction l as [|[i a] l IH]; simpl; [reflexivity|].
  destruct (i =? id); auto.
Qed.

Lemma lookup_Some_app id l l' a :
  lookup id l = Some a -> lookup id (l ++ l') = Some a.
Proof. intros H. now rewrite lookup_app, H. Qed.

Lemma lookup_In id l a : lookup id l = Some a -> In (id, a) l.
Proof.
  induction l as [|[i b] l IH]; simpl; [discriminate|].
  destruct (i =? id) eqn:E.
  - apply Z.eqb_eq in E. intros H; inversion H; subst. now left.
  - intros H. right. now apply IH.
Qed.

Lemma lookup_None_keys id l :
  Forall (fun p => fst p <> id) l -> lookup id l = None.
Proof.
  induction 1 as [|[i a] l Hi _ IH]; simpl; [reflexivity|].
  simpl in Hi. destruct (i =? id) eqn:E; [|assumption].
  apply Z.eqb_eq in E. contradiction.
Qed.

Lemma existsb_eqb_false x (ks : list Z) :
  existsb (Z.eqb x) ks = false -> ~ In x ks.
Proof.
  intros H Hin.
  assert (existsb (Z.eqb x) ks = true)
    by (apply existsb_exists; exists x; split; [assumption|apply Z.eqb_refl]).
  congruence.
Qed.

Lemma distinct_In_lookup id l a :
  distinct_ids (map fst l) = true -> In (id, a) l -> lookup id l = Some a.
Proof.
  induction l as [|[i b] l IH]; simpl; [contradiction|].
  intros Hd [Heq|Hin].
  - inversion Heq; subst. now rewrite Z.eqb_refl.
  - apply andb_true_iff in Hd as [Hn Hd].
    apply negb_true_iff in Hn. apply existsb_eqb_false in Hn.
    destruct (i =? id) eqn:E.
    + apply Z.eqb_eq in E; subst. exfalso. apply Hn.
      change id with (fst (id, a)). now apply in_map.
    + now apply IH.
Qed.

Lemma distinct_app_fresh (ks : list Z) x :
  distinct_ids ks = true -> ~ In x ks -> distinct_ids (ks ++ [x]) = true.
Proof.
  induction ks as [|y ks IH]; simpl; [reflexivity|].
  intros Hd Hx. apply andb_true_iff in Hd as [Hn Hd].
  apply andb_true_iff; split.
  - apply negb_true_iff. apply negb_true_iff in Hn.
    rewrite existsb_app, Hn. simpl.
    rewrite orb_false_r. apply Z.eqb_neq. intros ->. apply Hx. now left.
  - apply IH; [assumption|]. intros Hin. apply Hx. now right.
Qed.

Lemma wf_table_below bound l p :
  wf_table bound l = true -> In p l -> 0 < fst p < bound.
Proof.
  unfold wf_table. intros H Hin. apply andb_true_iff in H as [_ H].
  rewrite forallb_forall in H. apply H in Hin.
  apply andb_true_iff in Hin as [H0 H1].
  apply Z.ltb_lt in H0. apply Z.ltb_lt in H1. lia.
Qed.

Lemma wf_table_distinct bound l :
  wf_table bound l = true -> distinct_ids (map fst l) = true.
Proof. unfold wf_table. intros H. now apply andb_true_iff in H as [H _]. Qed.

Lemma wf_table_intro bound l :
  distinct_ids (map fst l) = true ->
  (forall p, In p l -> 0 < fst p < bound) ->
  wf_table bound l = true.
Proof.
  intros Hd H. unfold wf_table. rewrite Hd. simpl.
  apply forallb_forall. intros p Hp. apply H in Hp.
  apply andb_true_iff; split; apply Z.ltb_lt; lia.
Qed.

Lemma wf_table_mono bound bound' l :
  bound <= bound' -> wf_table bound l = true -> wf_table bound' l = true.
Proof.
  intros Hb H. apply wf_table_intro; [eapply wf_table_distinct; eauto|].
  intros p Hp. pose proof (wf_table_below _ _ _ H Hp). lia.
Qed.

Lemma wf_table_add bound l a :
  0 < bound ->
  wf_table bound l = true -> wf_table (bound + 1) (l ++ [(bound, a)]) = true.
Proof.
  intros Hpos H. pose proof (fun p => wf_table_below _ _ p H) as Hlt.
  apply wf_table_intro.
  - rewrite map_app. simpl.
    apply distinct_app_fresh; [eapply wf_table_distinct; eauto|].
    intros Hin. apply in_map_iff in Hin as [p [Hp Hin]].
    apply Hlt in Hin. lia.
  - intros p Hp. apply in_app_iff in Hp as [Hp|[<-|[]]].
    + apply Hlt in Hp. lia.
    + simpl. lia.
Qed.

Lemma wf_table_lookup bound l id a :
  wf_table bound l = true -> In (id, a) l -> lookup id l = Some a.
Proof.
  intros H. apply distinct_In_lookup. eapply wf_table_distinct; eauto.
Qed.

Lemma wf_table_lookup_zero bound l : wf_table bound l = true -> lookup 0 l = None.
Proof.
  intros H. destruct (lookup 0 l) as [a|] eqn:E; [|reflexivity].
  apply lookup_In in E. apply (wf_table_below _ _ _ H) in E. simpl in E. lia.
Qed.

Variable eqb : A -> A -> bool.
Hypothesis eqb_eq : forall a b, eqb a b = true <-> a = b.

Lemma find_id_app a l l' :
  find_id eqb a (l ++ l') =
  match find_id eqb a l with
  | Some i => Some i
  | None => find_id eqb a l'
  end.
Proof.
  induction l as [|[i b] l IH]; simpl; [reflexivity|].
  destruct (eqb b a); auto.
Qed.

Lemma find_id_In a l id : find_id eqb a l = Some id -> In (id, a) l.
Proof.
  induction l as [|[i b] l IH]; simpl; [discriminate|].
  destruct (eqb b a) eqn:E.
  - apply eqb_eq in E; subst. intros H; inversion H; subst. now left.
  - intros H. right. now apply IH.
Qed.

Lemma find_id_None a l id : find_id eqb a l = None -> ~ In (id, a) l.
Proof.
  induction l as [|[i b] l IH]; simpl; [tauto|].
  destruct (eqb b a) eqn:E; [discriminate|].
  intros H [Heq|Hin]; [|now apply IH].
  inversion Heq; subst.
  assert (eqb a a = true) by now apply eqb_eq. congruence.
Qed.

Lemma In_find_id a l id :
  In (id, a) l -> exists id', find_id eqb a l = Some id'.
Proof.
  intros Hin. destruct (find_id eqb a l) eqn:E; [eauto|].
  exfalso. eapply find_id_None; eauto.
Qed.

End Tables.

(** ** Growth of the context *)

Lemma wf_context_inv c :
  wf_context c = true ->
  0 < id_bound c
  /\ wf_table (id_bound c) (id_to_type c) = true
  /\ wf_table (id_bound c) (id_to_constant c) = true.
Proof.
  unfold wf_context. intros H.
  apply andb_true_iff in H as [H Hk]. apply andb_true_iff in H as [Hb Ht].
  apply Z.ltb_lt in Hb. auto.
Qed.

Lemma wf_context_intro c :
  0 < id_bound c ->
  wf_table (id_bound c) (id_to_type c) = true ->
  wf_table (id_bound c) (id_to_constant c) = true ->
  wf_context c = true.
Proof.
  intros Hb Ht Hk. unfold wf_context. rewrite Ht, Hk.
  apply Z.ltb_lt in Hb. now rewrite Hb.
Qed.

Lemma extends_refl c : extends c c.
Proof.
  constructor; try lia; try reflexivity.
  - exists []. rewrite app_nil_r. auto.
  - exists []. rewrite app_nil_r. auto.
  - exists []. now rewrite app_nil_r.
Qed.

Lemma Forall_between_weaken {A} (lo lo' hi hi' : Z) (l : list (Z * A)) :
  lo' <= lo -> hi <= hi' ->
  Forall (fun p => lo <= fst p < hi) l ->
  Forall (fun p => lo' <= fst p < hi') l.
Proof.
  intros Hlo Hhi H. eapply Forall_impl; [|exact H]. simpl. intros p Hp. lia.
Qed.

Lemma extends_trans c1 c2 c3 : extends c1 c2 -> extends c2 c3 -> extends c1 c3.
Proof.
  intros [Hb1 Hm1 Hc1 [ts1 [Ht1 Hf1]] [ks1 [Hk1 Hg1]] [ms1 Hs1]]
         [Hb2 Hm2 Hc2 [ts2 [Ht2 Hf2]] [ks2 [Hk2 Hg2]] [ms2 Hs2]].
  constructor.
  - lia.
  - congruence.
  - rewrite Hm1 in Hc2. lia.
  - exists (ts1 ++ ts2). split.
    + rewrite Ht2, Ht1. now rewrite app_assoc.
    + apply Forall_app; split;
        [eapply Forall_between_weaken; [| |exact Hf1]
        |eapply Forall_between_weaken; [| |exact Hf2]]; lia.
  - exists (ks1 ++ ks2). split.
    + rewrite Hk2, Hk1. now rewrite app_assoc.
    + apply Forall_app; split;
        [eapply Forall_between_weaken; [| |exact Hg1]
        |eapply Forall_between_weaken; [| |exact Hg2]]; lia.
  - exists (ms1 ++ ms2). rewrite Hs2, Hs1. now rewrite app_assoc.
Qed.

Lemma grows_refl c : grows c c.
Proof. split; [apply extends_refl | auto]. Qed.

Lemma grows_trans c1 c2 c3 : grows c1 c2 -> grows c2 c3 -> grows c1 c3.
Proof.
  intros [He1 Hw1] [He2 Hw2]. split; [eapply extends_trans; eauto | auto].
Qed.

#[local] Hint Resolve extends_refl grows_refl : core.

(** The two answers of the allocator. *)
Lemma TakeNextId_cases c :
  (max_id_bound c <= id_bound c /\ TakeNextId c = (0, c))
  \/ (id_bound c < max_id_bound c
      /\ TakeNextId c = (id_bound c, set_id_bound c (id_bound c + 1))).
Proof.
  unfold TakeNextId. destruct (max_id_bound c <=? id_bound c) eqn:E.
  - left. apply Z.leb_le in E. auto.
  - right. apply Z.leb_gt in E. auto.
Qed.

Lemma grows_set_id_bound c :
  id_bound c < max_id_bound c -> grows c (set_id_bound c (id_bound c + 1)).
Proof.
  intros Hlt. split.
  - constructor; simpl; try lia; try reflexivity.
    + exists []. rewrite app_nil_r. auto.
    + exists []. rewrite app_nil_r. auto.
    + exists []. now rewrite app_nil_r.
  - intros Hw. apply wf_context_inv in Hw as (Hb & Ht & Hk).
    apply wf_context_intro; simpl; [lia| |];
      eapply wf_table_mono; try eassumption; lia.
Qed.

Lemma TakeNextId_grows c t c1 : TakeNextId c = (t, c1) -> grows c c1.
Proof.
  destruct (TakeNextId_cases c) as [[_ E]|[Hlt E]]; rewrite E;
    intros H; inversion H; subst; auto using grows_set_id_bound.
Qed.

Lemma grows_add_type c t :
  id_bound c < max_id_bound c ->
  grows c (add_type (set_id_bound c (id_bound c + 1)) (id_bound c) t).
Proof.
  intros Hlt. split.
  - constructor; simpl; try lia; try reflexivity.
    + exists [(id_bound c, t)]. split; [reflexivity|].
      constructor; [simpl; lia|constructor].
    + exists []. rewrite app_nil_r. auto.
    + exists []. now rewrite app_nil_r.
  - intros Hw. apply wf_context_inv in Hw as (Hb & Ht & Hk).
    apply wf_context_intro; simpl; [lia| |].
    + now apply wf_table_add.
    + eapply wf_table_mono; try eassumption; lia.
Qed.

Lemma grows_add_constant c k :
  id_bound c < max_id_bound c ->
  grows c (add_constant (set_id_bound c (id_bound c + 1)) (id_bound c) k).
Proof.
  intros Hlt. split.
  - constructor; simpl; try lia; try reflexivity.
    + exists []. rewrite app_nil_r. auto.
    + exists [(id_bound c, k)]. split; [reflexivity|].
      constructor; [simpl; lia|constructor].
    + exists []. now rewrite app_nil_r.
  - intros Hw. apply wf_context_inv in Hw as (Hb & Ht & Hk).
    apply wf_context_intro; simpl; [lia| |].
    + eapply wf_table_mono; try eassumption; lia.
    + now apply wf_table_add.
Qed.

Lemma grows_consumer c level text : grows c (consumer c level text).
Proof.
  split.
  - constructor; simpl; try lia; try reflexivity.
    + exists []. rewrite app_nil_r. auto.
    + exists []. rewrite app_nil_r. auto.
    + eauto.
  - unfold wf_context. simpl. auto.
Qed.

Lemma GetTypeInstruction_grows c t id c1 :
  GetTypeInstruction c t = (id, c1) -> grows c c1.
Proof.
  unfold GetTypeInstruction. destruct (find_id _ _ _).
  - intros H; inversion H; subst; auto.
  - destruct (TakeNextId_cases c) as [[_ E]|[Hlt E]]; rewrite E.
    + simpl. intros H; inversion H; subst; auto.
    + destruct (id_bound c =? 0); intros H; inversion H; subst;
        auto using grows_set_id_bound, grows_add_type.
Qed.

Lemma GetDefiningInstruction_grows c k id c1 :
  GetDefiningInstruction c k = (id, c1) -> grows c c1.
Proof.
  unfold GetDefiningInstruction. destruct (find_id _ _ _).
  - intros H; inversion H; subst; auto.
  - destruct (TakeNextId_cases c) as [[_ E]|[Hlt E]]; rewrite E.
    + simpl. intros H; inversion H; subst; auto.
    + destruct (id_bound c =? 0); intros H; inversion H; subst;
        auto using grows_set_id_bound, grows_add_constant.
Qed.

Lemma GetIntConstId_grows s c v id c1 :
  GetIntConstId s c v = (id, c1) -> grows c c1.
Proof.
  unfold GetIntConstId.
  destruct (GetTypeInstruction c (Integer 32 s)) as [tid ca] eqn:Et.
  apply GetTypeInstruction_grows in Et.
  destruct (tid =? 0).
  - intros H; inversion H; subst; auto.
  - intros H. apply GetDefiningInstruction_grows in H.
    eapply grows_trans; eauto.
Qed.

Lemma zero_components_grows s n : forall c acc ids c1,
  zero_components s n c acc = (ids, c1) -> grows c c1.
Proof.
  induction n as [|n IH]; simpl; intros c acc ids c1.
  - intros H; inversion H; subst; auto.
  - destruct (if s then GetSIntConstId c 0 else GetUIntConstId c 0)
      as [id ca] eqn:E.
    assert (Hg : grows c ca)
      by (destruct s; unfold GetSIntConstId, GetUIntConstId in E;
          eapply GetIntConstId_grows; eauto).
    intros H. apply IH in H. eapply grows_trans; eauto.
Qed.

Lemma GetOrCreateConstantZero_grows c ty z c1 :
  GetOrCreateConstantZero c ty = (z, c1) -> grows c c1.
Proof.
  unfold GetOrCreateConstantZero.
  destruct (GetType c ty) as [T|]; [|intros H; inversion H; subst; auto].
  destruct (AsInteger T) as [[w s]|]; [|intros H; inversion H; subst; auto].
  destruct s; unfold GetSIntConstId, GetUIntConstId;
    apply GetIntConstId_grows.
Qed.

Lemma GetOrCreateConstantZeroVector_grows c ty z c1 :
  GetOrCreateConstantZeroVector c ty = (z, c1) -> grows c c1.
Proof.
  unfold GetOrCreateConstantZeroVector.
  destruct (GetType c ty) as [T|]; [|intros H; inversion H; subst; auto].
  destruct (AsVector T) as [[e n]|]; [|intros H; inversion H; subst; auto].
  destruct (AsInteger e) as [[w s]|]; [|intros H; inversion H; subst; auto].
  destruct (zero_components s (Z.to_nat n) c []) as [ids ca] eqn:Ez.
  apply zero_components_grows in Ez.
  destruct (GetTypeInstruction ca T) as [vid cb] eqn:Et.
  apply GetTypeInstruction_grows in Et.
  assert (grows c cb) by (eapply grows_trans; eauto).
  destruct (vid =? 0); [intros H'; inversion H'; subst; auto|].
  destruct (GetConstant cb (GetType cb vid) ids);
    [|intros H'; inversion H'; subst; auto].
  intros H'. apply GetDefiningInstruction_grows in H'.
  eapply grows_trans; eauto.
Qed.

Lemma synthesize_grows k c ty z c1 : synthesize k c ty = (z, c1) -> grows c c1.
Proof.
  destruct k; simpl;
    [apply GetOrCreateConstantZero_grows
    |apply GetOrCreateConstantZeroVector_grows].
Qed.

(** ** The loop body *)

Lemma classify_is_shift c i k : classify c i = Some k -> is_shift i = true.
Proof.
  unfold classify, is_shift.
  destruct (Op_eqb (opcode i) OpShiftLeftLogical); [reflexivity|discriminate].
Qed.

Lemma classify_SetResultId c i t : classify c (SetResultId i t) = classify c i.
Proof. reflexivity. Qed.

Lemma classify_barrier c ty r t z :
  classify c (noop_barrier_inst ty r t z) = None.
Proof. reflexivity. Qed.

Lemma FindDeclaredConstant_extends c c' id k :
  extends c c' ->
  FindDeclaredConstant c id = Some k -> FindDeclaredConstant c' id = Some k.
Proof.
  intros [_ _ _ _ [ks [Hk _]] _]. unfold FindDeclaredConstant.
  rewrite Hk. apply lookup_Some_app.
Qed.

Lemma FindDeclaredConstant_below c c' id :
  extends c c' -> id < id_bound c ->
  FindDeclaredConstant c' id = FindDeclaredConstant c id.
Proof.
  intros [_ _ _ _ [ks [Hk Hf]] _] Hlt. unfold FindDeclaredConstant.
  rewrite Hk, lookup_app.
  destruct (lookup id (id_to_constant c)); [reflexivity|].
  apply lookup_None_keys. eapply Forall_impl; [|exact Hf].
  simpl. intros p Hp. lia.
Qed.

Lemma GetType_extends c c' id t :
  extends c c' -> GetType c id = Some t -> GetType c' id = Some t.
Proof.
  intros [_ _ _ [ts [Ht _]] _ _]. unfold GetType.
  rewrite Ht. apply lookup_Some_app.
Qed.

(** An instruction that matches keeps matching, the same way, as the
    context grows. *)
Lemma classify_extends c c' i k :
  extends c c' -> classify c i = Some k -> classify c' i = Some k.
Proof.
  intros He. unfold classify.
  destruct (negb (Op_eqb (opcode i) OpShiftLeftLogical)); [discriminate|].
  destruct (FindDeclaredConstant c _) as [sc|] eqn:E; [|discriminate].
  now rewrite (FindDeclaredConstant_extends _ _ _ _ He E).
Qed.

(** With its shift amount below the first bound, an instruction is
    classified by every later context as by the first. *)
Lemma classify_below c c' i :
  extends c c' ->
  (is_shift i = true -> GetSingleWordInOperand i 1 < id_bound c) ->
  classify c' i = classify c i.
Proof.
  intros He Hlt. unfold classify. unfold is_shift in Hlt.
  destruct (Op_eqb (opcode i) OpShiftLeftLogical); simpl; [|reflexivity].
  now rewrite (FindDeclaredConstant_below _ _ _ He (Hlt eq_refl)).
Qed.

(** The three results of the loop body, and when each arises. *)
Lemma visit_cases st i :
  match visit st i with
  | Continue => classify (ctx st) i = None
  | ReturnFailure st' =>
      exists k z c1,
        classify (ctx st) i = Some k
        /\ synthesize k (ctx st) (type_id i) = (z, c1)
        /\ ((z = 0
             /\ st' = with_ctx st (consumer c1 SPV_MSG_ERROR FailedConstantZero))
            \/ (z <> 0
                /\ exists c2,
                    TakeNextId c1 = (0, c2)
                    /\ st' = with_ctx st
                               (consumer c2 SPV_MSG_ERROR (FailedTempResultId i))))
  | Rewritten st' shift barrier =>
      exists k z c1 t,
        classify (ctx st) i = Some k
        /\ synthesize k (ctx st) (type_id i) = (z, c1)
        /\ z <> 0
        /\ TakeNextId c1 = (t, ctx st')
        /\ t <> 0
        /\ shift = SetResultId i t
        /\ barrier = noop_barrier_inst (type_id i) (result_id i) t z
        /\ modified st' = true
        /\ scalar_modifications st' =
             (if k then uint32_add (scalar_modifications st) 1
              else scalar_modifications st)
        /\ vector_modifications st' =
             (if k then vector_modifications st
              else uint32_add (vector_modifications st) 1)
  end.
Proof.
  unfold visit.
  destruct (classify (ctx st) i) as [k|] eqn:Hc; [|reflexivity].
  change (if k then GetOrCreateConstantZero (ctx st) (type_id i)
          else GetOrCreateConstantZeroVector (ctx st) (type_id i))
    with (synthesize k (ctx st) (type_id i)).
  destruct (synthesize k (ctx st) (type_id i)) as [z c1] eqn:Hs.
  destruct (z =? 0) eqn:Hz.
  - apply Z.eqb_eq in Hz. exists k, z, c1. auto.
  - apply Z.eqb_neq in Hz.
    destruct (TakeNextId c1) as [t c2] eqn:Ht.
    destruct (t =? 0) eqn:Htz.
    + apply Z.eqb_eq in Htz; subst. exists k, z, c1.
      repeat split; auto. right. split; [assumption|]. eauto.
    + apply Z.eqb_neq in Htz. exists k, z, c1, t. simpl. repeat split; auto.
Qed.

Lemma visit_Continue st i : classify (ctx st) i = None -> visit st i = Continue.
Proof. unfold visit. now intros ->. Qed.

(** The context after a visit is the context before it, grown. *)
Lemma visit_grows st i :
  match visit st i with
  | Continue => True
  | ReturnFailure st' => grows (ctx st) (ctx st')
  | Rewritten st' _ _ => grows (ctx st) (ctx st')
  end.
Proof.
  pose proof (visit_cases st i) as H. destruct (visit st i) as [|st'|st' s b].
  - exact I.
  - destruct H as (k & z & c1 & _ & Hs & [[_ ->]|[_ [c2 [Ht ->]]]]); simpl;
      apply synthesize_grows in Hs.
    + eapply grows_trans; [eassumption|apply grows_consumer].
    + apply TakeNextId_grows in Ht.
      eapply grows_trans; [eassumption|].
      eapply grows_trans; [eassumption|apply grows_consumer].
  - destruct H as (k & z & c1 & t & _ & Hs & _ & Ht & _).
    apply synthesize_grows in Hs. apply TakeNextId_grows in Ht.
    eapply grows_trans; eassumption.
Qed.

(** ** The instruction loop, by structural recursion *)

(** The barrier that the loop steps onto is passed over, so the loop
    unfolds along the original instructions. *)
Lemma scan_block_cons st i rest :
  scan_block st (i :: rest) =
  match visit st i with
  | Continue => emit i (scan_block st rest)
  | ReturnFailure st' => (Return st', i :: rest)
  | Rewritten st' shift barrier =>
      emit shift (emit barrier (scan_block st' rest))
  end.
Proof.
  rewrite scan_block_equation_2.
  destruct (inspect (visit st i)) as [v e].
  destruct v as [|st'|st' shift barrier].
  - rewrite scan_block_clause_2_equation_1. now rewrite e.
  - rewrite scan_block_clause_2_equation_2. now rewrite e.
  - rewrite scan_block_clause_2_equation_3. rewrite e.
    pose proof (visit_cases st i) as H. rewrite e in H.
    destruct H as (k & z & c1 & t & _ & _ & _ & _ & _ & _ & Hb & _).
    rewrite scan_block_equation_2.
    destruct (inspect (visit st' barrier)) as [v' e'].
    assert (Hv : visit st' barrier = Continue)
      by (apply visit_Continue; subst barrier; apply classify_barrier).
    destruct v'; try congruence.
    now rewrite scan_block_clause_2_equation_1.
Qed.

Lemma scan_block_nil st : scan_block st [] = (Next st, []).
Proof. apply scan_block_equation_1. Qed.

(** A scan of [l1 ++ l2] is a scan of [l1] followed, unless it returned,
    by a scan of [l2]. *)
Lemma scan_block_app st l1 l2 :
  scan_block st (l1 ++ l2) =
  match scan_block st l1 with
  | (Next st1, l1') =>
      (fst (scan_block st1 l2), l1' ++ snd (scan_block st1 l2))
  | (Return st1, l1') => (Return st1, l1' ++ l2)
  end.
Proof.
  revert st. induction l1 as [|i l1 IH]; intros st.
  - rewrite scan_block_nil. simpl. now destruct (scan_block st l2).
  - simpl. rewrite !scan_block_cons.
    destruct (visit st i) as [|st'|st' s b].
    + rewrite IH. destruct (scan_block st l1) as [[st1|st1] l1']; reflexivity.
    + reflexivity.
    + rewrite IH. destruct (scan_block st' l1) as [[st1|st1] l1']; reflexivity.
Qed.

(** ** The relation between a block and its scan *)

Lemma Barriers_impl (Pk Pk' : Instruction -> Prop)
    (Pg Pg' : Instruction -> Z -> Prop) l l' :
  (forall i, Pk i -> Pk' i) -> (forall i t, Pg i t -> Pg' i t) ->
  Barriers Pk Pg l l' -> Barriers Pk' Pg' l l'.
Proof.
  intros Hk Hg. induction 1; constructor; auto.
Qed.

Lemma Barriers_refl Pg l : Barriers (fun _ => True) Pg l l.
Proof. induction l; constructor; auto. Qed.

Lemma visited_as_widen c0 c c' c1 i k :
  extends c0 c -> extends c' c1 -> visited_as c c' i k -> visited_as c0 c1 i k.
Proof.
  intros H0 H1 (cv & Ha & Hb & Hc). exists cv.
  split; [|split]; eauto using extends_trans.
Qed.

Lemma renamed_to_widen c0 c c' c1 i t :
  extends c0 c -> extends c' c1 -> renamed_to c c' i t -> renamed_to c0 c1 i t.
Proof.
  intros H0 H1 ([k Hv] & Ht & Hb). split; [|split].
  - exists k. eapply visited_as_widen; eauto.
  - assumption.
  - destruct H0, H1. lia.
Qed.

Lemma Scanned_widen c0 c c' c1 l l' :
  extends c0 c -> extends c' c1 -> Scanned c c' l l' -> Scanned c0 c1 l l'.
Proof.
  intros H0 H1. apply Barriers_impl.
  - intros i. apply visited_as_widen; assumption.
  - intros i t. apply renamed_to_widen; assumption.
Qed.

Lemma Touched_widen c0 c c' c1 l l' :
  extends c0 c -> extends c' c1 -> Touched c c' l l' -> Touched c0 c1 l l'.
Proof.
  intros H0 H1. apply Barriers_impl; [auto|].
  intros i t. apply renamed_to_widen; assumption.
Qed.

(** A rewriting visit takes its temporary from the allocator. *)
Lemma visit_Rewritten_renamed st i st' shift barrier :
  visit st i = Rewritten st' shift barrier ->
  exists t z,
    shift = SetResultId i t
    /\ barrier = noop_barrier_inst (type_id i) (result_id i) t z
    /\ z <> 0
    /\ renamed_to (ctx st) (ctx st') i t.
Proof.
  intros Hv. pose proof (visit_cases st i) as H. rewrite Hv in H.
  destruct H as (k & z & c1 & t & Hc & Hs & Hz & Ht & Htz & -> & -> & _).
  exists t, z. split; [reflexivity|]. split; [reflexivity|].
  split; [assumption|]. split; [|split; [assumption|split]].
  - exists k, (ctx st). split; [apply extends_refl|]. split; [|assumption].
    apply synthesize_grows in Hs as [Hs _].
    apply TakeNextId_grows in Ht as [Ht _]. eauto using extends_trans.
  - apply synthesize_grows in Hs as [[Hs _ _ _ _ _] _].
    destruct (TakeNextId_cases c1) as [[_ E]|[_ E]]; rewrite E in Ht;
      inversion Ht; subst; [congruence|lia].
  - destruct (TakeNextId_cases c1) as [[_ E]|[_ E]]; rewrite E in Ht;
      injection Ht as Ht1 Ht2; [congruence|].
    rewrite <- Ht2. simpl. lia.
Qed.

Lemma scan_block_rel st : forall l f l',
  scan_block st l = (f, l') ->
  grows (ctx st) (ctx (flow_state f))
  /\ Touched (ctx st) (ctx (flow_state f)) l l'
  /\ (forall st', f = Next st' -> Scanned (ctx st) (ctx st') l l').
Proof.
  intros l; revert st. induction l as [|i l IH]; intros st f l'.
  - rewrite scan_block_nil. intros H; inversion H; subst; simpl.
    split; [apply grows_refl|]. split; [constructor|]. intros; constructor.
  - rewrite scan_block_cons.
    pose proof (visit_grows st i) as Hg.
    pose proof (visit_cases st i) as Hc.
    destruct (visit st i) as [|st1|st1 s b] eqn:Hv.
    + destruct (scan_block st l) as [f0 r] eqn:Hr. unfold emit; simpl.
      intros H; inversion H; subst.
      destruct (IH _ _ _ Hr) as (Hgr & Ht & Hs).
      split; [apply Hgr|]. split.
      * constructor; auto.
      * intros st' ->. constructor; [|now apply Hs].
        exists (ctx st). split; [apply extends_refl|]. split; [apply Hgr|assumption].
    + intros H; inversion H; subst; simpl.
      split; [apply Hg|]. split.
      * apply Barriers_refl.
      * intros st' Hst; discriminate.
    + destruct (scan_block st1 l) as [f0 r] eqn:Hr. unfold emit; simpl.
      intros H; inversion H; subst.
      destruct (IH _ _ _ Hr) as (Hgr & Ht & Hs).
      destruct (visit_Rewritten_renamed _ _ _ _ _ Hv)
        as (t & z & -> & -> & Hz & Hren).
      assert (Hg' : grows (ctx st) (ctx (flow_state f)))
        by (eapply grows_trans; eassumption).
      split; [apply Hg'|]. split.
      * constructor; auto.
        -- eapply renamed_to_widen; [apply extends_refl|apply Hgr|exact Hren].
        -- eapply Touched_widen; [apply Hg|apply extends_refl|exact Ht].
      * intros st' ->. constructor; auto.
        -- eapply renamed_to_widen; [apply extends_refl|apply Hgr|exact Hren].
        -- eapply Scanned_widen; [apply Hg|apply extends_refl|now apply Hs].
Qed.

(** ** Blocks and functions *)

Lemma Blocks_rel_impl (R R' : list Instruction -> list Instruction -> Prop)
    bs bs' :
  (forall l l', R l l' -> R' l l') ->
  Blocks_rel R bs bs' -> Blocks_rel R' bs bs'.
Proof.
  intros HR H. induction H as [|b b' bs bs' [Hl Hb] _ IH]; constructor; auto.
Qed.

Lemma Module_rel_impl (R R' : list Instruction -> list Instruction -> Prop)
    m m' :
  (forall l l', R l l' -> R' l l') ->
  Module_rel R m m' -> Module_rel R' m m'.
Proof.
  intros HR H. induction H as [|f f' m m' [Hi Hf] _ IH]; constructor; auto.
  split; [assumption|]. destruct (IsDeclaration f); [assumption|].
  eapply Blocks_rel_impl; eauto.
Qed.

Lemma Blocks_rel_refl (R : list Instruction -> list Instruction -> Prop) bs :
  (forall l, R l l) -> Blocks_rel R bs bs.
Proof. intros HR. induction bs; constructor; auto. Qed.

Lemma Module_rel_refl (R : list Instruction -> list Instruction -> Prop) m :
  (forall l, R l l) -> Module_rel R m m.
Proof.
  intros HR. induction m as [|f m IH]; constructor; auto.
  split; [reflexivity|]. destruct (IsDeclaration f); [reflexivity|].
  now apply Blocks_rel_refl.
Qed.

Lemma scan_blocks_rel : forall bs st f bs',
  scan_blocks st bs = (f, bs') ->
  grows (ctx st) (ctx (flow_state f))
  /\ Blocks_rel (Touched (ctx st) (ctx (flow_state f))) bs bs'
  /\ (forall st', f = Next st' ->
        Blocks_rel (Scanned (ctx st) (ctx st')) bs bs').
Proof.
  induction bs as [|b bs IH]; intros st f bs'; simpl.
  - intros H; inversion H; subst; simpl.
    split; [apply grows_refl|]. split; [constructor|]. intros; constructor.
  - destruct (scan_block st (insts b)) as [[st1|st1] l1] eqn:Hb;
      apply scan_block_rel in Hb as (Hg1 & Ht1 & Hs1); simpl in *.
    + destruct (scan_blocks st1 bs) as [f0 out] eqn:Hr.
      intros H; inversion H; subst.
      destruct (IH _ _ _ Hr) as (Hg & Ht & Hs).
      assert (Hg' : grows (ctx st) (ctx (flow_state f)))
        by (eapply grows_trans; eassumption).
      split; [apply Hg'|]. split.
      * constructor.
        -- split; [reflexivity|]. simpl.
           eapply Touched_widen; [apply extends_refl|apply Hg|exact Ht1].
        -- eapply Blocks_rel_impl; [|exact Ht]. intros l l'.
           apply Touched_widen; [apply Hg1|apply extends_refl].
      * intros st' ->. constructor.
        -- split; [reflexivity|]. simpl.
           eapply Scanned_widen; [apply extends_refl|apply Hg|now apply Hs1].
        -- eapply Blocks_rel_impl; [|now apply Hs]. intros l l'.
           apply Scanned_widen; [apply Hg1|apply extends_refl].
    + intros H; inversion H; subst; simpl.
      split; [apply Hg1|]. split.
      * constructor; [split; [reflexivity|exact Ht1]|].
        apply Blocks_rel_refl. intros l. apply Barriers_refl.
      * intros st' Hst; discriminate.
Qed.

Lemma scan_functions_rel : forall m st f m',
  scan_functions st m = (f, m') ->
  grows (ctx st) (ctx (flow_state f))
  /\ Module_rel (Touched (ctx st) (ctx (flow_state f))) m m'
  /\ (forall st', f = Next st' ->
        Module_rel (Scanned (ctx st) (ctx st')) m m').
Proof.
  induction m as [|fn m IH]; intros st f m'; simpl.
  - intros H; inversion H; subst; simpl.
    split; [apply grows_refl|]. split; [constructor|]. intros; constructor.
  - destruct (IsDeclaration fn) eqn:Hd.
    + destruct (scan_functions st m) as [f0 out] eqn:Hr.
      intros H; inversion H; subst.
      destruct (IH _ _ _ Hr) as (Hg & Ht & Hs).
      split; [apply Hg|]. split.
      * constructor; [now rewrite Hd|assumption].
      * intros st' ->. constructor; [now rewrite Hd|now apply Hs].
    + destruct (scan_blocks st (blocks fn)) as [[st1|st1] bs1] eqn:Hb;
        apply scan_blocks_rel in Hb as (Hg1 & Ht1 & Hs1); simpl in *.
      * destruct (scan_functions st1 m) as [f0 out] eqn:Hr.
        intros H; inversion H; subst.
        destruct (IH _ _ _ Hr) as (Hg & Ht & Hs).
        assert (Hg' : grows (ctx st) (ctx (flow_state f)))
          by (eapply grows_trans; eassumption).
        split; [apply Hg'|]. split.
        -- constructor.
           ++ rewrite Hd. split; [reflexivity|]. simpl.
              eapply Blocks_rel_impl; [|exact Ht1]. intros l l'.
              apply Touched_widen; [apply extends_refl|apply Hg].
           ++ eapply Module_rel_impl; [|exact Ht]. intros l l'.
              apply Touched_widen; [apply Hg1|apply extends_refl].
        -- intros st' ->. constructor.
           ++ rewrite Hd. split; [reflexivity|]. simpl.
              eapply Blocks_rel_impl; [|now apply Hs1]. intros l l'.
              apply Scanned_widen; [apply extends_refl|apply Hg].
           ++ eapply Module_rel_impl; [|now apply Hs]. intros l l'.
              apply Scanned_widen; [apply Hg1|apply extends_refl].
      * intros H; inversion H; subst; simpl.
        split; [apply Hg1|]. split.
        -- constructor; [rewrite Hd; split; [reflexivity|exact Ht1]|].
           apply Module_rel_refl. intros l. apply Barriers_refl.
        -- intros st' Hst; discriminate.
Qed.

(** ** The module as one stream of instructions *)

Lemma scan_blocks_stream : forall bs st,
  scan_block st (block_stream bs) =
  (fst (scan_blocks st bs), block_stream (snd (scan_blocks st bs))).
Proof.
  induction bs as [|b bs IH]; intros st; simpl.
  - apply scan_block_nil.
  - rewrite scan_block_app.
    destruct (scan_block st (insts b)) as [[st1|st1] l1].
    + rewrite IH. simpl. destruct (scan_blocks st1 bs); reflexivity.
    + reflexivity.
Qed.

Lemma stream_body fid bs :
  (if IsDeclaration (mkFunction fid bs) then [] else block_stream bs)
  = block_stream bs.
Proof. destruct bs; reflexivity. Qed.

Lemma scan_functions_stream : forall m st,
  scan_block st (stream m) =
  (fst (scan_functions st m), stream (snd (scan_functions st m))).
Proof.
  induction m as [|fn m IH]; intros st; simpl.
  - apply scan_block_nil.
  - destruct (IsDeclaration fn) eqn:Hd.
    + simpl. rewrite IH. destruct (scan_functions st m); simpl.
      now rewrite Hd.
    + rewrite scan_block_app, scan_blocks_stream.
      destruct (scan_blocks st (blocks fn)) as [[st1|st1] bs1] eqn:Hb; simpl.
      * rewrite IH. destruct (scan_functions st1 m); simpl.
        now rewrite stream_body.
      * now rewrite stream_body.
Qed.

(** ** Where a scan returns, and when it changes nothing *)

(** A scan that returned did so at one instruction: the instructions in
    front of it were scanned to the end, the visit of that instruction
    returned, and it and everything behind it are as they were. *)
Lemma scan_block_Return_inv : forall l st st' l',
  scan_block st l = (Return st', l') ->
  exists pre i post pre' st1,
    l = pre ++ i :: post
    /\ scan_block st pre = (Next st1, pre')
    /\ visit st1 i = ReturnFailure st'
    /\ l' = pre' ++ i :: post.
Proof.
  induction l as [|i l IH]; intros st st' l'.
  - rewrite scan_block_nil. discriminate.
  - rewrite scan_block_cons. destruct (visit st i) as [|sf|s1 s b] eqn:Hv.
    + destruct (scan_block st l) as [f r] eqn:Hr. unfold emit; simpl.
      intros H; inversion H; subst.
      destruct (IH _ _ _ Hr) as (pre & j & post & pre' & st1 & -> & Hp & Hj & ->).
      exists (i :: pre), j, post, (i :: pre'), st1.
      repeat split; auto.
      rewrite scan_block_cons, Hv, Hp. reflexivity.
    + intros H; inversion H; subst.
      exists [], i, l, [], st. rewrite scan_block_nil. auto.
    + destruct (scan_block s1 l) as [f r] eqn:Hr. unfold emit; simpl.
      intros H; inversion H; subst.
      destruct (IH _ _ _ Hr) as (pre & j & post & pre' & st1 & -> & Hp & Hj & ->).
      exists (i :: pre), j, post, (s :: b :: pre'), st1.
      repeat split; auto.
      rewrite scan_block_cons, Hv, Hp. reflexivity.
Qed.

(** Conversely, a returning visit behind a completed scan makes the whole
    scan return there. *)
Lemma scan_block_Return_at st pre i post st1 pre' st' :
  scan_block st pre = (Next st1, pre') ->
  visit st1 i = ReturnFailure st' ->
  scan_block st (pre ++ i :: post) = (Return st', pre' ++ i :: post).
Proof.
  intros Hp Hv. rewrite scan_block_app, Hp, scan_block_cons, Hv. reflexivity.
Qed.

(** [modified] is only ever set. *)
Lemma scan_block_modified : forall l st st' l',
  scan_block st l = (Next st', l') ->
  modified st = true -> modified st' = true.
Proof.
  induction l as [|i l IH]; intros st st' l'.
  - rewrite scan_block_nil. intros H; inversion H; subst; auto.
  - rewrite scan_block_cons.
    pose proof (visit_cases st i) as Hc.
    destruct (visit st i) as [|sf|s1 s b].
    + destruct (scan_block st l) as [f r] eqn:Hr. unfold emit; simpl.
      intros H; inversion H; subst. eauto.
    + discriminate.
    + destruct (scan_block s1 l) as [f r] eqn:Hr. unfold emit; simpl.
      intros H; inversion H; subst. intros _.
      destruct Hc as (k & z & c1 & t & _ & _ & _ & _ & _ & _ & _ & Hm & _).
      eauto.
Qed.

(** A completed scan that leaves [modified] unset has passed over every
    instruction and has changed neither the block nor the state. *)
Lemma scan_block_unmodified : forall l st st' l',
  scan_block st l = (Next st', l') ->
  modified st' = false ->
  st' = st /\ l' = l /\ Forall (fun i => classify (ctx st) i = None) l.
Proof.
  induction l as [|i l IH]; intros st st' l'.
  - rewrite scan_block_nil. intros H; inversion H; subst; auto.
  - rewrite scan_block_cons.
    pose proof (visit_cases st i) as Hc.
    destruct (visit st i) as [|sf|s1 s b].
    + destruct (scan_block st l) as [f r] eqn:Hr. unfold emit; simpl.
      intros H; inversion H; subst. intros Hm.
      destruct (IH _ _ _ Hr Hm) as (-> & -> & Hall). auto.
    + discriminate.
    + destruct (scan_block s1 l) as [f r] eqn:Hr. unfold emit; simpl.
      intros H; inversion H; subst. intros Hm.
      destruct Hc as (k & z & c1 & t & _ & _ & _ & _ & _ & _ & _ & Hm1 & _).
      rewrite (scan_block_modified _ _ _ _ Hr Hm1) in Hm. discriminate.
Qed.

(** A completed scan that sets [modified] has renamed an instruction that
    the context it ends in still matches. *)
Lemma scan_block_modified_witness : forall l st st' l',
  scan_block st l = (Next st', l') ->
  modified st = false -> modified st' = true ->
  exists i t k,
    In i l /\ In (SetResultId i t) l' /\ classify (ctx st') i = Some k
    /\ (length l < length l')%nat.
Proof.
  induction l as [|i l IH]; intros st st' l'.
  - rewrite scan_block_nil. intros H; inversion H; subst. congruence.
  - rewrite scan_block_cons.
    pose proof (visit_cases st i) as Hc.
    destruct (visit st i) as [|sf|s1 s b] eqn:Hv.
    + destruct (scan_block st l) as [f r] eqn:Hr. unfold emit; simpl.
      intros H; inversion H; subst. intros Hm Hm'.
      destruct (IH _ _ _ Hr Hm Hm') as (j & t & k & Hj & Hin & Hk & Hlen).
      exists j, t, k. split; [now right|]. split; [now right|].
      split; [assumption|simpl; lia].
    + discriminate.
    + destruct (scan_block s1 l) as [f r] eqn:Hr. unfold emit; simpl.
      intros H; inversion H; subst. intros Hm Hm'.
      destruct Hc as (k & z & c1 & t & Hk & Hs & _ & Ht & _ & -> & -> & _).
      exists i, t, k. split; [now left|]. split; [now left|]. split.
      * apply scan_block_rel in Hr as ([Hg _] & Htouched & _). simpl in Hg.
        apply synthesize_grows in Hs as [Hs _].
        apply TakeNextId_grows in Ht as [Ht _].
        eapply classify_extends; [|exact Hk]. eauto using extends_trans.
      * apply scan_block_rel in Hr as (_ & Htouched & _).
        assert (Hlen : forall Pk Pg a b, Barriers Pk Pg a b ->
                                         (length a <= length b)%nat)
          by (induction 1; simpl; lia).
        apply Hlen in Htouched. simpl. lia.
Qed.

(** ** [Process] in terms of the scan *)

Lemma Process_Failure c m c' m' :
  Process c m = (Failure, c', m') <->
  exists st', scan_functions (initial_state c) m = (Return st', m')
              /\ c' = ctx st'.
Proof.
  unfold Process.
  destruct (scan_functions (initial_state c) m) as [[st|st] r] eqn:Hs.
  - split.
    + destruct (modified st); discriminate.
    + intros (st' & H & _). discriminate.
  - split.
    + intros H; inversion H; subst. eauto.
    + intros (st' & H & ->). inversion H; subst. reflexivity.
Qed.

Lemma Process_success c m s c' m' :
  Process c m = (s, c', m') -> s <> Failure ->
  exists st',
    scan_functions (initial_state c) m = (Next st', m')
    /\ ((modified st' = true /\ s = SuccessWithChange
         /\ c' = consumer (ctx st') SPV_MSG_INFO
                   (AddedBarriers (scalar_modifications st')
                      (vector_modifications st')))
        \/ (modified st' = false /\ s = SuccessWithoutChange /\ c' = ctx st')).
Proof.
  unfold Process.
  destruct (scan_functions (initial_state c) m) as [[st|st] r] eqn:Hs.
  - destruct (modified st) eqn:Hm; intros H; inversion H; subst; intros _;
      exists st; split; auto.
  - intros H; inversion H; subst. congruence.
Qed.

Lemma scan_functions_as_stream st m f m' :
  scan_functions st m = (f, m') -> scan_block st (stream m) = (f, stream m').
Proof. intros H. now rewrite scan_functions_stream, H. Qed.

Lemma scan_blocks_modified : forall bs st st' bs',
  scan_blocks st bs = (Next st', bs') ->
  modified st = true -> modified st' = true.
Proof.
  induction bs as [|b bs IH]; intros st st' bs'; simpl.
  - intros H; inversion H; subst; auto.
  - destruct (scan_block st (insts b)) as [[st1|st1] l1] eqn:Hb; [|discriminate].
    destruct (scan_blocks st1 bs) as [f out] eqn:Hr.
    intros H; inversion H; subst. intros Hm.
    eapply IH; [eassumption|]. eapply scan_block_modified; eassumption.
Qed.

Lemma scan_blocks_unmodified : forall bs st st' bs',
  scan_blocks st bs = (Next st', bs') ->
  modified st' = false -> st' = st /\ bs' = bs.
Proof.
  induction bs as [|b bs IH]; intros st st' bs'; simpl.
  - intros H; inversion H; subst; auto.
  - destruct (scan_block st (insts b)) as [[st1|st1] l1] eqn:Hb; [|discriminate].
    destruct (scan_blocks st1 bs) as [f out] eqn:Hr.
    intros H; inversion H; subst. intros Hm.
    destruct (IH _ _ _ Hr Hm) as [-> ->].
    destruct (scan_block_unmodified _ _ _ _ Hb Hm) as (-> & -> & _).
    split; [reflexivity|]. now destruct b.
Qed.

Lemma scan_functions_modified : forall m st st' m',
  scan_functions st m = (Next st', m') ->
  modified st = true -> modified st' = true.
Proof.
  induction m as [|fn m IH]; intros st st' m'; simpl.
  - intros H; inversion H; subst; auto.
  - destruct (IsDeclaration fn).
    + destruct (scan_functions st m) as [f out] eqn:Hr.
      intros H; inversion H; subst. eauto.
    + destruct (scan_blocks st (blocks fn)) as [[st1|st1] bs1] eqn:Hb;
        [|discriminate].
      destruct (scan_functions st1 m) as [f out] eqn:Hr.
      intros H; inversion H; subst. intros Hm.
      eapply IH; [eassumption|]. eapply scan_blocks_modified; eassumption.
Qed.

Lemma scan_functions_unmodified : forall m st st' m',
  scan_functions st m = (Next st', m') ->
  modified st' = false -> st' = st /\ m' = m.
Proof.
  induction m as [|fn m IH]; intros st st' m'; simpl.
  - intros H; inversion H; subst; auto.
  - destruct (IsDeclaration fn).
    + destruct (scan_functions st m) as [f out] eqn:Hr.
      intros H; inversion H; subst. intros Hm.
      destruct (IH _ _ _ Hr Hm) as [-> ->]. auto.
    + destruct (scan_blocks st (blocks fn)) as [[st1|st1] bs1] eqn:Hb;
        [|discriminate].
      destruct (scan_functions st1 m) as [f out] eqn:Hr.
      intros H; inversion H; subst. intros Hm.
      destruct (IH _ _ _ Hr Hm) as [-> ->].
      destruct (scan_blocks_unmodified _ _ _ _ Hb Hm) as [-> ->].
      split; [reflexivity|]. now destruct fn.
Qed.

(** ** The relation of a run that did not fail *)

Lemma passed_over_unmatched c c' i : passed_over c c' i -> classify c i = None.
Proof.
  intros (cv & Ha & _ & Hc).
  destruct (classify c i) as [k|] eqn:E; [|reflexivity].
  rewrite (classify_extends _ _ _ _ Ha E) in Hc. discriminate.
Qed.

Lemma Scanned_Guarded c c' l l' : Scanned c c' l l' -> Guarded c c' l l'.
Proof.
  apply Barriers_impl.
  - apply passed_over_unmatched.
  - intros i t (_ & Ht & Hb). auto.
Qed.

Lemma Process_Guarded c m s c' m' :
  Process c m = (s, c', m') -> s <> Failure ->
  Module_rel (Guarded c c') m m'.
Proof.
  intros HP Hs. destruct (Process_success _ _ _ _ _ HP Hs) as (st' & Hscan & Hc).
  apply scan_functions_rel in Hscan as (_ & _ & Hrel).
  specialize (Hrel st' eq_refl). simpl in Hrel.
  eapply Module_rel_impl; [|exact Hrel]. intros l l' H.
  apply Scanned_Guarded.
  destruct Hc as [(_ & _ & ->)|(_ & _ & ->)]; [|exact H].
  eapply Scanned_widen; [apply extends_refl|apply grows_consumer|exact H].
Qed.

(** ** The ids of the renamed instructions *)

Lemma Ascending_refl hi lo l : Ascending hi lo l l.
Proof. induction l; constructor; auto. Qed.

Lemma Ascending_lower hi lo lo' l l' :
  lo' <= lo -> Ascending hi lo l l' -> Ascending hi lo' l l'.
Proof.
  intros Hlo H. revert lo' Hlo.
  induction H as [lo|lo i l l' _ IH|lo i t z l l' Ht H _]; intros lo' Hlo.
  - constructor.
  - constructor. now apply IH.
  - constructor; [lia|assumption].
Qed.

Lemma Ascending_upper hi hi' lo l l' :
  hi <= hi' -> Ascending hi lo l l' -> Ascending hi' lo l l'.
Proof.
  intros Hhi H. induction H; constructor; auto; lia.
Qed.

Lemma scan_block_Ascending : forall l st f l',
  scan_block st l = (f, l') ->
  Ascending (id_bound (ctx (flow_state f))) (id_bound (ctx st)) l l'.
Proof.
  induction l as [|i l IH]; intros st f l'.
  - rewrite scan_block_nil. intros H; inversion H; subst. constructor.
  - rewrite scan_block_cons. destruct (visit st i) as [|sf|s1 sh b] eqn:Hv.
    + destruct (scan_block st l) as [f0 r] eqn:Hr. unfold emit; simpl.
      intros H; inversion H; subst. constructor. now apply IH.
    + intros H; inversion H; subst. apply Ascending_refl.
    + destruct (scan_block s1 l) as [f0 r] eqn:Hr. unfold emit; simpl.
      intros H; inversion H; subst.
      destruct (visit_Rewritten_renamed _ _ _ _ _ Hv)
        as (t & z & -> & -> & _ & (_ & _ & Hlo & Hhi)).
      pose proof (scan_block_rel _ _ _ _ Hr) as ([[Hb _ _ _ _ _] _] & _).
      constructor; [lia|].
      eapply Ascending_lower; [|apply IH; exact Hr]. lia.
Qed.

(** ** Counting the rewrites *)

Lemma operands_below_Forall c l :
  operands_below c l = true <->
  Forall (fun i => is_shift i = true -> GetSingleWordInOperand i 1 < id_bound c) l.
Proof.
  unfold operands_below. rewrite forallb_forall, Forall_forall.
  split; intros H i Hin; specialize (H i Hin).
  - intros Hs. rewrite Hs in H. simpl in H. now apply Z.ltb_lt.
  - destruct (is_shift i); simpl; [|reflexivity]. apply Z.ltb_lt. auto.
Qed.

Lemma uint32_add_range a b : in_uint32 (uint32_add a b).
Proof. unfold in_uint32, uint32_add. apply Z.mod_pos_bound. lia. Qed.

Lemma uint32_add_shift a n :
  (uint32_add a 1 + Z.of_nat n) mod 2 ^ 32 = (a + Z.of_nat (S n)) mod 2 ^ 32.
Proof.
  unfold uint32_add. rewrite Zplus_mod_idemp_l. f_equal. lia.
Qed.

(** The counters after a scan count the instructions that were rewritten,
    by class; every rewrite has taken at least one identifier.  The scan
    has rewritten a front part of the block and left the rest as it was
    (nothing, when it ran to the end). *)
Lemma scan_block_counts c : forall l st f l',
  scan_block st l = (f, l') ->
  extends c (ctx st) -> operands_below c l = true ->
  in_uint32 (scalar_modifications st) ->
  in_uint32 (vector_modifications st) ->
  exists pre post pre' s v,
    l = pre ++ post /\ l' = pre' ++ post
    /\ Rewrites c pre pre' s v
    /\ (forall st', f = Next st' -> post = [])
    /\ scalar_modifications (flow_state f)
        = (scalar_modifications st + Z.of_nat s) mod 2 ^ 32
    /\ vector_modifications (flow_state f)
        = (vector_modifications st + Z.of_nat v) mod 2 ^ 32
    /\ Z.of_nat s + Z.of_nat v
        <= id_bound (ctx (flow_state f)) - id_bound (ctx st).
Proof.
  induction l as [|i l IH]; intros st f l'.
  - rewrite scan_block_nil. intros H; inversion H; subst; simpl.
    intros _ _ Hs Hv. exists [], [], [], 0%nat, 0%nat. simpl.
    rewrite !Z.add_0_r, !Z.mod_small by assumption.
    repeat split; auto; try constructor; lia.
  - rewrite scan_block_cons. simpl operands_below.
    intros Hscan He Hop Hs Hv.
    apply andb_true_iff in Hop as [Hi Hop].
    assert (Hcl : classify (ctx st) i = classify c i).
    { apply classify_below; [assumption|]. intros Hsh. rewrite Hsh in Hi.
      simpl in Hi. now apply Z.ltb_lt. }
    pose proof (visit_cases st i) as Hc.
    pose proof (visit_grows st i) as Hg.
    destruct (visit st i) as [|sf|s1 sh b] eqn:Hvis.
    + destruct (scan_block st l) as [f0 r] eqn:Hr. unfold emit in Hscan.
      simpl in Hscan. inversion Hscan; subst.
      destruct (IH _ _ _ Hr He Hop Hs Hv)
        as (pre & post & pre' & s & v & -> & -> & HR & Hn & Hsc & Hvc & Hid).
      exists (i :: pre), post, (i :: pre'), s, v.
      repeat split; auto. constructor; [congruence|assumption].
    + inversion Hscan; subst. simpl.
      exists [], (i :: l), [], 0%nat, 0%nat. simpl.
      destruct Hc as (k & z & c1 & _ & _ & [[_ ->]|[_ [c2 [_ ->]]]]); simpl;
        rewrite !Z.add_0_r, !Z.mod_small by assumption;
        destruct Hg as [[Hb _ _ _ _ _] _]; simpl in Hb;
        (repeat split; auto; try constructor; try discriminate; lia).
    + destruct (scan_block s1 l) as [f0 r] eqn:Hr. unfold emit in Hscan.
      simpl in Hscan. inversion Hscan; subst.
      destruct Hc as (k & z & c1 & t & Hk & Hsy & Hz & Ht & Htz & -> & ->
                      & Hm & Hsc1 & Hvc1).
      destruct (visit_Rewritten_renamed _ _ _ _ _ Hvis)
        as (t' & z' & Heq & _ & _ & (_ & _ & Hlo & Hhi)).
      assert (t' = t) by (unfold SetResultId in Heq; congruence). subst t'.
      assert (Hs1 : in_uint32 (scalar_modifications s1))
        by (rewrite Hsc1; destruct k; [apply uint32_add_range|assumption]).
      assert (Hv1 : in_uint32 (vector_modifications s1))
        by (rewrite Hvc1; destruct k; [assumption|apply uint32_add_range]).
      assert (He1 : extends c (ctx s1))
        by (eapply extends_trans; [exact He|apply Hg]).
      destruct (IH _ _ _ Hr He1 Hop Hs1 Hv1)
        as (pre & post & pre' & s & v & -> & -> & HR & Hn & Hsc & Hvc & Hid).
      rewrite Hcl in Hk. destruct k.
      * exists (i :: pre), post,
          (SetResultId i t :: noop_barrier_inst (type_id i) (result_id i) t z
             :: pre'), (S s), v.
        split; [reflexivity|]. split; [reflexivity|].
        split; [now constructor|]. split; [assumption|].
        split; [rewrite Hsc, Hsc1; apply uint32_add_shift|].
        split; [rewrite Hvc, Hvc1; reflexivity|]. lia.
      * exists (i :: pre), post,
          (SetResultId i t :: noop_barrier_inst (type_id i) (result_id i) t z
             :: pre'), s, (S v).
        split; [reflexivity|]. split; [reflexivity|].
        split; [now constructor|]. split; [assumption|].
        split; [rewrite Hsc, Hsc1; reflexivity|].
        split; [rewrite Hvc, Hvc1; apply uint32_add_shift|]. lia.
Qed.

Lemma Rewrites_count c l l' s v :
  Rewrites c l l' s v ->
  s = count_class c true l /\ v = count_class c false l
  /\ length l' = (length l + s + v)%nat.
Proof.
  unfold count_class.
  induction 1 as [|i l l' s v Hc _ IH|i t z l l' s v Hc _ IH
                  |i t z l l' s v Hc _ IH]; simpl; try rewrite Hc; simpl;
    try destruct IH as (-> & -> & ->); repeat split; auto; lia.
Qed.

(** ** The registries after a request *)

Lemma extends_exhausted c c' :
  extends c c' -> max_id_bound c <= id_bound c ->
  id_bound c' = id_bound c
  /\ id_to_type c' = id_to_type c
  /\ id_to_constant c' = id_to_constant c.
Proof.
  intros [Hb Hm Hc [ts [Ht Hft]] [ks [Hk Hfk]] _] Hex.
  assert (Hbb : id_bound c' = id_bound c) by lia.
  split; [assumption|]. split.
  - destruct ts as [|p ts]; [now rewrite Ht, app_nil_r|].
    inversion Hft; subst. lia.
  - destruct ks as [|p ks]; [now rewrite Hk, app_nil_r|].
    inversion Hfk; subst. lia.
Qed.

(** A request that leaves the context as it is gives the same answer in
    every later context. *)
Lemma GetTypeInstruction_stable c c' t id :
  GetTypeInstruction c t = (id, c) -> extends c c' ->
  GetTypeInstruction c' t = (id, c').
Proof.
  unfold GetTypeInstruction. intros H He.
  destruct (find_id Type_eqb t (id_to_type c)) as [i|] eqn:Ef.
  - inversion H; subst.
    destruct He as [_ _ _ [ts [Ht _]] _ _]. now rewrite Ht, find_id_app, Ef.
  - destruct (TakeNextId_cases c) as [[Hex E]|[Hlt E]]; rewrite E in H.
    + simpl in H. inversion H; subst.
      destruct (extends_exhausted _ _ He Hex) as (Hb & Ht & _).
      rewrite Ht, Ef. unfold TakeNextId.
      destruct He as [_ Hm _ _ _ _]. rewrite Hm, Hb.
      apply Z.leb_le in Hex. now rewrite Hex.
    + exfalso. destruct (id_bound c =? 0); inversion H as [[H1 H2]];
        apply (f_equal id_bound) in H2; simpl in H2; lia.
Qed.

Lemma GetDefiningInstruction_stable c c' k id :
  GetDefiningInstruction c k = (id, c) -> extends c c' ->
  GetDefiningInstruction c' k = (id, c').
Proof.
  unfold GetDefiningInstruction. intros H He.
  destruct (find_id Constant_eqb k (id_to_constant c)) as [i|] eqn:Ef.
  - inversion H; subst.
    destruct He as [_ _ _ _ [ks [Hk _]] _]. now rewrite Hk, find_id_app, Ef.
  - destruct (TakeNextId_cases c) as [[Hex E]|[Hlt E]]; rewrite E in H.
    + simpl in H. inversion H; subst.
      destruct (extends_exhausted _ _ He Hex) as (Hb & _ & Hk).
      rewrite Hk, Ef. unfold TakeNextId.
      destruct He as [_ Hm _ _ _ _]. rewrite Hm, Hb.
      apply Z.leb_le in Hex. now rewrite Hex.
    + exfalso. destruct (id_bound c =? 0); inversion H as [[H1 H2]];
        apply (f_equal id_bound) in H2; simpl in H2; lia.
Qed.

(** Asking again gives the same answer and changes nothing. *)
Lemma GetTypeInstruction_again c t id c1 :
  0 < id_bound c ->
  GetTypeInstruction c t = (id, c1) -> GetTypeInstruction c1 t = (id, c1).
Proof.
  unfold GetTypeInstruction at 1. intros Hpos H.
  destruct (find_id Type_eqb t (id_to_type c)) as [i|] eqn:Ef.
  - inversion H; subst. unfold GetTypeInstruction. now rewrite Ef.
  - destruct (TakeNextId_cases c) as [[Hex E]|[Hlt E]]; rewrite E in H.
    + simpl in H. inversion H; subst. unfold GetTypeInstruction.
      now rewrite Ef, E.
    + destruct (id_bound c =? 0) eqn:E0; [apply Z.eqb_eq in E0; lia|].
      inversion H; subst. unfold GetTypeInstruction. simpl.
      rewrite find_id_app, Ef. simpl. now rewrite Type_eqb_refl.
Qed.

Lemma GetDefiningInstruction_again c k id c1 :
  0 < id_bound c ->
  GetDefiningInstruction c k = (id, c1) ->
  GetDefiningInstruction c1 k = (id, c1).
Proof.
  unfold GetDefiningInstruction at 1. intros Hpos H.
  destruct (find_id Constant_eqb k (id_to_constant c)) as [i|] eqn:Ef.
  - inversion H; subst. unfold GetDefiningInstruction. now rewrite Ef.
  - destruct (TakeNextId_cases c) as [[Hex E]|[Hlt E]]; rewrite E in H.
    + simpl in H. inversion H; subst. unfold GetDefiningInstruction.
      now rewrite Ef, E.
    + destruct (id_bound c =? 0) eqn:E0; [apply Z.eqb_eq in E0; lia|].
      inversion H; subst. unfold GetDefiningInstruction. simpl.
      rewrite find_id_app, Ef. simpl. now rewrite Constant_eqb_refl.
Qed.

Lemma grows_positive c c' : grows c c' -> 0 < id_bound c -> 0 < id_bound c'.
Proof. intros [[Hb _ _ _ _ _] _]. lia. Qed.

Lemma GetIntConstId_again s c v z c1 :
  0 < id_bound c ->
  GetIntConstId s c v = (z, c1) -> GetIntConstId s c1 v = (z, c1).
Proof.
  unfold GetIntConstId at 1. intros Hpos H.
  destruct (GetTypeInstruction c (Integer 32 s)) as [tid ca] eqn:Et.
  pose proof (GetTypeInstruction_again _ _ _ _ Hpos Et) as Et'.
  pose proof (grows_positive _ _ (GetTypeInstruction_grows _ _ _ _ Et) Hpos)
    as Hpa.
  destruct (tid =? 0) eqn:E0.
  - inversion H; subst. unfold GetIntConstId. now rewrite Et', E0.
  - pose proof (GetDefiningInstruction_grows _ _ _ _ H) as [He _].
    unfold GetIntConstId.
    rewrite (GetTypeInstruction_stable _ _ _ _ Et' He), E0.
    eapply GetDefiningInstruction_again; eassumption.
Qed.

Lemma extends_antisym c c' : extends c c' -> extends c' c -> c' = c.
Proof.
  intros [Hb Hm _ [ts [Ht Hft]] [ks [Hk Hfk]] [ms Hms]]
         [Hb' _ _ _ _ [ms' Hms']].
  assert (ts = []) by (destruct ts as [|p ts]; [reflexivity|];
                       inversion Hft; subst; lia).
  assert (ks = []) by (destruct ks as [|p ks]; [reflexivity|];
                       inversion Hfk; subst; lia).
  assert (ms = []).
  { rewrite Hms, <- app_assoc in Hms'.
    rewrite <- (app_nil_r (messages c)) in Hms' at 1.
    apply app_inv_head in Hms'. symmetry in Hms'.
    now apply app_eq_nil in Hms' as [-> _]. }
  subst. rewrite app_nil_r in *.
  destruct c, c'; simpl in *. f_equal; auto; lia.
Qed.

Lemma GetIntConstId_stable s c c' v z :
  GetIntConstId s c v = (z, c) -> extends c c' ->
  GetIntConstId s c' v = (z, c').
Proof.
  unfold GetIntConstId. intros H He.
  destruct (GetTypeInstruction c (Integer 32 s)) as [tid ca] eqn:Et.
  pose proof (GetTypeInstruction_grows _ _ _ _ Et) as [Hca _].
  destruct (tid =? 0) eqn:E0.
  - inversion H; subst.
    now rewrite (GetTypeInstruction_stable _ _ _ _ Et He), E0.
  - pose proof (GetDefiningInstruction_grows _ _ _ _ H) as [Hac _].
    assert (ca = c) by now apply extends_antisym. subst ca.
    rewrite (GetTypeInstruction_stable _ _ _ _ Et He), E0.
    eapply GetDefiningInstruction_stable; eassumption.
Qed.

Lemma zero_request_eq s c : zero_request s c = GetIntConstId s c 0.
Proof. now destruct s. Qed.

(** The component loop asks for the same scalar zero each time. *)
Lemma zero_components_repeat s c z c1 :
  0 < id_bound c ->
  GetIntConstId s c 0 = (z, c1) ->
  forall n acc,
    zero_components s (S n) c acc = (acc ++ repeat z (S n), c1).
Proof.
  intros Hpos H.
  pose proof (GetIntConstId_again _ _ _ _ _ Hpos H) as H1.
  pose proof (grows_positive _ _ (GetIntConstId_grows _ _ _ _ _ H) Hpos) as Hp1.
  assert (Hloop : forall n acc,
             zero_components s n c1 acc = (acc ++ repeat z n, c1)).
  { induction n as [|n IH]; intros acc; simpl.
    - now rewrite app_nil_r.
    - change (if s then GetSIntConstId c1 0 else GetUIntConstId c1 0)
        with (zero_request s c1).
      rewrite zero_request_eq, H1, IH, <- app_assoc. reflexivity. }
  intros n acc. simpl.
  change (if s then GetSIntConstId c 0 else GetUIntConstId c 0)
    with (zero_request s c).
  rewrite zero_request_eq, H, Hloop, <- app_assoc. reflexivity.
Qed.

(** ** What the requests register *)

Lemma wf_FindDeclaredConstant c id k :
  wf_context c = true -> In (id, k) (id_to_constant c) ->
  FindDeclaredConstant c id = Some k.
Proof.
  intros Hw. apply wf_context_inv in Hw as (_ & _ & Hk).
  eapply wf_table_lookup; eauto.
Qed.

Lemma wf_GetType c id t :
  wf_context c = true -> In (id, t) (id_to_type c) -> GetType c id = Some t.
Proof.
  intros Hw. apply wf_context_inv in Hw as (_ & Ht & _).
  eapply wf_table_lookup; eauto.
Qed.

Lemma wf_FindDeclaredConstant_zero c :
  wf_context c = true -> FindDeclaredConstant c 0 = None.
Proof.
  intros Hw. apply wf_context_inv in Hw as (_ & _ & Hk).
  eapply wf_table_lookup_zero; eauto.
Qed.

Lemma wf_positive c : wf_context c = true -> 0 < id_bound c.
Proof. intros Hw. now apply wf_context_inv in Hw as (H & _). Qed.

(** The constant is registered under the id that is answered; when it was
    registered before, nothing is added and the id is an old one. *)
Lemma GetDefiningInstruction_registered c k id c1 :
  GetDefiningInstruction c k = (id, c1) -> id <> 0 ->
  In (id, k) (id_to_constant c1)
  /\ (forall id0, In (id0, k) (id_to_constant c) ->
        In (id, k) (id_to_constant c) /\ c1 = c).
Proof.
  unfold GetDefiningInstruction. intros H Hz.
  destruct (find_id Constant_eqb k (id_to_constant c)) as [i|] eqn:Ef.
  - inversion H; subst.
    apply (find_id_In _ Constant_eqb_eq) in Ef. auto.
  - destruct (TakeNextId_cases c) as [[Hex E]|[Hlt E]]; rewrite E in H.
    + simpl in H. inversion H; subst. congruence.
    + destruct (id_bound c =? 0); inversion H; subst; [congruence|].
      split.
      * simpl. apply in_app_iff. right. now left.
      * intros id0 Hin. exfalso.
        eapply (find_id_None _ Constant_eqb_eq); eauto.
Qed.

Lemma GetIntConstId_registered s c v z c1 :
  GetIntConstId s c v = (z, c1) -> z <> 0 ->
  In (z, IntConstant (Integer 32 s) v) (id_to_constant c1)
  /\ (forall id0, In (id0, IntConstant (Integer 32 s) v) (id_to_constant c) ->
        In (z, IntConstant (Integer 32 s) v) (id_to_constant c)
        /\ id_to_constant c1 = id_to_constant c).
Proof.
  unfold GetIntConstId. intros H Hz.
  destruct (GetTypeInstruction c (Integer 32 s)) as [tid ca] eqn:Et.
  destruct (tid =? 0); [inversion H; subst; congruence|].
  destruct (GetDefiningInstruction_registered _ _ _ _ H Hz) as [Hin Hre].
  split; [assumption|]. intros id0 H0.
  assert (Hk : id_to_constant ca = id_to_constant c).
  { revert Et. unfold GetTypeInstruction.
    destruct (find_id _ _ _); [intros E; inversion E; subst; reflexivity|].
    destruct (TakeNextId_cases c) as [[_ E]|[_ E]]; rewrite E; simpl.
    - intros E'; inversion E'; subst; reflexivity.
    - destruct (id_bound c =? 0); intros E'; inversion E'; subst; reflexivity. }
  rewrite <- Hk in H0. destruct (Hre _ H0) as [Hin' ->].
  now rewrite <- Hk.
Qed.

(** The scalar request, when it succeeds. *)
Lemma GetOrCreateConstantZero_inv c ty z c1 :
  GetOrCreateConstantZero c ty = (z, c1) -> z <> 0 ->
  exists w s,
    GetType c ty = Some (Integer w s)
    /\ GetIntConstId s c 0 = (z, c1).
Proof.
  unfold GetOrCreateConstantZero. intros H Hz.
  destruct (GetType c ty) as [T|]; [|inversion H; subst; congruence].
  destruct T; simpl in H; try (inversion H; subst; congruence).
  exists width, signed. split; [reflexivity|]. now destruct signed.
Qed.

(** The vector request, when it succeeds in a well-formed context. *)
Lemma GetOrCreateConstantZeroVector_inv c ty z c1 :
  wf_context c = true ->
  GetOrCreateConstantZeroVector c ty = (z, c1) -> z <> 0 ->
  exists w s n zs ca,
    GetType c ty = Some (Vector (Integer w s) n)
    /\ zero_components s (Z.to_nat n) c [] = (repeat zs (Z.to_nat n), ca)
    /\ (Z.to_nat n <> 0%nat -> GetIntConstId s c 0 = (zs, ca))
    /\ Forall (fun id => FindDeclaredConstant ca id <> None)
         (repeat zs (Z.to_nat n))
    /\ GetDefiningInstruction ca
         (VectorConstant (Vector (Integer w s) n) (repeat zs (Z.to_nat n)))
       = (z, c1).
Proof.
  unfold GetOrCreateConstantZeroVector. intros Hw H Hz.
  destruct (GetType c ty) as [T|] eqn:ET; [|inversion H; subst; congruence].
  destruct T as [| | |w0|e n]; simpl in H; try (inversion H; subst; congruence).
  destruct e as [| |w s|w0|e0 n0]; simpl in H;
    try (inversion H; subst; congruence).
  assert (Hcomp : exists zs ca,
             zero_components s (Z.to_nat n) c [] = (repeat zs (Z.to_nat n), ca)
             /\ (Z.to_nat n <> 0%nat -> GetIntConstId s c 0 = (zs, ca))).
  { destruct (Z.to_nat n) as [|m].
    - exists 0, c. split; [reflexivity|congruence].
    - destruct (GetIntConstId s c 0) as [zs ca] eqn:Ez. exists zs, ca.
      split; [|auto].
      now rewrite (zero_components_repeat _ _ _ _ (wf_positive _ Hw) Ez). }
  destruct Hcomp as (zs & ca & Hzc & Hzs). rewrite Hzc in H.
  pose proof (zero_components_grows _ _ _ _ _ _ Hzc) as [Hea Hwa].
  specialize (Hwa Hw).
  assert (Hreg : In (ty, Vector (Integer w s) n) (id_to_type ca)).
  { apply lookup_In. apply (GetType_extends _ _ _ _ Hea ET). }
  destruct (In_find_id Type_eqb Type_eqb_eq _ _ _ Hreg) as [vid Hvid].
  unfold GetTypeInstruction in H. rewrite Hvid in H.
  destruct (vid =? 0); [inversion H; subst; congruence|].
  apply (find_id_In _ Type_eqb_eq) in Hvid.
  rewrite (wf_GetType _ _ _ Hwa Hvid) in H. simpl in H.
  destruct (forallb _ (repeat zs (Z.to_nat n))) eqn:Hall;
    [|inversion H; subst; congruence].
  exists w, s, n, zs, ca. repeat split; auto.
  rewrite forallb_forall in Hall. apply Forall_forall. intros id Hid.
  apply Hall in Hid. destruct (FindDeclaredConstant ca id); congruence.
Qed.

(** ** Asking for the same zero constant again *)

Lemma GetOrCreateConstantZero_again c ty z c1 :
  0 < id_bound c ->
  GetOrCreateConstantZero c ty = (z, c1) ->
  GetOrCreateConstantZero c1 ty = (z, c1).
Proof.
  intros Hpos H. pose proof (GetOrCreateConstantZero_grows _ _ _ _ H) as [He _].
  revert H. unfold GetOrCreateConstantZero.
  destruct (GetType c ty) as [T|] eqn:ET.
  - rewrite (GetType_extends _ _ _ _ He ET).
    destruct (AsInteger T) as [[w s]|].
    + destruct s; unfold GetSIntConstId, GetUIntConstId;
        now apply GetIntConstId_again.
    + intros H; inversion H; subst; reflexivity.
  - intros H; inversion H; subst. now rewrite ET.
Qed.

Lemma zero_components_again s n c ids ca c' :
  0 < id_bound c ->
  zero_components s n c [] = (ids, ca) -> extends ca c' ->
  zero_components s n c' [] = (ids, c').
Proof.
  intros Hpos H He. destruct n as [|n].
  - simpl in *. inversion H; subst. reflexivity.
  - destruct (GetIntConstId s c 0) as [zs cz] eqn:Ez.
    rewrite (zero_components_repeat _ _ _ _ Hpos Ez) in H.
    inversion H; subst.
    pose proof (GetIntConstId_again _ _ _ _ _ Hpos Ez) as Ez1.
    pose proof (GetIntConstId_stable _ _ _ _ _ Ez1 He) as Ez2.
    pose proof (grows_positive _ _ (GetIntConstId_grows _ _ _ _ _ Ez) Hpos).
    destruct He as [Hb _ _ _ _ _].
    change (zs :: repeat zs n) with ([] ++ repeat zs (S n)).
    apply zero_components_repeat; [lia|assumption].
Qed.

Lemma GetConstant_extends c c' t ids k :
  extends c c' ->
  GetConstant c (Some t) ids = Some k -> GetConstant c' (Some t) ids = Some k.
Proof.
  intros He. unfold GetConstant. destruct t; try discriminate.
  destruct (forallb _ ids) eqn:Hall; [|discriminate].
  intros H. replace (forallb _ ids) with true; [assumption|].
  symmetry. rewrite forallb_forall in *. intros id Hid.
  specialize (Hall id Hid).
  destruct (FindDeclaredConstant c id) as [k0|] eqn:E; [|discriminate].
  now rewrite (FindDeclaredConstant_extends _ _ _ _ He E).
Qed.

Lemma GetOrCreateConstantZeroVector_again c ty z c1 :
  0 < id_bound c ->
  GetOrCreateConstantZeroVector c ty = (z, c1) ->
  GetOrCreateConstantZeroVector c1 ty = (z, c1).
Proof.
  intros Hpos H.
  pose proof (GetOrCreateConstantZeroVector_grows _ _ _ _ H) as [He _].
  revert H. unfold GetOrCreateConstantZeroVector.
  destruct (GetType c ty) as [T|] eqn:ET;
    [|intros H; inversion H; subst; now rewrite ET].
  rewrite (GetType_extends _ _ _ _ He ET).
  destruct (AsVector T) as [[e n]|]; [|intros H; inversion H; subst; reflexivity].
  destruct (AsInteger e) as [[w s]|];
    [|intros H; inversion H; subst; reflexivity].
  destruct (zero_components s (Z.to_nat n) c []) as [ids ca] eqn:Ez.
  pose proof (zero_components_grows _ _ _ _ _ _ Ez) as Hga.
  destruct (GetTypeInstruction ca T) as [vid cb] eqn:Et.
  pose proof (GetTypeInstruction_grows _ _ _ _ Et) as Hgb.
  pose proof (grows_positive _ _ Hga Hpos) as Hpa.
  pose proof (grows_positive _ _ Hgb Hpa) as Hpb.
  pose proof (GetTypeInstruction_again _ _ _ _ Hpa Et) as Et1.
  assert (Hpre : forall c', extends cb c' ->
             zero_components s (Z.to_nat n) c' [] = (ids, c')
             /\ GetTypeInstruction c' T = (vid, c')).
  { intros c' Hc'. split.
    - eapply zero_components_again; [exact Hpos|exact Ez|].
      eapply extends_trans; [apply Hgb|exact Hc'].
    - eapply GetTypeInstruction_stable; eassumption. }
  destruct (vid =? 0) eqn:E0.
  - intros H; inversion H; subst.
    destruct (Hpre _ (extends_refl _)) as [-> ->]. now rewrite E0.
  - destruct (GetType cb vid) as [T'|] eqn:ET'.
    + destruct (GetConstant cb (Some T') ids) as [k|] eqn:Ek.
      * intros H.
        pose proof (GetDefiningInstruction_grows _ _ _ _ H) as [Hec _].
        destruct (Hpre _ Hec) as [-> ->]. rewrite E0.
        rewrite (GetType_extends _ _ _ _ Hec ET').
        rewrite (GetConstant_extends _ _ _ _ _ Hec Ek).
        eapply GetDefiningInstruction_again; eassumption.
      * intros H; inversion H; subst.
        destruct (Hpre _ (extends_refl _)) as [-> ->].
        now rewrite E0, ET', Ek.
    + simpl. intros H; inversion H; subst.
      destruct (Hpre _ (extends_refl _)) as [-> ->].
      now rewrite E0, ET'.
Qed.

Lemma synthesize_again k c ty z c1 :
  0 < id_bound c ->
  synthesize k c ty = (z, c1) -> synthesize k c1 ty = (z, c1).
Proof.
  destruct k; simpl;
    [apply GetOrCreateConstantZero_again
    |apply GetOrCreateConstantZeroVector_again].
Qed.

Lemma GetDefiningInstruction_reuse c0 c k id0 z c1 :
  extends c0 c -> In (id0, k) (id_to_constant c0) ->
  GetDefiningInstruction c k = (z, c1) ->
  In (z, k) (id_to_constant c0) /\ c1 = c.
Proof.
  intros [_ _ _ _ [ks [Hk _]] _] Hin.
  destruct (In_find_id Constant_eqb Constant_eqb_eq _ _ _ Hin) as [z' Hz'].
  unfold GetDefiningInstruction. rewrite Hk, find_id_app, Hz'.
  intros H; inversion H; subst. split; [|reflexivity].
  now apply (find_id_In _ Constant_eqb_eq).
Qed.

Lemma GetIntConstId_parts s c v z c1 :
  GetIntConstId s c v = (z, c1) -> z <> 0 ->
  exists ca, extends c ca
             /\ GetDefiningInstruction ca (IntConstant (Integer 32 s) v) = (z, c1).
Proof.
  unfold GetIntConstId. intros H Hz.
  destruct (GetTypeInstruction c (Integer 32 s)) as [tid ca] eqn:Et.
  destruct (tid =? 0); [inversion H; subst; congruence|].
  exists ca. split; [apply (GetTypeInstruction_grows _ _ _ _ Et)|assumption].
Qed.

(** What a successful request denotes, in a well-formed context. *)
Lemma synthesize_denotes k c ty z c' :
  wf_context c = true ->
  synthesize k c ty = (z, c') -> z <> 0 ->
  exists T kz ca,
    GetType c ty = Some T
    /\ denotes_zero c' T (int32_like T) z
    /\ extends c ca
    /\ GetDefiningInstruction ca kz = (z, c')
    /\ FindDeclaredConstant c' z = Some kz.
Proof.
  intros Hw H Hz.
  pose proof (synthesize_grows _ _ _ _ _ H) as [He Hw']. specialize (Hw' Hw).
  destruct k; simpl in H.
  - destruct (GetOrCreateConstantZero_inv _ _ _ _ H Hz) as (w & s & ET & Hi).
    destruct (GetIntConstId_registered _ _ _ _ _ Hi Hz) as [Hin _].
    destruct (GetIntConstId_parts _ _ _ _ _ Hi Hz) as (ca & Hca & Hd).
    exists (Integer w s), (IntConstant (Integer 32 s) 0), ca.
    split; [assumption|]. simpl.
    pose proof (wf_FindDeclaredConstant _ _ _ Hw' Hin) as Hf. auto.
  - destruct (GetOrCreateConstantZeroVector_inv _ _ _ _ Hw H Hz)
      as (w & s & n & zs & ca & ET & Hzc & Hzs & Hall & Hd).
    pose proof (zero_components_grows _ _ _ _ _ _ Hzc) as [Hea Hwa].
    specialize (Hwa Hw).
    pose proof (GetDefiningInstruction_grows _ _ _ _ Hd) as [Hec _].
    destruct (GetDefiningInstruction_registered _ _ _ _ Hd Hz) as [Hin _].
    pose proof (wf_FindDeclaredConstant _ _ _ Hw' Hin) as Hf.
    exists (Vector (Integer w s) n),
      (VectorConstant (Vector (Integer w s) n) (repeat zs (Z.to_nat n))), ca.
    split; [assumption|]. split; [|auto].
    simpl. exists (repeat zs (Z.to_nat n)).
    split; [assumption|]. split; [apply repeat_length|].
    destruct (Z.to_nat n) as [|m] eqn:En; [constructor|].
    assert (Hzs0 : zs <> 0).
    { inversion Hall as [|x l Hx _]; subst. intros ->.
      now rewrite (wf_FindDeclaredConstant_zero _ Hwa) in Hx. }
    specialize (Hzs ltac:(discriminate)).
    destruct (GetIntConstId_registered _ _ _ _ _ Hzs Hzs0) as [Hinz _].
    pose proof (wf_FindDeclaredConstant _ _ _ Hwa Hinz) as Hfz.
    apply Forall_forall. intros id Hid. apply repeat_spec in Hid. subst id.
    apply (FindDeclaredConstant_extends _ _ _ _ Hec Hfz).
Qed.

(** ** Failing visits *)

Lemma synthesize_unsupported k c ty :
  unsupported_type k c ty = true -> synthesize k c ty = (0, c).
Proof.
  unfold unsupported_type, synthesize, GetOrCreateConstantZero,
    GetOrCreateConstantZeroVector.
  destruct (GetType c ty) as [T|]; [|now destruct k].
  destruct k.
  - destruct (AsInteger T); [discriminate|reflexivity].
  - destruct (AsVector T) as [[e n]|]; [|reflexivity].
    destruct (AsInteger e); [discriminate|reflexivity].
Qed.

Lemma visit_synthesis_failure st i k c1 :
  classify (ctx st) i = Some k ->
  synthesize k (ctx st) (type_id i) = (0, c1) ->
  visit st i
  = ReturnFailure (with_ctx st (consumer c1 SPV_MSG_ERROR FailedConstantZero)).
Proof.
  intros Hc Hs. unfold visit. rewrite Hc.
  change (if k then GetOrCreateConstantZero (ctx st) (type_id i)
          else GetOrCreateConstantZeroVector (ctx st) (type_id i))
    with (synthesize k (ctx st) (type_id i)).
  now rewrite Hs.
Qed.

Lemma visit_allocation_failure st i k z c1 c2 :
  classify (ctx st) i = Some k ->
  synthesize k (ctx st) (type_id i) = (z, c1) -> z <> 0 ->
  TakeNextId c1 = (0, c2) ->
  visit st i
  = ReturnFailure
      (with_ctx st (consumer c2 SPV_MSG_ERROR (FailedTempResultId i))).
Proof.
  intros Hc Hs Hz Ht. unfold visit. rewrite Hc.
  change (if k then GetOrCreateConstantZero (ctx st) (type_id i)
          else GetOrCreateConstantZeroVector (ctx st) (type_id i))
    with (synthesize k (ctx st) (type_id i)).
  rewrite Hs. apply Z.eqb_neq in Hz. now rewrite Hz, Ht.
Qed.

(** A visit returns exactly when the synthesis or the allocation answers
    the invalid id. *)
Lemma visit_ReturnFailure_iff st i :
  (exists st', visit st i = ReturnFailure st') <->
  (exists k z c1,
      classify (ctx st) i = Some k
      /\ synthesize k (ctx st) (type_id i) = (z, c1)
      /\ (z = 0 \/ fst (TakeNextId c1) = 0)).
Proof.
  split.
  - intros [st' Hv]. pose proof (visit_cases st i) as H. rewrite Hv in H.
    destruct H as (k & z & c1 & Hc & Hs & [[Hz _]|[_ [c2 [Ht _]]]]);
      exists k, z, c1; repeat split; auto. right. now rewrite Ht.
  - intros (k & z & c1 & Hc & Hs & Hz).
    destruct (Z.eq_dec z 0) as [->|Hnz].
    + eexists. eapply visit_synthesis_failure; eassumption.
    + destruct Hz as [Hz|Hz]; [contradiction|].
      destruct (TakeNextId c1) as [t c2] eqn:Ht. simpl in Hz. subst t.
      eexists. eapply visit_allocation_failure; eassumption.
Qed.

(** A returning visit behind a completed scan of the instructions in front
    of it is where [Process] fails. *)
Lemma Process_fails_at c m pre i post pre' st1 st' :
  stream m = pre ++ i :: post ->
  scan_block (initial_state c) pre = (Next st1, pre') ->
  visit st1 i = ReturnFailure st' ->
  exists m',
    Process c m = (Failure, ctx st', m') /\ stream m' = pre' ++ i :: post.
Proof.
  intros Hst Hp Hv.
  pose proof (scan_functions_stream m (initial_state c)) as Hs.
  rewrite Hst, (scan_block_Return_at _ _ _ post _ _ _ Hp Hv) in Hs.
  destruct (scan_functions (initial_state c) m) as [f m'] eqn:Hf.
  simpl in Hs. inversion Hs; subst f.
  exists m'. split; [|congruence].
  apply Process_Failure. exists st'. auto.
Qed.

Lemma Process_Failure_inv c m c' m' :
  Process c m = (Failure, c', m') ->
  exists pre i post pre' st1 st',
    stream m = pre ++ i :: post
    /\ scan_block (initial_state c) pre = (Next st1, pre')
    /\ visit st1 i = ReturnFailure st'
    /\ stream m' = pre' ++ i :: post
    /\ c' = ctx st'.
Proof.
  intros H. apply Process_Failure in H as (st' & Hs & ->).
  apply scan_functions_as_stream in Hs.
  destruct (scan_block_Return_inv _ _ _ _ Hs)
    as (pre & i & post & pre' & st1 & Hm & Hp & Hv & Hm').
  exists pre, i, post, pre', st1, st'. auto.
Qed.

(** ** The outcomes that are not failures *)

Lemma Process_unchanged_inv c m c' m' :
  Process c m = (SuccessWithoutChange, c', m') ->
  c' = c /\ m' = m /\ Forall (fun i => classify c i = None) (stream m).
Proof.
  intros HP.
  destruct (Process_success _ _ _ _ _ HP ltac:(discriminate))
    as (st' & Hs & [(_ & Hd & _)|(Hmod & _ & ->)]); [discriminate|].
  pose proof (scan_functions_as_stream _ _ _ _ Hs) as Hstr.
  destruct (scan_functions_unmodified _ _ _ _ Hs Hmod) as [-> ->].
  destruct (scan_block_unmodified _ _ _ _ Hstr Hmod) as (_ & _ & Hall).
  auto.
Qed.

Lemma Process_changed_inv c m c' m' :
  Process c m = (SuccessWithChange, c', m') ->
  exists st' i t,
    scan_block (initial_state c) (stream m) = (Next st', stream m')
    /\ In i (stream m) /\ In (SetResultId i t) (stream m')
    /\ classify c' i <> None
    /\ (length (stream m) < length (stream m'))%nat.
Proof.
  intros HP.
  destruct (Process_success _ _ _ _ _ HP ltac:(discriminate))
    as (st' & Hs & [(Hmod & _ & ->)|(_ & Hd & _)]); [|discriminate].
  apply scan_functions_as_stream in Hs.
  destruct (scan_block_modified_witness _ _ _ _ Hs eq_refl Hmod)
    as (i & t & k & Hi & Hin & Hk & Hlen).
  exists st', i, t.
  split; [assumption|]. split; [assumption|]. split; [assumption|].
  split; [|assumption].
  rewrite (classify_extends _ _ _ _ (proj1 (grows_consumer _ _ _)) Hk).
  discriminate.
Qed.

Lemma Process_scan c m s c' m' :
  Process c m = (s, c', m') ->
  exists f, scan_functions (initial_state c) m = (f, m')
            /\ extends (ctx (flow_state f)) c'.
Proof.
  unfold Process.
  destruct (scan_functions (initial_state c) m) as [[st|st] r].
  - destruct (modified st); intros H; inversion H; subst;
      exists (Next st); split; auto; simpl; apply grows_consumer.
  - intros H; inversion H; subst. exists (Return st). split; auto.
Qed.

Lemma scan_block_unmatched st : forall l,
  Forall (fun i => classify (ctx st) i = None) l ->
  scan_block st l = (Next st, l).
Proof.
  induction 1 as [|i l Hi _ IH].
  - apply scan_block_nil.
  - now rewrite scan_block_cons, (visit_Continue _ _ Hi), IH.
Qed.

Lemma scan_blocks_unmatched st : forall bs,
  Forall (fun i => classify (ctx st) i = None) (block_stream bs) ->
  scan_blocks st bs = (Next st, bs).
Proof.
  induction bs as [|b bs IH]; simpl; intros H; [reflexivity|].
  apply Forall_app in H as [Hb Hr].
  rewrite (scan_block_unmatched _ _ Hb), (IH Hr). now destruct b.
Qed.

Lemma scan_functions_unmatched st : forall m,
  Forall (fun i => classify (ctx st) i = None) (stream m) ->
  scan_functions st m = (Next st, m).
Proof.
  induction m as [|fn m IH]; simpl; intros H; [reflexivity|].
  apply Forall_app in H as [Hf Hr].
  destruct (IsDeclaration fn); [now rewrite (IH Hr)|].
  rewrite (scan_blocks_unmatched _ _ Hf), (IH Hr). now destruct fn.
Qed.

Lemma Process_unmatched c m :
  Forall (fun i => classify c i = None) (stream m) ->
  Process c m = (SuccessWithoutChange, c, m).
Proof.
  intros H. unfold Process.
  now rewrite (scan_functions_unmatched (initial_state c) m H).
Qed.

Lemma Process_changed_at c m st' l' :
  scan_block (initial_state c) (stream m) = (Next st', l') ->
  (length (stream m) < length l')%nat ->
  fst (fst (Process c m)) = SuccessWithChange.
Proof.
  intros Hs Hlen. rewrite scan_functions_stream in Hs. unfold Process.
  destruct (scan_functions (initial_state c) m) as [f m'] eqn:Hf.
  simpl in Hs. inversion Hs; subst.
  destruct (modified st') eqn:Hm; [reflexivity|].
  destruct (scan_functions_unmodified _ _ _ _ Hf Hm) as [_ ->]. lia.
Qed.

(** ** Relations under a property of all instructions *)

Lemma Barriers_impl_Forall (P : Instruction -> Prop)
    (Pk Pk' : Instruction -> Prop) (Pg Pg' : Instruction -> Z -> Prop) l l' :
  Forall P l ->
  (forall i, P i -> Pk i -> Pk' i) ->
  (forall i t, P i -> Pg i t -> Pg' i t) ->
  Barriers Pk Pg l l' -> Barriers Pk' Pg' l l'.
Proof.
  intros HP Hk Hg H. induction H; inversion HP; subst; constructor; auto.
Qed.

Lemma Blocks_rel_impl_Forall (P : Instruction -> Prop)
    (R R' : list Instruction -> list Instruction -> Prop) bs bs' :
  Forall P (block_stream bs) ->
  (forall l l', Forall P l -> R l l' -> R' l l') ->
  Blocks_rel R bs bs' -> Blocks_rel R' bs bs'.
Proof.
  intros HP HR H. induction H as [|b b' bs bs' [Hl Hb] _ IH]; [constructor|].
  simpl in HP. apply Forall_app in HP as [HP1 HP2].
  constructor; [split; [assumption|now apply HR]|now apply IH].
Qed.

Lemma Module_rel_impl_Forall (P : Instruction -> Prop)
    (R R' : list Instruction -> list Instruction -> Prop) m m' :
  Forall P (stream m) ->
  (forall l l', Forall P l -> R l l' -> R' l l') ->
  Module_rel R m m' -> Module_rel R' m m'.
Proof.
  intros HP HR H. induction H as [|f f' m m' [Hi Hf] _ IH]; [constructor|].
  simpl in HP. apply Forall_app in HP as [HP1 HP2].
  constructor; [|now apply IH]. split; [assumption|].
  destruct (IsDeclaration f); [assumption|].
  eapply Blocks_rel_impl_Forall; eauto.
Qed.

Lemma renamed_to_matched c c' i t :
  (is_shift i = true -> GetSingleWordInOperand i 1 < id_bound c) ->
  renamed_to c c' i t -> classify c i <> None.
Proof.
  intros Hop ([k (cv & Hcv & _ & Hk)] & _).
  rewrite <- (classify_below _ _ _ Hcv Hop), Hk. discriminate.
Qed.


Lemma denotes_zero_extends c c' T lit z :
  extends c c' -> denotes_zero c T lit z -> denotes_zero c' T lit z.
Proof.
  intros He. destruct T; simpl; auto.
  - apply FindDeclaredConstant_extends; assumption.
  - intros (comps & Hf & Hl & Hall). exists comps.
    split; [eapply FindDeclaredConstant_extends; eassumption|].
    split; [assumption|].
    eapply Forall_impl; [|exact Hall]. simpl. intros id.
    apply FindDeclaredConstant_extends; assumption.
Qed.

(** ** The barrier is the identity *)

Lemma mod_pow2_idem w x : (x mod 2 ^ w) mod 2 ^ w = x mod 2 ^ w.
Proof.
  destruct (Z.eq_dec (2 ^ w) 0) as [E|E].
  - rewrite E. now rewrite !Z.mod_0_r.
  - now apply Z.mod_mod.
Qed.

Lemma wrap_idem w s x : wrap w s (wrap w s x) = wrap w s x.
Proof.
  unfold wrap. destruct s.
  - replace ((x + 2 ^ (w - 1)) mod 2 ^ w - 2 ^ (w - 1) + 2 ^ (w - 1))
      with ((x + 2 ^ (w - 1)) mod 2 ^ w) by lia.
    now rewrite mod_pow2_idem.
  - apply mod_pow2_idem.
Qed.

(** With offset and count zero no bit of the base is replaced. *)
Lemma BitFieldInsert_zero w s base insert :
  BitFieldInsert w s base insert 0 0 = wrap w s base.
Proof.
  unfold BitFieldInsert. simpl.
  rewrite Z.land_0_r, Z.lor_0_r.
  change (Z.lnot 0) with (-1). now rewrite Z.land_m1_r.
Qed.

Lemma lanes2_kept w s : forall a b xs,
  lanes2 (ShiftLeftLogical w s) a b = Some xs ->
  Forall (fun x => wrap w s x = x) xs.
Proof.
  induction a as [|x a IH]; destruct b as [|y b]; simpl; intros xs H;
    try discriminate.
  - inversion H; subst. constructor.
  - destruct (lanes2 (ShiftLeftLogical w s) a b) as [r|] eqn:E; [|discriminate].
    inversion H; subst. constructor; [|now apply (IH b)].
    unfold ShiftLeftLogical. apply wrap_idem.
Qed.

Lemma lanes4_zero w s : forall xs,
  Forall (fun x => wrap w s x = x) xs ->
  lanes4 (BitFieldInsert w s) xs (repeat 0 (length xs)) (repeat 0 (length xs))
    (repeat 0 (length xs)) = Some xs.
Proof.
  induction 1 as [|x xs Hx _ IH]; simpl; [reflexivity|].
  now rewrite IH, BitFieldInsert_zero, Hx.
Qed.

Lemma apply2_kept w s a b v :
  apply2 (ShiftLeftLogical w s) a b = Some v -> kept_to w s v.
Proof.
  destruct a as [x|xs], b as [y|ys]; simpl; try discriminate.
  - intros H; inversion H; subst. simpl. unfold ShiftLeftLogical.
    apply wrap_idem.
  - destruct (lanes2 (ShiftLeftLogical w s) xs ys) as [r|] eqn:E;
      [|discriminate].
    intros H; inversion H; subst. simpl. eapply lanes2_kept; eauto.
Qed.

Lemma apply4_zero w s v :
  kept_to w s v ->
  apply4 (BitFieldInsert w s) v (zero_like v) (zero_like v) (zero_like v)
  = Some v.
Proof.
  destruct v as [x|xs]; simpl; intros H.
  - now rewrite BitFieldInsert_zero, H.
  - now rewrite lanes4_zero.
Qed.

Lemma eval_SetResultId w s env i t :
  eval w s env (SetResultId i t) = eval w s env i.
Proof. reflexivity. Qed.

Lemma eval_shift_kept w s env i v :
  is_shift i = true -> eval w s env i = Some v -> kept_to w s v.
Proof.
  unfold is_shift, eval. destruct (opcode i); try discriminate. intros _.
  destruct (operand_value env i 0) as [a|]; [|discriminate].
  destruct (operand_value env i 1) as [b|]; [|discriminate].
  apply apply2_kept.
Qed.

(** The barrier over a value that is kept to its width, with the zero of
    its shape as the other three operands, has that value. *)
Lemma eval_barrier w s env ty r t z v :
  kept_to w s v ->
  lookup t env = Some v -> lookup z env = Some (zero_like v) ->
  eval w s env (noop_barrier_inst ty r t z) = Some v.
Proof.
  intros Hk Ht Hz. unfold eval, operand_value.
  change (opcode (noop_barrier_inst ty r t z)) with OpBitFieldInsert.
  change (GetSingleWordInOperand (noop_barrier_inst ty r t z) 0) with t.
  change (GetSingleWordInOperand (noop_barrier_inst ty r t z) 1) with z.
  change (GetSingleWordInOperand (noop_barrier_inst ty r t z) 2) with z.
  change (GetSingleWordInOperand (noop_barrier_inst ty r t z) 3) with z.
  cbv iota. rewrite Ht, Hz. now apply apply4_zero.
Qed.

(** ** The two scenarios of the pass's description *)

(** [r = x << 3] on 32-bit unsigned integers: the shift gets the fresh id
    20, the barrier follows under the id 10 with the declared zero as its
    other operands, and the summary counts one scalar barrier. *)
Example scalar_scenario :
  Process (sample_context 100) (one_block [scalar_shift])
  = (SuccessWithChange,
     consumer (set_id_bound (sample_context 100) 21) SPV_MSG_INFO
       (AddedBarriers 1 0),
     one_block [SetResultId scalar_shift 20; noop_barrier_inst 1 10 20 5]).
Proof. reflexivity. Qed.

(** [r = v << splat 3] on 4-component vectors: the zero vector is declared
    under the id 20 with the scalar zero as each component, the shift gets
    the id 21, and the summary counts one vector barrier. *)
Example vector_scenario :
  Process (sample_context 100) (one_block [vector_shift])
  = (SuccessWithChange,
     consumer
       (add_constant (set_id_bound (sample_context 100) 22) 20
          (VectorConstant uvec4_type [5; 5; 5; 5]))
       SPV_MSG_INFO (AddedBarriers 0 1),
     one_block [SetResultId vector_shift 21; noop_barrier_inst 2 12 21 20]).
Proof. reflexivity. Qed.

(** * The claims of the specification *)

(** ** C2: every matched shift gets its barrier *)

(** C2 as stated fails where the identifier space is exhausted: the one
    matched shift of the module is neither renamed nor followed by a
    barrier, and [Process] reports the failure. *)
Lemma C2_counterexample :
  Process (sample_context 20) (one_block [scalar_shift])
  = (Failure,
     consumer (sample_context 20) SPV_MSG_ERROR (FailedTempResultId scalar_shift),
     one_block [scalar_shift])
  /\ classify (sample_context 20) scalar_shift = Some true
  /\ ~ Module_rel
        (Guarded (sample_context 20)
           (consumer (sample_context 20) SPV_MSG_ERROR
              (FailedTempResultId scalar_shift)))
        (one_block [scalar_shift]) (one_block [scalar_shift]).
Proof.
  split; [reflexivity|]. split; [reflexivity|].
  intros H. inversion H as [|f f' m m' [_ Hf] _]; subst. simpl in Hf.
  inversion Hf as [|b b' bs bs' [_ Hb] _]; subst. simpl in Hb.
  inversion Hb as [|i l l' Hk _|]; subst. discriminate Hk.
Qed.

(** C2, amended: after a run of [Process] that does not return the failed
    outcome, in every function that is not a declaration and in each of its
    blocks, every [OpShiftLeftLogical] whose shift amount resolves to a
    declared integer or integer-vector constant is followed at once by
    exactly one [OpBitFieldInsert] barrier that carries the shift's original
    result id and result type, and the shift's own result id is an id
    allocated during the run; the other instructions are kept.  The ids
    given to the shifts ascend along the module: each is given once. *)
Theorem C2_matched_shifts_are_guarded c m s c' m' :
  Process c m = (s, c', m') -> s <> Failure ->
  Module_rel (Guarded c c') m m'
  /\ Ascending (id_bound c') (id_bound c) (stream m) (stream m').
Proof.
  intros HP Hs. split; [eapply Process_Guarded; eassumption|].
  destruct (Process_scan _ _ _ _ _ HP) as (f & Hf & [Hb _ _ _ _ _]).
  apply scan_functions_as_stream in Hf.
  eapply Ascending_upper; [exact Hb|].
  apply (scan_block_Ascending _ _ _ _ Hf).
Qed.

Lemma C2_witness :
  Process (sample_context 100) sample_module
  = (SuccessWithChange,
     snd (fst (Process (sample_context 100) sample_module)),
     snd (Process (sample_context 100) sample_module))
  /\ SuccessWithChange <> Failure
  /\ Module_rel
       (Guarded (sample_context 100)
          (snd (fst (Process (sample_context 100) sample_module))))
       sample_module (snd (Process (sample_context 100) sample_module))
  /\ Ascending
       (id_bound (snd (fst (Process (sample_context 100) sample_module))))
       (id_bound (sample_context 100))
       (stream sample_module)
       (stream (snd (Process (sample_context 100) sample_module))).
Proof.
  split; [reflexivity|]. split; [discriminate|].
  apply (C2_matched_shifts_are_guarded (sample_context 100) sample_module
           SuccessWithChange); [reflexivity|discriminate].
Defined.

(** ** C3: the zero constant that is synthesized *)

(** C3 as stated fails for a result type that is not 32 bits wide: for the
    64-bit unsigned type the synthesizer answers a valid id, and that id
    denotes the zero of the 32-bit unsigned type.  Asked next for the zero
    of the 16-bit type it answers the same id: one constant for result
    types of different widths. *)
Lemma C3_counterexample :
  let r := GetOrCreateConstantZero wide_context 1 in
  fst r = 21
  /\ FindDeclaredConstant (snd r) 21 = Some (IntConstant (Integer 32 false) 0)
  /\ GetOrCreateConstantZero (snd r) 2 = (21, snd r)
  /\ ~ (fst r = 0
        \/ exists T, GetType wide_context 1 = Some T
                     /\ denotes_zero (snd r) T (scalar_of T) (fst r)).
Proof.
  split; [reflexivity|]. split; [reflexivity|]. split; [reflexivity|].
  intros [H|[T [HT HD]]]; [discriminate H|].
  inversion HT; subst T. discriminate HD.
Qed.

(** C3, amended: for every result type id given to it in a well-formed
    context, the zero-constant synthesizer (scalar path or vector path)
    answers either the invalid id 0 or an id that denotes a zero whose
    literals are of the 32-bit integer type with the signedness of the
    result type: on the scalar path that literal itself (so its type is the
    result type when the result type is 32 bits wide), on the vector path a
    composite of exactly the result's vector type with one such literal id
    per component.  A constant that was registered before is reused: the id
    that is answered is one that denoted it before. *)
Theorem C3_synthesized_zero k c ty z c' :
  wf_context c = true ->
  synthesize k c ty = (z, c') ->
  z = 0
  \/ exists T,
       GetType c ty = Some T
       /\ denotes_zero c' T (int32_like T) z
       /\ (forall kz,
             FindDeclaredConstant c' z = Some kz ->
             (exists id0, FindDeclaredConstant c id0 = Some kz) ->
             FindDeclaredConstant c z = Some kz).
Proof.
  intros Hw H. destruct (Z.eq_dec z 0) as [Hz|Hz]; [now left|right].
  destruct (synthesize_denotes _ _ _ _ _ Hw H Hz)
    as (T & kz & ca & ET & HD & Hca & Hd & Hf).
  exists T. split; [assumption|]. split; [assumption|].
  intros kz' Hf' [id0 H0]. rewrite Hf in Hf'. inversion Hf'; subst kz'.
  apply lookup_In in H0.
  destruct (GetDefiningInstruction_reuse _ _ _ _ _ _ Hca H0 Hd) as [Hin _].
  now apply wf_FindDeclaredConstant.
Qed.

Lemma C3_witness :
  wf_context (sample_context 100) = true
  /\ synthesize false (sample_context 100) 2
     = (20, snd (synthesize false (sample_context 100) 2))
  /\ (20 = 0
      \/ exists T,
           GetType (sample_context 100) 2 = Some T
           /\ denotes_zero (snd (synthesize false (sample_context 100) 2)) T
                (int32_like T) 20
           /\ (forall kz,
                 FindDeclaredConstant
                   (snd (synthesize false (sample_context 100) 2)) 20 = Some kz ->
                 (exists id0,
                     FindDeclaredConstant (sample_context 100) id0 = Some kz) ->
                 FindDeclaredConstant (sample_context 100) 20 = Some kz)).
Proof.
  split; [reflexivity|]. split; [reflexivity|].
  apply (C3_synthesized_zero false (sample_context 100) 2 20
           (snd (synthesize false (sample_context 100) 2)));
    reflexivity.
Defined.

(** ** C6: deduplication *)

(** C6: in a well-formed context, asking the synthesizer for the zero of
    the same type id a second time answers the same id (and registers
    nothing more); and the components of a synthesized zero vector are one
    id repeated once per component: the id that the request for the scalar
    zero of the element's signedness answers. *)
Theorem C6_deduplicated_zero k c ty z c' :
  wf_context c = true ->
  synthesize k c ty = (z, c') ->
  synthesize k c' ty = (z, c')
  /\ (k = false -> z <> 0 ->
      exists w s n zs,
        GetType c ty = Some (Vector (Integer w s) n)
        /\ FindDeclaredConstant c' z
           = Some (VectorConstant (Vector (Integer w s) n)
                     (repeat zs (Z.to_nat n)))
        /\ (0 < n -> zero_request s c' = (zs, c'))).
Proof.
  intros Hw H. split.
  - eapply synthesize_again; [apply wf_positive|]; eassumption.
  - intros -> Hz. simpl in H.
    pose proof (GetOrCreateConstantZeroVector_grows _ _ _ _ H) as [He Hw'].
    specialize (Hw' Hw).
    destruct (GetOrCreateConstantZeroVector_inv _ _ _ _ Hw H Hz)
      as (w & s & n & zs & ca & ET & Hzc & Hzs & Hall & Hd).
    destruct (GetDefiningInstruction_registered _ _ _ _ Hd Hz) as [Hin _].
    exists w, s, n, zs. split; [assumption|].
    split; [now apply wf_FindDeclaredConstant|].
    intros Hn. rewrite zero_request_eq.
    assert (Hn' : Z.to_nat n <> 0%nat) by lia. specialize (Hzs Hn').
    pose proof (GetIntConstId_again _ _ _ _ _ (wf_positive _ Hw) Hzs) as Hz1.
    eapply GetIntConstId_stable; [exact Hz1|].
    apply (GetDefiningInstruction_grows _ _ _ _ Hd).
Qed.

Lemma C6_witness :
  wf_context (sample_context 100) = true
  /\ synthesize false (sample_context 100) 2
     = (20, snd (synthesize false (sample_context 100) 2))
  /\ synthesize false (snd (synthesize false (sample_context 100) 2)) 2
     = (20, snd (synthesize false (sample_context 100) 2))
  /\ (false = false -> 20 <> 0 ->
      exists w s n zs,
        GetType (sample_context 100) 2 = Some (Vector (Integer w s) n)
        /\ FindDeclaredConstant (snd (synthesize false (sample_context 100) 2)) 20
           = Some (VectorConstant (Vector (Integer w s) n)
                     (repeat zs (Z.to_nat n)))
        /\ (0 < n ->
            zero_request s (snd (synthesize false (sample_context 100) 2))
            = (zs, snd (synthesize false (sample_context 100) 2)))).
Proof.
  split; [reflexivity|]. split; [reflexivity|].
  apply (C6_deduplicated_zero false (sample_context 100) 2 20
           (snd (synthesize false (sample_context 100) 2)));
    reflexivity.
Defined.

(** ** C4: a type that the synthesizer cannot resolve *)

(** C4 as stated fails: the result type of the first matched shift does
    not resolve, no identifier has been allocated, and [Process] returns
    the failed outcome. *)
Lemma C4_counterexample :
  classify (sample_context 100) untyped_shift = Some true
  /\ GetType (sample_context 100) (type_id untyped_shift) = None
  /\ Process (sample_context 100) (one_block [untyped_shift])
     = (Failure,
        consumer (sample_context 100) SPV_MSG_ERROR FailedConstantZero,
        one_block [untyped_shift])
  /\ id_bound (snd (fst (Process (sample_context 100)
                            (one_block [untyped_shift]))))
     = id_bound (sample_context 100)
  /\ ~ fst (fst (Process (sample_context 100) (one_block [untyped_shift])))
       <> Failure.
Proof.
  split; [reflexivity|]. split; [reflexivity|]. split; [reflexivity|].
  split; [reflexivity|]. intros H. apply H. reflexivity.
Qed.

(** C4, amended: when the scan stands on a matched shift whose result type
    does not resolve, or resolves to a type that the synthesizer does not
    support, [Process] returns the failed outcome at once, whether or not
    an identifier was allocated before: the message is sent, and the shift
    and every instruction behind it are left as they were. *)
Theorem C4_type_failure_fails c m pre i post pre' st1 k :
  stream m = pre ++ i :: post ->
  scan_block (initial_state c) pre = (Next st1, pre') ->
  classify (ctx st1) i = Some k ->
  unsupported_type k (ctx st1) (type_id i) = true ->
  exists m',
    Process c m
    = (Failure, consumer (ctx st1) SPV_MSG_ERROR FailedConstantZero, m')
    /\ stream m' = pre' ++ i :: post.
Proof.
  intros Hm Hp Hc Hu.
  apply synthesize_unsupported in Hu.
  pose proof (visit_synthesis_failure _ _ _ _ Hc Hu) as Hv.
  destruct (Process_fails_at _ _ _ _ _ _ _ _ Hm Hp Hv) as (m' & HP & Hs).
  exists m'. auto.
Qed.

Lemma C4_witness :
  exists m',
    Process (sample_context 100) (one_block [scalar_shift; untyped_shift])
    = (Failure,
       consumer
         (ctx (flow_state
                 (fst (scan_block (initial_state (sample_context 100))
                         [scalar_shift]))))
         SPV_MSG_ERROR FailedConstantZero, m')
    /\ stream m'
       = snd (scan_block (initial_state (sample_context 100)) [scalar_shift])
         ++ untyped_shift :: [return_inst].
Proof.
  apply (C4_type_failure_fails (sample_context 100)
           (one_block [scalar_shift; untyped_shift])
           [scalar_shift] untyped_shift [return_inst]
           (snd (scan_block (initial_state (sample_context 100)) [scalar_shift]))
           (flow_state
              (fst (scan_block (initial_state (sample_context 100))
                      [scalar_shift])))
           true); reflexivity.
Defined.

(** ** C5: the three outcomes *)

(** C5: [Process] ends in one of three ways.  Unchanged: every instruction
    was passed over, and module and context are as before.  Changed: the
    scan ran to its end and renamed at least one instruction.  Failed: the
    scan stood on a matched instruction for which the synthesis or the
    allocation answered the invalid id; that instruction and everything
    behind it are as they were.  Conversely the failed outcome arises
    whenever such an instruction is reached, the unchanged one whenever no
    instruction is matched, and the changed one whenever the scan runs to
    its end and has inserted something. *)
Theorem C5_three_outcomes c m :
  match Process c m with
  | (SuccessWithoutChange, c', m') =>
      c' = c /\ m' = m /\ Forall (fun i => classify c i = None) (stream m)
  | (SuccessWithChange, c', m') =>
      exists st' i t,
        scan_block (initial_state c) (stream m) = (Next st', stream m')
        /\ In i (stream m) /\ In (SetResultId i t) (stream m')
        /\ classify c' i <> None
        /\ (length (stream m) < length (stream m'))%nat
  | (Failure, c', m') =>
      exists pre i post pre' st1 k z c1,
        stream m = pre ++ i :: post
        /\ scan_block (initial_state c) pre = (Next st1, pre')
        /\ stream m' = pre' ++ i :: post
        /\ classify (ctx st1) i = Some k
        /\ synthesize k (ctx st1) (type_id i) = (z, c1)
        /\ (z = 0 \/ fst (TakeNextId c1) = 0)
  end
  /\ (forall pre i post pre' st1 k z c1,
        stream m = pre ++ i :: post ->
        scan_block (initial_state c) pre = (Next st1, pre') ->
        classify (ctx st1) i = Some k ->
        synthesize k (ctx st1) (type_id i) = (z, c1) ->
        z = 0 \/ fst (TakeNextId c1) = 0 ->
        fst (fst (Process c m)) = Failure)
  /\ (Forall (fun i => classify c i = None) (stream m) ->
      Process c m = (SuccessWithoutChange, c, m))
  /\ (forall st' l',
        scan_block (initial_state c) (stream m) = (Next st', l') ->
        (length (stream m) < length l')%nat ->
        fst (fst (Process c m)) = SuccessWithChange).
Proof.
  split; [|split; [|split]].
  - destruct (Process c m) as [[s c'] m'] eqn:HP. destruct s.
    + destruct (Process_Failure_inv _ _ _ _ HP)
        as (pre & i & post & pre' & st1 & st' & Hm & Hp & Hv & Hm' & _).
      destruct (proj1 (visit_ReturnFailure_iff st1 i) (ex_intro _ st' Hv))
        as (k & z & c1 & Hc & Hs & Hz).
      exists pre, i, post, pre', st1, k, z, c1. repeat split; assumption.
    + now apply Process_changed_inv.
    + now apply Process_unchanged_inv.
  - intros pre i post pre' st1 k z c1 Hm Hp Hc Hs Hz.
    destruct (proj2 (visit_ReturnFailure_iff st1 i)) as [st' Hv];
      [exists k, z, c1; auto|].
    destruct (Process_fails_at _ _ _ _ _ _ _ _ Hm Hp Hv) as (m' & HP & _).
    now rewrite HP.
  - apply Process_unmatched.
  - apply Process_changed_at.
Qed.

(** ** C10: the allocator is exhausted at a matched shift *)

(** C10: when the scan, in a run from a well-formed context, stands on a
    matched shift for which the zero constant was synthesized and the
    allocator then answers the invalid id, [Process] returns the failed
    outcome; that shift is in the module as it was, followed by what
    followed it before; the zero constant is declared in the context that
    is returned; and the instructions in front of the shift carry the
    rewrites made for them. *)
Theorem C10_allocation_failure c m pre i post pre' st1 k z c1 c2 :
  wf_context c = true ->
  stream m = pre ++ i :: post ->
  scan_block (initial_state c) pre = (Next st1, pre') ->
  classify (ctx st1) i = Some k ->
  synthesize k (ctx st1) (type_id i) = (z, c1) ->
  z <> 0 ->
  TakeNextId c1 = (0, c2) ->
  exists m' c',
    Process c m = (Failure, c', m')
    /\ c' = consumer c2 SPV_MSG_ERROR (FailedTempResultId i)
    /\ stream m' = pre' ++ i :: post
    /\ Guarded c (ctx st1) pre pre'
    /\ exists T,
         GetType (ctx st1) (type_id i) = Some T
         /\ denotes_zero c' T (int32_like T) z.
Proof.
  intros Hw Hm Hp Hc Hs Hz Ht.
  pose proof (visit_allocation_failure _ _ _ _ _ _ Hc Hs Hz Ht) as Hv.
  destruct (Process_fails_at _ _ _ _ _ _ _ _ Hm Hp Hv) as (m' & HP & Hm').
  exists m', (consumer c2 SPV_MSG_ERROR (FailedTempResultId i)).
  split; [exact HP|]. split; [reflexivity|]. split; [assumption|].
  destruct (scan_block_rel _ _ _ _ Hp) as ([_ Hw1] & _ & Hsc).
  simpl in Hw1. specialize (Hw1 Hw).
  split; [apply Scanned_Guarded; now apply Hsc|].
  destruct (synthesize_denotes _ _ _ _ _ Hw1 Hs Hz)
    as (T & kz & ca & ET & HD & _).
  exists T. split; [assumption|].
  eapply denotes_zero_extends; [|exact HD].
  eapply extends_trans;
    [apply (TakeNextId_grows _ _ _ Ht)|apply grows_consumer].
Qed.

Lemma C10_witness :
  let st1 := flow_state (fst (scan_block (initial_state (sample_context 22))
                                [scalar_shift])) in
  let pre' := snd (scan_block (initial_state (sample_context 22))
                     [scalar_shift]) in
  let c1 := snd (synthesize false (ctx st1) (type_id vector_shift)) in
  exists m' c',
    Process (sample_context 22) (one_block [scalar_shift; vector_shift])
    = (Failure, c', m')
    /\ c' = consumer c1 SPV_MSG_ERROR (FailedTempResultId vector_shift)
    /\ stream m' = pre' ++ vector_shift :: [return_inst]
    /\ Guarded (sample_context 22) (ctx st1) [scalar_shift] pre'
    /\ exists T,
         GetType (ctx st1) (type_id vector_shift) = Some T
         /\ denotes_zero c' T (int32_like T) 21.
Proof.
  apply (C10_allocation_failure (sample_context 22)
           (one_block [scalar_shift; vector_shift])
           [scalar_shift] vector_shift [return_inst]
           (snd (scan_block (initial_state (sample_context 22)) [scalar_shift]))
           (flow_state (fst (scan_block (initial_state (sample_context 22))
                               [scalar_shift])))
           false 21
           (snd (synthesize false
                   (ctx (flow_state
                           (fst (scan_block (initial_state (sample_context 22))
                                   [scalar_shift]))))
                   (type_id vector_shift)))
           (snd (synthesize false
                   (ctx (flow_state
                           (fst (scan_block (initial_state (sample_context 22))
                                   [scalar_shift]))))
                   (type_id vector_shift))));
    try reflexivity. lia.
Defined.

(** ** C7: shifts that are not matched *)

(** C7: in a module whose shift amounts are ids below the bound, whatever
    [Process] returns, every instruction that the context does not match
    (among them every [OpShiftLeftLogical] whose shift amount is not a
    declared integer or integer-vector constant) is in the module as it
    was, in its place; only matched instructions are renamed and given a
    barrier; and the two counters hold the numbers of rewritten
    instructions classified as scalar and as vector, to which an
    instruction that is not matched adds nothing. *)
Theorem C7_unmatched_untouched c m s c' m' :
  operands_below c (stream m) = true ->
  Process c m = (s, c', m') ->
  Module_rel (Kept c) m m'
  /\ exists f pre post pre' ns nv,
      scan_functions (initial_state c) m = (f, m')
      /\ stream m = pre ++ post /\ stream m' = pre' ++ post
      /\ Rewrites c pre pre' ns nv
      /\ scalar_modifications (flow_state f) = Z.of_nat ns mod 2 ^ 32
      /\ vector_modifications (flow_state f) = Z.of_nat nv mod 2 ^ 32.
Proof.
  intros Hop HP. destruct (Process_scan _ _ _ _ _ HP) as (f & Hs & _).
  split.
  - destruct (scan_functions_rel _ _ _ _ Hs) as (_ & Ht & _).
    apply operands_below_Forall in Hop.
    eapply Module_rel_impl_Forall; [exact Hop| |exact Ht].
    intros l l' Hl. apply Barriers_impl_Forall with (1 := Hl); [auto|].
    intros i t Hi. now apply renamed_to_matched.
  - pose proof (scan_functions_as_stream _ _ _ _ Hs) as Hstr.
    destruct (scan_block_counts c _ _ _ _ Hstr (extends_refl _) Hop)
      as (pre & post & pre' & ns & nv & Hm & Hm' & HR & _ & Hsc & Hvc & _);
      try (simpl; unfold in_uint32; lia).
    exists f, pre, post, pre', ns, nv. simpl in Hsc, Hvc. auto 10.
Qed.

Lemma C7_witness :
  operands_below (sample_context 100) (stream sample_module) = true
  /\ Module_rel (Kept (sample_context 100)) sample_module
       (snd (Process (sample_context 100) sample_module))
  /\ exists f pre post pre' ns nv,
      scan_functions (initial_state (sample_context 100)) sample_module
      = (f, snd (Process (sample_context 100) sample_module))
      /\ stream sample_module = pre ++ post
      /\ stream (snd (Process (sample_context 100) sample_module))
         = pre' ++ post
      /\ Rewrites (sample_context 100) pre pre' ns nv
      /\ scalar_modifications (flow_state f) = Z.of_nat ns mod 2 ^ 32
      /\ vector_modifications (flow_state f) = Z.of_nat nv mod 2 ^ 32.
Proof.
  split; [reflexivity|].
  apply (C7_unmatched_untouched (sample_context 100) sample_module
           SuccessWithChange
           (snd (fst (Process (sample_context 100) sample_module))));
    reflexivity.
Defined.

(** ** C8: the counts of the summary *)

(** C8: for a module whose shift amounts are ids below the bound, in a
    context whose identifiers fit 32 bits, when [Process] returns the
    changed outcome the last message it sent is the summary, and the scalar
    and vector counts of that summary are the numbers of rewrites that
    the run applied to instructions classified as scalar and as vector;
    together they are the number of instructions that the run inserted. *)
Theorem C8_summary_counts c m c' m' :
  operands_below c (stream m) = true ->
  0 < id_bound c -> max_id_bound c <= 2 ^ 32 ->
  Process c m = (SuccessWithChange, c', m') ->
  exists c1 ns nv,
    c' = consumer c1 SPV_MSG_INFO (AddedBarriers (Z.of_nat ns) (Z.of_nat nv))
    /\ Rewrites c (stream m) (stream m') ns nv
    /\ ns = count_class c true (stream m)
    /\ nv = count_class c false (stream m)
    /\ length (stream m') = (length (stream m) + ns + nv)%nat.
Proof.
  intros Hop Hpos Hmax HP.
  destruct (Process_success _ _ _ _ _ HP ltac:(discriminate))
    as (st' & Hs & [(Hmod & _ & ->)|(_ & Hd & _)]); [|discriminate].
  pose proof (scan_functions_rel _ _ _ _ Hs) as ([[_ _ Hcap _ _ _] _] & _).
  simpl in Hcap.
  apply scan_functions_as_stream in Hs.
  destruct (scan_block_counts c _ _ _ _ Hs (extends_refl _) Hop)
    as (pre & post & pre' & ns & nv & Hm & Hm' & HR & Hn & Hsc & Hvc & Hid);
    try (simpl; unfold in_uint32; lia).
  specialize (Hn st' eq_refl). subst post. rewrite app_nil_r in Hm, Hm'.
  subst pre pre'. simpl in Hsc, Hvc, Hid.
  exists (ctx st'), ns, nv. split; [|split; [assumption|]].
  - rewrite Hsc, Hvc, !Z.mod_small by lia. reflexivity.
  - now apply Rewrites_count.
Qed.

Lemma C8_witness :
  operands_below (sample_context 100) (stream sample_module) = true
  /\ 0 < id_bound (sample_context 100)
  /\ max_id_bound (sample_context 100) <= 2 ^ 32
  /\ exists c1 ns nv,
      snd (fst (Process (sample_context 100) sample_module))
      = consumer c1 SPV_MSG_INFO (AddedBarriers (Z.of_nat ns) (Z.of_nat nv))
      /\ Rewrites (sample_context 100) (stream sample_module)
           (stream (snd (Process (sample_context 100) sample_module))) ns nv
      /\ ns = count_class (sample_context 100) true (stream sample_module)
      /\ nv = count_class (sample_context 100) false (stream sample_module)
      /\ length (stream (snd (Process (sample_context 100) sample_module)))
         = (length (stream sample_module) + ns + nv)%nat.
Proof.
  split; [reflexivity|]. split; [reflexivity|]. split; [simpl; lia|].
  apply (C8_summary_counts (sample_context 100) sample_module
           (snd (fst (Process (sample_context 100) sample_module)))
           (snd (Process (sample_context 100) sample_module)));
    try reflexivity. simpl. lia.
Defined.

(** ** C9: a second run *)




(** ** C1: the value is preserved *)

(** C1: whenever the pass rewrites a shift, at every bit width, for either
    signedness, and for a scalar as for a vector of any number of
    components: if the shift has a value in an environment in which the
    synthesized zero constant is the zero of that value's shape, then the
    renamed shift followed by the barrier leaves that same value under the
    shift's original result id, as the shift alone does. *)
Theorem C1_value_preserved w s st i st' shift barrier env v :
  visit st i = Rewritten st' shift barrier ->
  eval w s env i = Some v ->
  lookup (GetSingleWordInOperand barrier 1) ((result_id shift, v) :: env)
  = Some (zero_like v) ->
  result_of w s env [shift; barrier] (result_id i) = Some v
  /\ result_of w s env [i] (result_id i) = Some v.
Proof.
  intros Hv He Hz. pose proof (visit_cases st i) as H. rewrite Hv in H.
  destruct H as (k & z & c1 & t & Hc & _ & _ & _ & _ & -> & -> & _).
  apply classify_is_shift in Hc.
  pose proof (eval_shift_kept _ _ _ _ _ Hc He) as Hk.
  split.
  - unfold result_of. simpl run. rewrite eval_SetResultId, He.
    change (GetSingleWordInOperand
              (noop_barrier_inst (type_id i) (result_id i) t z) 1)
      with z in Hz.
    change (result_id (SetResultId i t)) with t in *.
    rewrite (eval_barrier w s _ _ _ t z v Hk); [| |exact Hz].
    + simpl. now rewrite Z.eqb_refl.
    + simpl. now rewrite Z.eqb_refl.
  - unfold result_of. simpl run. rewrite He. simpl. now rewrite Z.eqb_refl.
Qed.

Lemma C1_witness :
  let shift := SetResultId vector_shift 21 in
  let barrier := noop_barrier_inst 2 12 21 20 in
  visit (initial_state (sample_context 100)) vector_shift
  = Rewritten
      {| ctx := snd (TakeNextId
                       (snd (synthesize false (sample_context 100) 2)));
         modified := true;
         scalar_modifications := 0;
         vector_modifications := 1 |}
      shift barrier
  /\ result_of 32 false sample_env [shift; barrier] (result_id vector_shift)
     = Some (Lanes [8; 16; 24; 0])
  /\ result_of 32 false sample_env [vector_shift] (result_id vector_shift)
     = Some (Lanes [8; 16; 24; 0]).
Proof.
  split; [reflexivity|].
  apply (C1_value_preserved 32 false (initial_state (sample_context 100))
           vector_shift
           {| ctx := snd (TakeNextId
                            (snd (synthesize false (sample_context 100) 2)));
              modified := true;
              scalar_modifications := 0;
              vector_modifications := 1 |}
           (SetResultId vector_shift 21) (noop_barrier_inst 2 12 21 20)
           sample_env (Lanes [8; 16; 24; 0])); reflexivity.
Defined.

(** * Further properties of the pass *)

(** ** Ranges of identifiers *)

Lemma ids_from_In n : forall lo x,
  In x (ids_from lo n) <-> lo <= x < lo + Z.of_nat n.
Proof.
  induction n as [|n IH]; intros lo x; simpl.
  - lia.
  - rewrite IH. lia.
Qed.

Lemma ids_from_NoDup n : forall lo, NoDup (ids_from lo n).
Proof.
  induction n as [|n IH]; intros lo; simpl; constructor.
  - rewrite ids_from_In. lia.
  - apply IH.
Qed.

Lemma ids_from_app n1 : forall lo n2,
  ids_from lo (n1 + n2) = ids_from lo n1 ++ ids_from (lo + Z.of_nat n1) n2.
Proof.
  induction n1 as [|n1 IH]; intros lo n2.
  - simpl. now rewrite Z.add_0_r.
  - cbn [Nat.add ids_from app]. rewrite IH. do 3 f_equal. lia.
Qed.

Lemma ids_between_In lo hi x : In x (ids_between lo hi) <-> lo <= x < hi.
Proof. unfold ids_between. rewrite ids_from_In. lia. Qed.

Lemma ids_between_NoDup lo hi : NoDup (ids_between lo hi).
Proof. apply ids_from_NoDup. Qed.

Lemma ids_between_nil lo : ids_between lo lo = [].
Proof. unfold ids_between. now rewrite Z.sub_diag. Qed.

Lemma ids_between_app a b c :
  a <= b -> b <= c -> ids_between a c = ids_between a b ++ ids_between b c.
Proof.
  intros Hab Hbc. unfold ids_between.
  replace (Z.to_nat (c - a))
    with (Z.to_nat (b - a) + Z.to_nat (c - b))%nat by lia.
  rewrite ids_from_app. do 2 f_equal. lia.
Qed.

Lemma ids_between_one a : ids_between a (a + 1) = [a].
Proof. unfold ids_between. replace (a + 1 - a) with 1 by lia. reflexivity. Qed.

(** ** Every allocated id is declared

    Two lists of ids are permutations of each other when every id occurs
    as often in the one as in the other; the goals of this section are
    settled by counting. *)

Ltac count_ids :=
  apply (proj2 (Permutation_count_occ Z.eq_dec _ _));
  let x := fresh "x" in
  intros x;
  repeat match goal with
         | H : Permutation ?a ?b |- _ =>
             let H' := fresh H in
             pose proof (proj1 (Permutation_count_occ Z.eq_dec a b) H x) as H';
             clear H
         end;
  repeat rewrite count_occ_app in *;
  lia.

Lemma allocates_refl c : allocates c c.
Proof.
  split; [lia|]. rewrite ids_between_nil, app_nil_r. apply Permutation_refl.
Qed.

Lemma allocates_trans c1 c2 c3 :
  allocates c1 c2 -> allocates c2 c3 -> allocates c1 c3.
Proof.
  intros [H1 P1] [H2 P2]. split; [lia|].
  rewrite (ids_between_app _ _ _ H1 H2). count_ids.
Qed.

Lemma allocates_positive c c' :
  allocates c c' -> 0 < id_bound c -> 0 < id_bound c'.
Proof. intros [H _]. lia. Qed.

Lemma allocates_add_type c t :
  allocates c (add_type (set_id_bound c (id_bound c + 1)) (id_bound c) t).
Proof.
  split; [simpl; lia|]. unfold declared_ids. simpl.
  rewrite ids_between_one, map_app. simpl. count_ids.
Qed.

Lemma allocates_add_constant c k :
  allocates c (add_constant (set_id_bound c (id_bound c + 1)) (id_bound c) k).
Proof.
  split; [simpl; lia|]. unfold declared_ids. simpl.
  rewrite ids_between_one, map_app. simpl. count_ids.
Qed.

(** With a positive bound the allocator answers 0 only when the
    identifier space is exhausted, and then it changes nothing. *)
Lemma TakeNextId_positive c t c1 :
  0 < id_bound c -> TakeNextId c = (t, c1) ->
  (t = 0 /\ c1 = c)
  \/ (t = id_bound c /\ c1 = set_id_bound c (id_bound c + 1)
      /\ id_bound c < max_id_bound c).
Proof.
  intros Hp H. destruct (TakeNextId_cases c) as [[Hm E]|[Hm E]];
    rewrite E in H; inversion H; subst; auto.
Qed.

Lemma GetTypeInstruction_allocates c t id c1 :
  0 < id_bound c -> GetTypeInstruction c t = (id, c1) -> allocates c c1.
Proof.
  intros Hp. unfold GetTypeInstruction.
  destruct (find_id Type_eqb t (id_to_type c)).
  - intros H; inversion H; subst. apply allocates_refl.
  - destruct (TakeNextId c) as [n c0] eqn:E.
    destruct (TakeNextId_positive _ _ _ Hp E) as [[-> ->]|(-> & -> & _)].
    + simpl. intros H; inversion H; subst. apply allocates_refl.
    + destruct (id_bound c =? 0) eqn:E0; [lia|].
      intros H; inversion H; subst. apply allocates_add_type.
Qed.

Lemma GetDefiningInstruction_allocates c k id c1 :
  0 < id_bound c -> GetDefiningInstruction c k = (id, c1) -> allocates c c1.
Proof.
  intros Hp. unfold GetDefiningInstruction.
  destruct (find_id Constant_eqb k (id_to_constant c)).
  - intros H; inversion H; subst. apply allocates_refl.
  - destruct (TakeNextId c) as [n c0] eqn:E.
    destruct (TakeNextId_positive _ _ _ Hp E) as [[-> ->]|(-> & -> & _)].
    + simpl. intros H; inversion H; subst. apply allocates_refl.
    + destruct (id_bound c =? 0) eqn:E0; [lia|].
      intros H; inversion H; subst. apply allocates_add_constant.
Qed.

Lemma GetIntConstId_allocates s c v id c1 :
  0 < id_bound c -> GetIntConstId s c v = (id, c1) -> allocates c c1.
Proof.
  intros Hp. unfold GetIntConstId.
  destruct (GetTypeInstruction c (Integer 32 s)) as [tid c0] eqn:E.
  pose proof (GetTypeInstruction_allocates _ _ _ _ Hp E) as H0.
  destruct (tid =? 0).
  - intros H; inversion H; subst. exact H0.
  - intros H. eapply allocates_trans; [exact H0|].
    eapply GetDefiningInstruction_allocates; [|exact H].
    now apply (allocates_positive c).
Qed.

Lemma zero_components_allocates s n : forall c acc ids c1,
  0 < id_bound c ->
  zero_components s n c acc = (ids, c1) -> allocates c c1.
Proof.
  induction n as [|n IH]; intros c acc ids c1 Hp; simpl.
  - intros H; inversion H; subst. apply allocates_refl.
  - destruct (if s then GetSIntConstId c 0 else GetUIntConstId c 0)
      as [id c0] eqn:E.
    assert (Hg : allocates c c0).
    { destruct s; eapply GetIntConstId_allocates; eassumption. }
    intros H. eapply allocates_trans; [exact Hg|].
    eapply IH; [|exact H]. now apply (allocates_positive c).
Qed.

Lemma GetOrCreateConstantZero_allocates c ty z c1 :
  0 < id_bound c -> GetOrCreateConstantZero c ty = (z, c1) -> allocates c c1.
Proof.
  intros Hp. unfold GetOrCreateConstantZero.
  destruct (GetType c ty) as [T|];
    [|intros H; inversion H; apply allocates_refl].
  destruct (AsInteger T) as [[w s]|];
    [|intros H; inversion H; apply allocates_refl].
  destruct s; apply GetIntConstId_allocates; assumption.
Qed.

Lemma GetOrCreateConstantZeroVector_allocates c ty z c1 :
  0 < id_bound c ->
  GetOrCreateConstantZeroVector c ty = (z, c1) -> allocates c c1.
Proof.
  intros Hp. unfold GetOrCreateConstantZeroVector.
  destruct (GetType c ty) as [T|];
    [|intros H; inversion H; apply allocates_refl].
  destruct (AsVector T) as [[e n]|];
    [|intros H; inversion H; apply allocates_refl].
  destruct (AsInteger e) as [[w s]|];
    [|intros H; inversion H; apply allocates_refl].
  destruct (zero_components s (Z.to_nat n) c []) as [ids ca] eqn:E1.
  pose proof (zero_components_allocates _ _ _ _ _ _ Hp E1) as H1.
  destruct (GetTypeInstruction ca T) as [vid cb] eqn:E2.
  pose proof (GetTypeInstruction_allocates _ _ _ _
                (allocates_positive _ _ H1 Hp) E2) as H2.
  pose proof (allocates_trans _ _ _ H1 H2) as H12.
  destruct (vid =? 0); [intros H; inversion H; subst; assumption|].
  destruct (GetConstant cb (GetType cb vid) ids) as [k|];
    [|intros H; inversion H; subst; assumption].
  intros H. eapply allocates_trans; [exact H12|].
  eapply GetDefiningInstruction_allocates; [|exact H].
  now apply (allocates_positive c).
Qed.

Lemma synthesize_allocates k c ty z c1 :
  0 < id_bound c -> synthesize k c ty = (z, c1) -> allocates c c1.
Proof.
  destruct k; simpl; intros Hp H.
  - eapply GetOrCreateConstantZero_allocates; eassumption.
  - eapply GetOrCreateConstantZeroVector_allocates; eassumption.
Qed.

(** A visit that fails has declared what it allocated; one that rewrites
    has also taken the id after those for the shift. *)
Lemma visit_allocates st i :
  0 < id_bound (ctx st) ->
  match visit st i with
  | Continue => True
  | ReturnFailure st' => allocates (ctx st) (ctx st')
  | Rewritten st' shift barrier =>
      exists t z c1,
        allocates (ctx st) c1
        /\ t = id_bound c1
        /\ id_bound (ctx st') = t + 1
        /\ declared_ids (ctx st') = declared_ids c1
        /\ shift = SetResultId i t
        /\ barrier = noop_barrier_inst (type_id i) (result_id i) t z
  end.
Proof.
  intros Hp. pose proof (visit_cases st i) as H.
  destruct (visit st i) as [|st'|st' shift barrier]; [exact I| |].
  - destruct H as (k & z & c1 & _ & Hs & [[_ ->]|[_ (c2 & Ht & ->)]]).
    + apply (synthesize_allocates _ _ _ _ _ Hp Hs).
    + pose proof (synthesize_allocates _ _ _ _ _ Hp Hs) as Ha.
      destruct (TakeNextId_positive _ _ _ (allocates_positive _ _ Ha Hp) Ht)
        as [[_ ->]|(E & _)]; [exact Ha|].
      pose proof (allocates_positive _ _ Ha Hp). lia.
  - destruct H as (k & z & c1 & t & _ & Hs & _ & Ht & Hnz & -> & -> & _).
    pose proof (synthesize_allocates _ _ _ _ _ Hp Hs) as Ha.
    destruct (TakeNextId_positive _ _ _ (allocates_positive _ _ Ha Hp) Ht)
      as [[E _]|(E & E' & _)]; [contradiction|].
    exists t, z, c1. rewrite E'. simpl.
    split; [exact Ha|]. split; [exact E|]. split; [lia|]. auto.
Qed.

Lemma result_ids_cons i l :
  result_ids (i :: l) = result_ids [i] ++ result_ids l.
Proof.
  unfold result_ids. simpl. destruct (negb (result_id i =? 0)); reflexivity.
Qed.

Lemma result_ids_renamed i t : t <> 0 -> result_ids [SetResultId i t] = [t].
Proof.
  intros H. unfold result_ids. simpl.
  destruct (t =? 0) eqn:E; [lia|reflexivity].
Qed.

Lemma result_ids_barrier i t z :
  result_ids [noop_barrier_inst (type_id i) (result_id i) t z]
  = result_ids [i].
Proof. reflexivity. Qed.

Lemma scan_block_allocates : forall l st f l',
  scan_block st l = (f, l') ->
  0 < id_bound (ctx st) ->
  id_bound (ctx st) <= id_bound (ctx (flow_state f))
  /\ Permutation (declared_ids (ctx (flow_state f)) ++ result_ids l')
       (declared_ids (ctx st) ++ result_ids l
        ++ ids_between (id_bound (ctx st)) (id_bound (ctx (flow_state f)))).
Proof.
  induction l as [|i l IH]; intros st f l' H Hp.
  - rewrite scan_block_nil in H. inversion H; subst. simpl.
    split; [lia|]. rewrite ids_between_nil. apply Permutation_refl.
  - rewrite scan_block_cons in H. pose proof (visit_allocates st i Hp) as Hv.
    destruct (visit st i) as [|st'|st' shift barrier].
    + destruct (scan_block st l) as [f0 l0] eqn:E. inversion H; subst.
      destruct (IH _ _ _ E Hp) as [Hb HP]. split; [assumption|].
      rewrite (result_ids_cons i l), (result_ids_cons i l0).
      simpl fst. count_ids.
    + inversion H; subst. simpl. destruct Hv as [Hb HP]. split; [assumption|].
      count_ids.
    + destruct Hv as (t & z & c1 & [Hb HP] & Et & Eb & Ed & -> & ->).
      destruct (scan_block st' l) as [f0 l0] eqn:E. inversion H; subst f l'.
      assert (Hp' : 0 < id_bound (ctx st')) by lia.
      destruct (IH _ _ _ E Hp') as [Hb' HP']. simpl fst. simpl snd.
      split; [lia|]. subst t.
      rewrite (ids_between_app (id_bound (ctx st)) (id_bound c1)
                 (id_bound (ctx (flow_state f0)))) by lia.
      rewrite (ids_between_app (id_bound c1) (id_bound (ctx st'))
                 (id_bound (ctx (flow_state f0)))) by lia.
      rewrite Eb, ids_between_one.
      rewrite (result_ids_cons (SetResultId i _)),
        (result_ids_cons (noop_barrier_inst _ _ _ _)).
      rewrite result_ids_barrier, result_ids_renamed by lia.
      rewrite (result_ids_cons i l). rewrite Ed, Eb in HP'.
      count_ids.
Qed.

Lemma Blocks_rel_labels R bs bs' :
  Blocks_rel R bs bs' -> map label_id bs' = map label_id bs.
Proof.
  induction 1 as [|b b' bs bs' [Hl _] _ IH]; simpl; [reflexivity|].
  now rewrite Hl, IH.
Qed.

Lemma Module_rel_labels R m m' : Module_rel R m m' -> label_ids m' = label_ids m.
Proof.
  induction 1 as [|f f' m m' [Hf Hb] _ IH]; simpl; [reflexivity|].
  rewrite IH, Hf. destruct (IsDeclaration f).
  - now subst.
  - now rewrite (Blocks_rel_labels _ _ _ Hb).
Qed.

Lemma Process_grows c m s c' m' : Process c m = (s, c', m') -> grows c c'.
Proof.
  intros HP. unfold Process in HP.
  destruct (scan_functions (initial_state c) m) as [f m0] eqn:Hs.
  destruct (scan_functions_rel _ _ _ _ Hs) as (Hg & _). simpl in Hg.
  destruct f as [st|st].
  - destruct (modified st); inversion HP; subst; [|exact Hg].
    eapply grows_trans; [exact Hg|apply grows_consumer].
  - inversion HP; subst. exact Hg.
Qed.

Lemma Process_Touched_stream c m s c' m' :
  Process c m = (s, c', m') -> Touched c c' (stream m) (stream m').
Proof.
  intros HP. destruct (Process_scan _ _ _ _ _ HP) as (f & Hs & He).
  apply scan_functions_as_stream in Hs.
  destruct (scan_block_rel _ _ _ _ Hs) as (_ & Ht & _). simpl in Ht.
  eapply Touched_widen; [apply extends_refl|exact He|exact Ht].
Qed.

Lemma Process_allocates c m s c' m' :
  0 < id_bound c ->
  Process c m = (s, c', m') ->
  id_bound c <= id_bound c'
  /\ Permutation (defined_ids c' m')
       (defined_ids c m ++ ids_between (id_bound c) (id_bound c')).
Proof.
  intros Hp HP. destruct (Process_scan _ _ _ _ _ HP) as (f & Hs & He).
  assert (E : id_bound c' = id_bound (ctx (flow_state f))
              /\ declared_ids c' = declared_ids (ctx (flow_state f))).
  { unfold Process in HP. rewrite Hs in HP. destruct f as [st|st].
    - destruct (modified st); inversion HP; subst; auto.
    - inversion HP; subst; auto. }
  destruct E as [E1 E2].
  destruct (scan_functions_rel _ _ _ _ Hs) as (_ & Ht & _).
  apply Module_rel_labels in Ht.
  apply scan_functions_as_stream in Hs.
  destruct (scan_block_allocates _ _ _ _ Hs Hp) as [Hb HPm]. simpl in Hb, HPm.
  unfold defined_ids. rewrite E1, E2, Ht. split; [assumption|].
  count_ids.
Qed.

Lemma distinct_ids_NoDup l : distinct_ids l = true <-> NoDup l.
Proof.
  induction l as [|x l IH]; simpl.
  - split; [constructor|reflexivity].
  - rewrite andb_true_iff, negb_true_iff, IH. split.
    + intros [Hx Hl]. constructor; [|assumption].
      now apply existsb_eqb_false.
    + intros H. inversion H as [|? ? Hx Hl]; subst. split; [|assumption].
      destruct (existsb (Z.eqb x) l) eqn:E; [|reflexivity].
      apply existsb_exists in E. destruct E as (y & Hy & Exy).
      apply Z.eqb_eq in Exy. subst y. contradiction.
Qed.

Lemma valid_ids_spec c m :
  valid_ids c m = true <->
  0 < id_bound c /\ NoDup (defined_ids c m)
  /\ Forall (fun x => 0 < x < id_bound c) (defined_ids c m).
Proof.
  unfold valid_ids. rewrite !andb_true_iff, distinct_ids_NoDup, Z.ltb_lt.
  rewrite forallb_forall, Forall_forall.
  assert (E : forall x, (0 <? x) && (x <? id_bound c) = true
                        <-> 0 < x < id_bound c).
  { intros x. rewrite andb_true_iff, !Z.ltb_lt. tauto. }
  split.
  - intros [[H1 H2] H3]. repeat split; try assumption; apply E; auto.
  - intros (H1 & H2 & H3). repeat split; try assumption.
    intros x Hx. apply E. auto.
Qed.

(** X1: whatever [Process] returns, from a context whose bound is a valid
    id, the definitions of the module and the context it returns are those
    it was given and one more for each id between the old bound and the
    new one: every id that the run allocated is defined exactly once (as a
    type, as a constant or as the new result id of a shift), none is lost,
    and no definition that was there is removed or duplicated. *)
Theorem X1_allocated_ids_are_defined c m s c' m' :
  0 < id_bound c ->
  Process c m = (s, c', m') ->
  id_bound c <= id_bound c'
  /\ Permutation (defined_ids c' m')
       (defined_ids c m ++ ids_between (id_bound c) (id_bound c')).
Proof. apply Process_allocates. Qed.

Lemma X1_witness :
  0 < id_bound (sample_context 100)
  /\ id_bound (sample_context 100)
     <= id_bound (snd (fst (Process (sample_context 100) sample_module)))
  /\ Permutation
       (defined_ids (snd (fst (Process (sample_context 100) sample_module)))
          (snd (Process (sample_context 100) sample_module)))
       (defined_ids (sample_context 100) sample_module
        ++ ids_between (id_bound (sample_context 100))
             (id_bound (snd (fst (Process (sample_context 100)
                                    sample_module))))).
Proof.
  split; [reflexivity|].
  apply (X1_allocated_ids_are_defined (sample_context 100) sample_module
           SuccessWithChange); reflexivity.
Defined.

(** X2: [Process] keeps the ids of a module in order, whatever it returns:
    if every id defined by the context and the module (types, constants,
    functions, labels, instruction results) is defined once and is a valid
    id below the bound, the same holds of the context and the module that
    are returned. *)
Theorem X2_ids_stay_valid c m s c' m' :
  valid_ids c m = true ->
  Process c m = (s, c', m') ->
  valid_ids c' m' = true.
Proof.
  rewrite !valid_ids_spec. intros (Hp & Hn & Hr) HP.
  destruct (Process_allocates _ _ _ _ _ Hp HP) as [Hb Hperm].
  rewrite Forall_forall in Hr.
  split; [lia|]. split.
  - eapply Permutation_NoDup; [apply Permutation_sym; exact Hperm|].
    apply NoDup_app; [assumption|apply ids_between_NoDup|].
    intros x Hx. rewrite ids_between_In. specialize (Hr _ Hx). lia.
  - rewrite Forall_forall. intros x Hx.
    apply (Permutation_in _ Hperm) in Hx. apply in_app_or in Hx.
    destruct Hx as [Hx|Hx].
    + specialize (Hr _ Hx). lia.
    + rewrite ids_between_In in Hx. lia.
Qed.

Lemma X2_witness :
  valid_ids (sample_context 100) sample_module = true
  /\ valid_ids (snd (fst (Process (sample_context 100) sample_module)))
       (snd (Process (sample_context 100) sample_module)) = true.
Proof.
  split; [reflexivity|].
  apply (X2_ids_stay_valid (sample_context 100) sample_module
           SuccessWithChange); reflexivity.
Defined.

(** ** Result ids and their types *)

Lemma Barriers_typed_results Pk Pg l l' :
  Barriers Pk Pg l l' ->
  (forall p, In p (typed_results l) -> In p (typed_results l'))
  /\ (forall p, In p (typed_results l') ->
        In p (typed_results l)
        \/ exists i t, In i l /\ Pg i t /\ p = (t, type_id i)).
Proof.
  induction 1 as [|i l l' Hk _ [IH1 IH2]|i t z l l' Hg Hz _ [IH1 IH2]].
  - split; intros p [].
  - split; intros p [Hp|Hp]; simpl.
    + now left.
    + right. now apply IH1.
    + left. now left.
    + destruct (IH2 _ Hp) as [Hl|(j & u & Hj & Hu & ->)].
      * left. now right.
      * right. exists j, u. split; [now right|auto].
  - split.
    + intros p [Hp|Hp]; simpl.
      * right. left. exact Hp.
      * right. right. now apply IH1.
    + intros p [Hp|[Hp|Hp]].
      * right. exists i, t. split; [now left|]. split; [assumption|].
        now rewrite <- Hp.
      * left. left. exact Hp.
      * destruct (IH2 _ Hp) as [Hl|(j & u & Hj & Hu & ->)].
        -- left. now right.
        -- right. exists j, u. split; [now right|auto].
Qed.

(** X3: whatever [Process] returns, every result id of the module is still
    the result of an instruction of the same result type (of the
    instruction itself, or of the barrier that took over the id of a
    renamed shift); and every other result in the returned module is an id
    allocated during the run, carried by a renamed [OpShiftLeftLogical]
    with that shift's result type. *)
Theorem X3_result_types_are_kept c m s c' m' :
  Process c m = (s, c', m') ->
  (forall r ty, In (r, ty) (typed_results (stream m)) ->
     In (r, ty) (typed_results (stream m')))
  /\ (forall r ty, In (r, ty) (typed_results (stream m')) ->
        In (r, ty) (typed_results (stream m))
        \/ (id_bound c <= r < id_bound c'
            /\ exists i, In i (stream m) /\ is_shift i = true
                         /\ ty = type_id i)).
Proof.
  intros HP. pose proof (Process_Touched_stream _ _ _ _ _ HP) as Ht.
  destruct (Barriers_typed_results _ _ _ _ Ht) as [H1 H2].
  split; [intros r ty; apply H1|].
  intros r ty Hin. destruct (H2 _ Hin) as [H|(i & t & Hi & Hr & E)];
    [now left|right].
  inversion E; subst. destruct Hr as ([k (cv & _ & _ & Hc)] & _ & Hb).
  split; [assumption|]. exists i. split; [assumption|]. split; [|reflexivity].
  eapply classify_is_shift; eassumption.
Qed.

Lemma X3_witness :
  let r := Process (sample_context 100) sample_module in
  (forall x ty, In (x, ty) (typed_results (stream sample_module)) ->
     In (x, ty) (typed_results (stream (snd r))))
  /\ (forall x ty, In (x, ty) (typed_results (stream (snd r))) ->
        In (x, ty) (typed_results (stream sample_module))
        \/ (id_bound (sample_context 100) <= x < id_bound (snd (fst r))
            /\ exists i, In i (stream sample_module) /\ is_shift i = true
                         /\ ty = type_id i)).
Proof.
  apply (X3_result_types_are_kept (sample_context 100) sample_module
           SuccessWithChange); reflexivity.
Defined.

(** ** Uses after definitions *)

Lemma known_id_In known x : known_id known x = true <-> In x known.
Proof.
  unfold known_id. rewrite existsb_exists. split.
  - intros (y & Hy & E). apply Z.eqb_eq in E. now subst.
  - intros H. exists x. split; [assumption|apply Z.eqb_refl].
Qed.

Lemma known_id_mono K K' x :
  (forall y, In y K -> In y K') -> known_id K x = true -> known_id K' x = true.
Proof. rewrite !known_id_In. auto. Qed.

Lemma defined_before_mono : forall l K K',
  (forall y, In y K -> In y K') ->
  defined_before K l = true -> defined_before K' l = true.
Proof.
  induction l as [|i l IH]; intros K K' HK; simpl; [reflexivity|].
  rewrite !andb_true_iff. intros [H1 H2]. split.
  - rewrite forallb_forall in H1 |- *. intros x Hx.
    eapply known_id_mono; eauto.
  - apply (IH (result_id i :: K)); [|assumption].
    intros y [Hy|Hy]; [now left|right; auto].
Qed.

Lemma constant_ids_extends c c' x :
  extends c c' -> In x (constant_ids c) -> In x (constant_ids c').
Proof.
  intros [_ _ _ _ (ks & E & _) _]. unfold constant_ids. rewrite E, map_app.
  intros H. apply in_or_app. now left.
Qed.

Lemma known_extends K c c' y :
  extends c c' -> In y (K ++ constant_ids c) -> In y (K ++ constant_ids c').
Proof.
  intros He H. apply in_app_or in H. apply in_or_app.
  destruct H as [H|H]; [now left|right].
  eapply constant_ids_extends; eassumption.
Qed.

(** The zero constant that a synthesis answers is declared. *)
Lemma synthesize_declared k c ty z c1 :
  wf_context c = true -> synthesize k c ty = (z, c1) -> z <> 0 ->
  In z (constant_ids c1).
Proof.
  intros Hw H Hz.
  destruct (synthesize_denotes _ _ _ _ _ Hw H Hz)
    as (T & kz & ca & _ & _ & _ & _ & Hf).
  apply lookup_In in Hf. unfold constant_ids.
  change z with (fst (z, kz)). now apply in_map.
Qed.

Lemma scan_block_defined_before : forall l st f l' K,
  scan_block st l = (f, l') ->
  wf_context (ctx st) = true ->
  defined_before (K ++ constant_ids (ctx st)) l = true ->
  defined_before (K ++ constant_ids (ctx (flow_state f))) l' = true.
Proof.
  induction l as [|i l IH]; intros st f l' K H Hw Hd.
  - rewrite scan_block_nil in H. inversion H; subst. reflexivity.
  - rewrite scan_block_cons in H. pose proof (visit_cases st i) as Hv.
    pose proof (visit_grows st i) as Hg.
    simpl in Hd. apply andb_true_iff in Hd. destruct Hd as [Hi Hd].
    destruct (visit st i) as [|st'|st' shift barrier].
    + destruct (scan_block st l) as [f0 l0] eqn:E. inversion H; subst f l'.
      destruct (scan_block_rel _ _ _ _ E) as ([He _] & _).
      simpl. apply andb_true_iff. split.
      * rewrite forallb_forall in Hi |- *. intros x Hx.
        eapply known_id_mono; [|apply Hi, Hx].
        intros y. now apply known_extends.
      * apply (IH st f0 l0 (result_id i :: K) E Hw Hd).
    + inversion H; subst. simpl. destruct Hg as [He _].
      apply andb_true_iff. split.
      * rewrite forallb_forall in Hi |- *. intros x Hx.
        eapply known_id_mono; [|apply Hi, Hx].
        intros y. now apply known_extends.
      * eapply defined_before_mono; [|exact Hd].
        intros y [Hy|Hy]; [now left|right].
        now apply (known_extends K (ctx st)).
    + destruct Hv as (k & z & c1 & t & _ & Hs & Hz & Ht & Hnz & -> & -> & _).
      destruct Hg as [He Hw'].
      destruct (scan_block st' l) as [f0 l0] eqn:E. inversion H; subst f l'.
      destruct (scan_block_rel _ _ _ _ E) as ([He0 _] & _).
      pose proof (synthesize_declared _ _ _ _ _ Hw Hs Hz) as Hzin.
      pose proof (TakeNextId_grows _ _ _ Ht) as [He1 _].
      simpl fst. simpl snd.
      change (defined_before _ (_ :: _ :: l0))
        with (forallb (known_id (K ++ constant_ids (ctx (flow_state f0))))
                (id_words i)
              && (forallb
                    (known_id (t :: K ++ constant_ids (ctx (flow_state f0))))
                    [t; z; z; z]
                  && defined_before
                       (result_id i :: t
                        :: K ++ constant_ids (ctx (flow_state f0)))
                       l0)).
      apply andb_true_iff. split; [|apply andb_true_iff; split].
      * rewrite forallb_forall in Hi |- *. intros x Hx.
        eapply known_id_mono; [|apply Hi, Hx].
        intros y. apply known_extends. eapply extends_trans; eassumption.
      * assert (Hzk : known_id
                        (t :: K ++ constant_ids (ctx (flow_state f0))) z
                      = true).
        { apply known_id_In. right. apply in_or_app. right.
          eapply constant_ids_extends; [exact He0|].
          eapply constant_ids_extends; [exact He1|exact Hzin]. }
        assert (Htk : known_id
                        (t :: K ++ constant_ids (ctx (flow_state f0))) t
                      = true) by (apply known_id_In; now left).
        cbn [forallb]. now rewrite Htk, Hzk.
      * apply (IH st' f0 l0 (result_id i :: t :: K) E (Hw' Hw)).
        eapply defined_before_mono; [|exact Hd].
        intros y [Hy|Hy]; [now left|right; right].
        now apply (known_extends K (ctx st)).
Qed.

(** X4: [Process] keeps uses behind definitions, whatever it returns.  If,
    along the instructions of the module in scan order, every id operand
    is a declared constant, one of the ids [known] otherwise (parameters,
    variables, ...), or the result of an instruction in front of it, then
    the same holds of the returned module with the constants of the
    returned context: a barrier uses the new id of its shift, defined just
    in front of it, and the zero constant, which is declared; and what used
    the shift's old id finds it defined by the barrier. *)
Theorem X4_uses_stay_defined c m s c' m' known :
  wf_context c = true ->
  defined_before (known ++ constant_ids c) (stream m) = true ->
  Process c m = (s, c', m') ->
  defined_before (known ++ constant_ids c') (stream m') = true.
Proof.
  intros Hw Hd HP. destruct (Process_scan _ _ _ _ _ HP) as (f & Hs & He).
  apply scan_functions_as_stream in Hs.
  pose proof (scan_block_defined_before _ _ _ _ known Hs Hw Hd) as H.
  eapply defined_before_mono; [|exact H].
  intros y. now apply known_extends.
Qed.

Lemma X4_witness :
  wf_context (sample_context 100) = true
  /\ defined_before ([8; 9] ++ constant_ids (sample_context 100))
       (stream sample_module) = true
  /\ defined_before
       ([8; 9]
        ++ constant_ids (snd (fst (Process (sample_context 100)
                                     sample_module))))
       (stream (snd (Process (sample_context 100) sample_module))) = true.
Proof.
  split; [reflexivity|]. split; [reflexivity|].
  apply (X4_uses_stay_defined (sample_context 100) sample_module
           SuccessWithChange); reflexivity.
Defined.

(** ** What a run declares *)

Lemma skipn_length_app {A} (l l' : list A) : skipn (length l) (l ++ l') = l'.
Proof. induction l; simpl; auto. Qed.

Lemma new_types_app c c' ts :
  id_to_type c' = id_to_type c ++ ts -> new_types c c' = ts.
Proof. intros E. unfold new_types. rewrite E. apply skipn_length_app. Qed.

Lemma new_constants_app c c' ks :
  id_to_constant c' = id_to_constant c ++ ks -> new_constants c c' = ks.
Proof. intros E. unfold new_constants. rewrite E. apply skipn_length_app. Qed.

Lemma zero_literal_extends c c' s id :
  extends c c' -> zero_literal c s id = true -> zero_literal c' s id = true.
Proof.
  intros He. unfold zero_literal.
  destruct (FindDeclaredConstant c id) as [k|] eqn:E; [|discriminate].
  now rewrite (FindDeclaredConstant_extends _ _ _ _ He E).
Qed.

Lemma zero_constant_extends c c' k :
  extends c c' -> zero_constant c k = true -> zero_constant c' k = true.
Proof.
  intros He. destruct k as [T v|T ids]; simpl; [auto|].
  destruct T as [| | | |e n]; try discriminate.
  destruct e; try discriminate.
  rewrite !andb_true_iff. intros [H1 H2]. split; [assumption|].
  rewrite forallb_forall in H2 |- *. intros id Hid.
  eapply zero_literal_extends; eauto.
Qed.

Lemma declares_zeros_same c c' :
  id_to_type c' = id_to_type c -> id_to_constant c' = id_to_constant c ->
  declares_zeros c c' = true.
Proof.
  intros Et Ek. unfold declares_zeros, new_types, new_constants.
  now rewrite Et, Ek, !skipn_all.
Qed.

Lemma declares_zeros_refl c : declares_zeros c c = true.
Proof. now apply declares_zeros_same. Qed.

Lemma declares_zeros_trans c1 c2 c3 :
  extends c1 c2 -> extends c2 c3 ->
  declares_zeros c1 c2 = true -> declares_zeros c2 c3 = true ->
  declares_zeros c1 c3 = true.
Proof.
  intros He12 He23.
  destruct He12 as [_ _ _ (ts & Et & _) (ks & Ek & _) _].
  pose proof He23 as [_ _ _ (ts' & Et' & _) (ks' & Ek' & _) _].
  unfold declares_zeros.
  rewrite (new_types_app _ _ _ Et), (new_constants_app _ _ _ Ek).
  rewrite (new_types_app _ _ _ Et'), (new_constants_app _ _ _ Ek').
  rewrite (new_types_app c1 c3 (ts ++ ts'))
    by (rewrite Et', Et; symmetry; apply app_assoc).
  rewrite (new_constants_app c1 c3 (ks ++ ks'))
    by (rewrite Ek', Ek; symmetry; apply app_assoc).
  rewrite !forallb_app, !andb_true_iff.
  intros [H1 H2] [H3 H4]. repeat split; try assumption.
  rewrite forallb_forall in H2 |- *. intros p Hp.
  eapply zero_constant_extends; [exact He23|]. now apply H2.
Qed.

Lemma declares_zeros_consumer c level text :
  declares_zeros c (consumer c level text) = true.
Proof. now apply declares_zeros_same. Qed.

Lemma TakeNextId_declares c t c1 :
  TakeNextId c = (t, c1) -> declares_zeros c c1 = true.
Proof.
  intros H. destruct (TakeNextId_cases c) as [[_ E]|[_ E]];
    rewrite E in H; inversion H; subst; now apply declares_zeros_same.
Qed.

Lemma GetTypeInstruction_declares c s id c1 :
  GetTypeInstruction c (Integer 32 s) = (id, c1) -> declares_zeros c c1 = true.
Proof.
  unfold GetTypeInstruction.
  destruct (find_id Type_eqb (Integer 32 s) (id_to_type c)).
  - intros H; inversion H; subst. apply declares_zeros_refl.
  - destruct (TakeNextId_cases c) as [[_ E]|[_ E]]; rewrite E.
    + simpl. intros H; inversion H; subst. apply declares_zeros_refl.
    + destruct (id_bound c =? 0).
      * intros H; inversion H; subst. now apply declares_zeros_same.
      * intros H; inversion H; subst.
        unfold declares_zeros, new_types, new_constants. simpl.
        now rewrite skipn_length_app, skipn_all.
Qed.

(** A type that resolves is registered: asking for its id declares
    nothing. *)
Lemma GetTypeInstruction_found c ty T id c1 :
  GetType c ty = Some T -> GetTypeInstruction c T = (id, c1) ->
  c1 = c /\ In (id, T) (id_to_type c).
Proof.
  intros ET. unfold GetTypeInstruction.
  destruct (In_find_id _ Type_eqb_eq T (id_to_type c) ty (lookup_In _ _ _ ET))
    as [vid Ev].
  rewrite Ev. intros H; inversion H; subst. split; [reflexivity|].
  apply (find_id_In _ Type_eqb_eq _ _ _ Ev).
Qed.

Lemma GetDefiningInstruction_declares c k id c1 :
  zero_constant c k = true ->
  GetDefiningInstruction c k = (id, c1) -> declares_zeros c c1 = true.
Proof.
  intros Hk H. pose proof (GetDefiningInstruction_grows _ _ _ _ H) as [He _].
  revert H. unfold GetDefiningInstruction.
  destruct (find_id Constant_eqb k (id_to_constant c)).
  - intros H; inversion H; subst. apply declares_zeros_refl.
  - destruct (TakeNextId_cases c) as [[_ E]|[_ E]]; rewrite E.
    + simpl. intros H; inversion H; subst. apply declares_zeros_refl.
    + destruct (id_bound c =? 0).
      * intros H; inversion H; subst. now apply declares_zeros_same.
      * intros H; inversion H; subst.
        unfold declares_zeros, new_types, new_constants. simpl.
        rewrite skipn_length_app, skipn_all. simpl.
        rewrite (zero_constant_extends _ _ _ He Hk). reflexivity.
Qed.

Lemma GetIntConstId_declares s c z c1 :
  GetIntConstId s c 0 = (z, c1) -> declares_zeros c c1 = true.
Proof.
  unfold GetIntConstId.
  destruct (GetTypeInstruction c (Integer 32 s)) as [tid c0] eqn:E.
  pose proof (GetTypeInstruction_declares _ _ _ _ E) as H0.
  pose proof (GetTypeInstruction_grows _ _ _ _ E) as [He0 _].
  destruct (tid =? 0); [intros H; inversion H; subst; assumption|].
  intros H. pose proof (GetDefiningInstruction_grows _ _ _ _ H) as [He1 _].
  eapply declares_zeros_trans; [exact He0|exact He1|exact H0|].
  eapply GetDefiningInstruction_declares; [|exact H]. reflexivity.
Qed.

Lemma zero_components_declares s n : forall c acc ids c1,
  zero_components s n c acc = (ids, c1) -> declares_zeros c c1 = true.
Proof.
  induction n as [|n IH]; intros c acc ids c1; simpl.
  - intros H; inversion H; subst. apply declares_zeros_refl.
  - destruct (if s then GetSIntConstId c 0 else GetUIntConstId c 0)
      as [id c0] eqn:E.
    assert (E' : GetIntConstId s c 0 = (id, c0)) by (destruct s; exact E).
    intros H.
    eapply declares_zeros_trans;
      [apply (GetIntConstId_grows _ _ _ _ _ E')
      |apply (zero_components_grows _ _ _ _ _ _ H)
      |apply (GetIntConstId_declares _ _ _ _ E')
      |apply (IH _ _ _ _ H)].
Qed.

Lemma GetOrCreateConstantZero_declares c ty z c1 :
  GetOrCreateConstantZero c ty = (z, c1) -> declares_zeros c c1 = true.
Proof.
  unfold GetOrCreateConstantZero.
  destruct (GetType c ty) as [T|];
    [|intros H; inversion H; apply declares_zeros_refl].
  destruct (AsInteger T) as [[w s]|];
    [|intros H; inversion H; apply declares_zeros_refl].
  destruct s; apply GetIntConstId_declares.
Qed.

(** The component ids that the loop collects are as many as the vector has
    elements; when they are declared at all they are zero literals. *)
Lemma zero_components_literals s c n ids ca :
  wf_context c = true ->
  zero_components s n c [] = (ids, ca) ->
  length ids = n
  /\ (Forall (fun id => FindDeclaredConstant ca id <> None) ids ->
      forallb (zero_literal ca s) ids = true).
Proof.
  intros Hw H. pose proof (wf_positive _ Hw) as Hp.
  destruct n as [|n].
  - simpl in H. inversion H; subst. auto.
  - destruct (GetIntConstId s c 0) as [zs cz] eqn:Ez.
    rewrite (zero_components_repeat _ _ _ _ Hp Ez) in H.
    inversion H; subst. split; [apply (repeat_length zs (S n))|].
    intros Hall. apply forallb_forall. intros id Hid.
    change (zs :: repeat zs n) with (repeat zs (S n)) in Hid, Hall.
    rewrite Forall_forall in Hall. specialize (Hall _ Hid).
    apply repeat_spec in Hid. subst id.
    destruct (GetIntConstId_grows _ _ _ _ _ Ez) as [_ Hw1].
    destruct (Z.eq_dec zs 0) as [->|Hz].
    + now rewrite (wf_FindDeclaredConstant_zero _ (Hw1 Hw)) in Hall.
    + destruct (GetIntConstId_registered _ _ _ _ _ Ez Hz) as [Hin _].
      unfold zero_literal.
      rewrite (wf_FindDeclaredConstant _ _ _ (Hw1 Hw) Hin). simpl.
      now rewrite Bool.eqb_reflx.
Qed.

Lemma GetOrCreateConstantZeroVector_declares c ty z c1 :
  wf_context c = true ->
  GetOrCreateConstantZeroVector c ty = (z, c1) -> declares_zeros c c1 = true.
Proof.
  intros Hw. unfold GetOrCreateConstantZeroVector.
  destruct (GetType c ty) as [T|] eqn:ET;
    [|intros H; inversion H; apply declares_zeros_refl].
  destruct T as [| | | |e n]; simpl;
    try (intros H; inversion H; apply declares_zeros_refl).
  destruct e as [| |w s| |]; simpl;
    try (intros H; inversion H; apply declares_zeros_refl).
  destruct (zero_components s (Z.to_nat n) c []) as [ids ca] eqn:E1.
  pose proof (zero_components_declares _ _ _ _ _ _ E1) as H1.
  destruct (zero_components_grows _ _ _ _ _ _ E1) as [He1 Hw1].
  specialize (Hw1 Hw).
  destruct (zero_components_literals _ _ _ _ _ Hw E1) as [Hlen Hlit].
  destruct (GetTypeInstruction ca (Vector (Integer w s) n)) as [vid cb] eqn:E2.
  destruct (GetTypeInstruction_found _ ty _ _ _
              (GetType_extends _ _ _ _ He1 ET) E2) as [-> Hin].
  destruct (vid =? 0); [intros H; inversion H; subst; assumption|].
  rewrite (wf_GetType _ _ _ Hw1 Hin). unfold GetConstant.
  destruct (forallb (fun id => match FindDeclaredConstant ca id with
                               | Some _ => true
                               | None => false
                               end) ids) eqn:Ef;
    [|intros H; inversion H; subst; assumption].
  intros H. pose proof (GetDefiningInstruction_grows _ _ _ _ H) as [He2 _].
  eapply declares_zeros_trans; [exact He1|exact He2|exact H1|].
  eapply GetDefiningInstruction_declares; [|exact H].
  simpl. rewrite Hlen, Nat.eqb_refl. simpl. apply Hlit.
  rewrite forallb_forall in Ef. apply Forall_forall. intros id Hid.
  specialize (Ef _ Hid). destruct (FindDeclaredConstant ca id); congruence.
Qed.

Lemma synthesize_declares k c ty z c1 :
  wf_context c = true ->
  synthesize k c ty = (z, c1) -> declares_zeros c c1 = true.
Proof.
  destruct k; simpl; intros Hw H.
  - eapply GetOrCreateConstantZero_declares; eassumption.
  - eapply GetOrCreateConstantZeroVector_declares; eassumption.
Qed.

Lemma visit_declares st i :
  wf_context (ctx st) = true ->
  match visit st i with
  | Continue => True
  | ReturnFailure st' => declares_zeros (ctx st) (ctx st') = true
  | Rewritten st' _ _ => declares_zeros (ctx st) (ctx st') = true
  end.
Proof.
  intros Hw. pose proof (visit_cases st i) as H.
  destruct (visit st i) as [|st'|st' sh ba]; [exact I| |].
  - destruct H as (k & z & c1 & _ & Hs & Hf).
    pose proof (synthesize_declares _ _ _ _ _ Hw Hs) as Hd.
    pose proof (synthesize_grows _ _ _ _ _ Hs) as [He _].
    destruct Hf as [[_ ->]|[_ (c2 & Ht & ->)]]; simpl.
    + eapply declares_zeros_trans;
        [exact He|apply grows_consumer|exact Hd|apply declares_zeros_consumer].
    + pose proof (TakeNextId_grows _ _ _ Ht) as [He2 _].
      eapply declares_zeros_trans;
        [eapply extends_trans; eassumption|apply grows_consumer| |
         apply declares_zeros_consumer].
      eapply declares_zeros_trans;
        [exact He|exact He2|exact Hd|apply (TakeNextId_declares _ _ _ Ht)].
  - destruct H as (k & z & c1 & t & _ & Hs & _ & Ht & _).
    pose proof (synthesize_declares _ _ _ _ _ Hw Hs) as Hd.
    pose proof (synthesize_grows _ _ _ _ _ Hs) as [He _].
    pose proof (TakeNextId_grows _ _ _ Ht) as [He2 _].
    eapply declares_zeros_trans;
      [exact He|exact He2|exact Hd|apply (TakeNextId_declares _ _ _ Ht)].
Qed.

Lemma scan_block_declares : forall l st f l',
  scan_block st l = (f, l') ->
  wf_context (ctx st) = true ->
  declares_zeros (ctx st) (ctx (flow_state f)) = true.
Proof.
  induction l as [|i l IH]; intros st f l' H Hw.
  - rewrite scan_block_nil in H. inversion H; subst. apply declares_zeros_refl.
  - rewrite scan_block_cons in H. pose proof (visit_declares st i Hw) as Hv.
    pose proof (visit_grows st i) as Hg.
    destruct (visit st i) as [|st'|st' sh ba].
    + destruct (scan_block st l) as [f0 l0] eqn:E. inversion H; subst f l'.
      apply (IH _ _ _ E Hw).
    + inversion H; subst. exact Hv.
    + destruct (scan_block st' l) as [f0 l0] eqn:E. inversion H; subst f l'.
      destruct Hg as [He Hw']. simpl.
      destruct (scan_block_rel _ _ _ _ E) as ([He0 _] & _).
      eapply declares_zeros_trans; [exact He|exact He0|exact Hv|].
      apply (IH _ _ _ E (Hw' Hw)).
Qed.

(** X5: whatever [Process] returns, in a run from a well-formed context
    the two tables of the returned context are those it was given,
    unchanged, followed by what the run declared; every type it declared is
    a 32-bit integer type, and every constant it declared is a zero: the
    literal 0 of a 32-bit integer type, or a composite of an integer vector
    type with one component per element, each the id of such a literal of
    the element's signedness.  The returned context is well-formed. *)
Theorem X5_declares_only_zeros c m s c' m' :
  wf_context c = true ->
  Process c m = (s, c', m') ->
  exists ts ks,
    id_to_type c' = id_to_type c ++ ts
    /\ id_to_constant c' = id_to_constant c ++ ks
    /\ forallb (fun p => int32_type (snd p)) ts = true
    /\ forallb (fun p => zero_constant c' (snd p)) ks = true
    /\ wf_context c' = true.
Proof.
  intros Hw HP. destruct (Process_grows _ _ _ _ _ HP) as [He Hw'].
  assert (Hd : declares_zeros c c' = true).
  { unfold Process in HP.
    destruct (scan_functions (initial_state c) m) as [f m0] eqn:Hs.
    destruct (scan_functions_rel _ _ _ _ Hs) as ([He0 _] & _). simpl in He0.
    apply scan_functions_as_stream in Hs.
    pose proof (scan_block_declares _ _ _ _ Hs Hw) as Hd. simpl in Hd.
    destruct f as [st|st].
    - destruct (modified st); inversion HP; subst; [|exact Hd].
      eapply declares_zeros_trans;
        [exact He0|apply grows_consumer|exact Hd
        |apply declares_zeros_consumer].
    - inversion HP; subst. exact Hd. }
  destruct He as [_ _ _ (ts & Et & _) (ks & Ek & _) _].
  unfold declares_zeros in Hd.
  rewrite (new_types_app _ _ _ Et), (new_constants_app _ _ _ Ek) in Hd.
  apply andb_true_iff in Hd. destruct Hd as [Hd1 Hd2].
  exists ts, ks. split; [exact Et|]. split; [exact Ek|].
  split; [exact Hd1|]. split; [exact Hd2|]. exact (Hw' Hw).
Qed.

Lemma X5_witness :
  let c' := snd (fst (Process (sample_context 22)
                        (one_block [scalar_shift; vector_shift]))) in
  wf_context (sample_context 22) = true
  /\ exists ts ks,
      id_to_type c' = id_to_type (sample_context 22) ++ ts
      /\ id_to_constant c' = id_to_constant (sample_context 22) ++ ks
      /\ forallb (fun p => int32_type (snd p)) ts = true
      /\ forallb (fun p => zero_constant c' (snd p)) ks = true
      /\ wf_context c' = true.
Proof.
  intros c'. split; [reflexivity|].
  apply (X5_declares_only_zeros (sample_context 22)
           (one_block [scalar_shift; vector_shift]) Failure c'
           (snd (Process (sample_context 22)
                   (one_block [scalar_shift; vector_shift]))));
    reflexivity.
Defined.

(** ** Enough identifiers *)

Lemma TakeNextId_room c :
  id_bound c < max_id_bound c ->
  TakeNextId c = (id_bound c, set_id_bound c (id_bound c + 1)).
Proof.
  intros H. destruct (TakeNextId_cases c) as [[Hm E]|[Hm E]]; [lia|exact E].
Qed.

Lemma GetTypeInstruction_room c t id c1 :
  wf_context c = true -> id_bound c < max_id_bound c ->
  GetTypeInstruction c t = (id, c1) ->
  id <> 0 /\ id_bound c1 <= id_bound c + 1.
Proof.
  intros Hw Hr. destruct (wf_context_inv _ Hw) as (Hp & Ht & _).
  unfold GetTypeInstruction.
  destruct (find_id Type_eqb t (id_to_type c)) as [i|] eqn:E.
  - intros H; inversion H; subst.
    pose proof (wf_table_below _ _ _ Ht (find_id_In _ Type_eqb_eq _ _ _ E))
      as Hi.
    simpl in Hi. lia.
  - rewrite (TakeNextId_room _ Hr).
    destruct (id_bound c =? 0) eqn:E0; [lia|].
    intros H; inversion H; subst. simpl. lia.
Qed.

Lemma GetDefiningInstruction_room c k id c1 :
  wf_context c = true -> id_bound c < max_id_bound c ->
  GetDefiningInstruction c k = (id, c1) ->
  id <> 0 /\ id_bound c1 <= id_bound c + 1.
Proof.
  intros Hw Hr. destruct (wf_context_inv _ Hw) as (Hp & _ & Hk).
  unfold GetDefiningInstruction.
  destruct (find_id Constant_eqb k (id_to_constant c)) as [i|] eqn:E.
  - intros H; inversion H; subst.
    pose proof (wf_table_below _ _ _ Hk
                  (find_id_In _ Constant_eqb_eq _ _ _ E)) as Hi.
    simpl in Hi. lia.
  - rewrite (TakeNextId_room _ Hr).
    destruct (id_bound c =? 0) eqn:E0; [lia|].
    intros H; inversion H; subst. simpl. lia.
Qed.

Lemma GetIntConstId_room s c v z c1 :
  wf_context c = true -> id_bound c + 2 <= max_id_bound c ->
  GetIntConstId s c v = (z, c1) ->
  z <> 0 /\ id_bound c1 <= id_bound c + 2.
Proof.
  intros Hw Hr. unfold GetIntConstId.
  destruct (GetTypeInstruction c (Integer 32 s)) as [tid c0] eqn:E.
  destruct (GetTypeInstruction_room _ _ _ _ Hw ltac:(lia) E) as [Hz Hb].
  destruct (GetTypeInstruction_grows _ _ _ _ E) as [He Hw0].
  destruct (tid =? 0) eqn:E0; [lia|]. intros H.
  assert (Hm : max_id_bound c0 = max_id_bound c) by now destruct He.
  destruct (GetDefiningInstruction_room _ _ _ _ (Hw0 Hw) ltac:(lia) H). lia.
Qed.

Lemma supported_scalar c ty :
  unsupported_type true c ty = false ->
  exists w s, GetType c ty = Some (Integer w s).
Proof.
  unfold unsupported_type. destruct (GetType c ty) as [T|]; [|discriminate].
  destruct T; simpl; try discriminate. eauto.
Qed.

Lemma supported_vector c ty :
  unsupported_type false c ty = false ->
  exists w s n, GetType c ty = Some (Vector (Integer w s) n).
Proof.
  unfold unsupported_type. destruct (GetType c ty) as [T|]; [|discriminate].
  destruct T as [| | | |e n]; simpl; try discriminate.
  destruct e; simpl; try discriminate. eauto.
Qed.

Lemma GetOrCreateConstantZero_room c ty z c1 :
  wf_context c = true -> id_bound c + 2 <= max_id_bound c ->
  unsupported_type true c ty = false ->
  GetOrCreateConstantZero c ty = (z, c1) ->
  z <> 0 /\ id_bound c1 <= id_bound c + 2.
Proof.
  intros Hw Hr Hs. destruct (supported_scalar _ _ Hs) as (w & s & ET).
  unfold GetOrCreateConstantZero. rewrite ET. simpl.
  destruct s; apply GetIntConstId_room; assumption.
Qed.

Lemma GetOrCreateConstantZeroVector_room c ty z c1 :
  wf_context c = true -> id_bound c + 3 <= max_id_bound c ->
  unsupported_type false c ty = false ->
  GetOrCreateConstantZeroVector c ty = (z, c1) ->
  z <> 0 /\ id_bound c1 <= id_bound c + 3.
Proof.
  intros Hw Hr Hs. destruct (supported_vector _ _ Hs) as (w & s & n & ET).
  pose proof (wf_positive _ Hw) as Hp.
  unfold GetOrCreateConstantZeroVector. rewrite ET. simpl.
  destruct (zero_components s (Z.to_nat n) c []) as [ids ca] eqn:E1.
  assert (H1 : grows c ca /\ id_bound ca <= id_bound c + 2
               /\ Forall (fun id => FindDeclaredConstant ca id <> None) ids).
  { destruct (Z.to_nat n) as [|k] eqn:En.
    - simpl in E1. inversion E1; subst. split; [apply grows_refl|].
      split; [lia|constructor].
    - destruct (GetIntConstId s c 0) as [zs cz] eqn:Ez.
      rewrite (zero_components_repeat _ _ _ _ Hp Ez) in E1.
      inversion E1; subst.
      pose proof (GetIntConstId_grows _ _ _ _ _ Ez) as Hg.
      destruct (GetIntConstId_room _ _ _ _ _ Hw ltac:(lia) Ez) as [Hz Hb].
      split; [assumption|]. split; [assumption|].
      destruct (GetIntConstId_registered _ _ _ _ _ Ez Hz) as [Hin _].
      destruct Hg as [_ Hw1].
      apply Forall_forall. intros id Hid.
      change (zs :: repeat zs k) with (repeat zs (S k)) in Hid.
      apply repeat_spec in Hid. subst id.
      rewrite (wf_FindDeclaredConstant _ _ _ (Hw1 Hw) Hin). discriminate. }
  destruct H1 as ([He Hwa] & Hb & Hall). specialize (Hwa Hw).
  assert (ETa : GetType ca ty = Some (Vector (Integer w s) n))
    by (eapply GetType_extends; eassumption).
  destruct (GetTypeInstruction ca (Vector (Integer w s) n)) as [vid cb] eqn:E2.
  destruct (GetTypeInstruction_found _ _ _ _ _ ETa E2) as [-> Hin].
  destruct (wf_context_inv _ Hwa) as (_ & Hta & _).
  pose proof (wf_table_below _ _ _ Hta Hin) as Hv. simpl in Hv.
  destruct (vid =? 0) eqn:E0; [lia|].
  rewrite (wf_GetType _ _ _ Hwa Hin).
  unfold GetConstant.
  assert (Hf : forallb (fun id => match FindDeclaredConstant ca id with
                                  | Some _ => true
                                  | None => false
                                  end) ids = true).
  { apply forallb_forall. intros id Hid. rewrite Forall_forall in Hall.
    specialize (Hall _ Hid). destruct (FindDeclaredConstant ca id); congruence. }
  rewrite Hf. intros H.
  assert (Hm : max_id_bound ca = max_id_bound c) by now destruct He.
  destruct (GetDefiningInstruction_room _ _ _ _ Hwa ltac:(lia) H). lia.
Qed.

Lemma synthesize_room (k : bool) c ty z c1 :
  wf_context c = true ->
  id_bound c + (if k then 2 else 3) <= max_id_bound c ->
  unsupported_type k c ty = false ->
  synthesize k c ty = (z, c1) ->
  z <> 0 /\ id_bound c1 <= id_bound c + (if k then 2 else 3).
Proof.
  destruct k; simpl; intros Hw Hr Hs H.
  - eapply GetOrCreateConstantZero_room; eassumption.
  - eapply GetOrCreateConstantZeroVector_room; eassumption.
Qed.

(** X6: in a well-formed context with two free identifiers for the scalar
    path, three for the vector path, the synthesizer answers a valid id
    exactly when the result type resolves to a type that its path supports
    (an integer type; a vector of integers); and it takes at most those
    two or three identifiers, however many components the vector has. *)
Theorem X6_synthesis_with_room (k : bool) c ty z c1 :
  wf_context c = true ->
  id_bound c + (if k then 2 else 3) <= max_id_bound c ->
  synthesize k c ty = (z, c1) ->
  (z <> 0 <-> unsupported_type k c ty = false)
  /\ id_bound c <= id_bound c1 <= id_bound c + (if k then 2 else 3).
Proof.
  intros Hw Hr H.
  destruct (synthesize_grows _ _ _ _ _ H) as [[Hb _ _ _ _ _] _].
  destruct (unsupported_type k c ty) eqn:Hu.
  - rewrite (synthesize_unsupported _ _ _ Hu) in H. inversion H; subst.
    split; [|destruct k; lia]. split; [congruence|discriminate].
  - destruct (synthesize_room _ _ _ _ _ Hw Hr Hu H) as [Hz Hb'].
    split; [tauto|lia].
Qed.

Lemma X6_witness :
  let c1 := snd (synthesize false (sample_context 23) 2) in
  wf_context (sample_context 23) = true
  /\ id_bound (sample_context 23) + 3 <= max_id_bound (sample_context 23)
  /\ (20 <> 0 <-> unsupported_type false (sample_context 23) 2 = false)
  /\ id_bound (sample_context 23) <= id_bound c1
     <= id_bound (sample_context 23) + 3.
Proof.
  intros c1. split; [reflexivity|]. split; [simpl; lia|].
  apply (X6_synthesis_with_room false (sample_context 23) 2 20 c1);
    [reflexivity|simpl; lia|reflexivity].
Defined.

Lemma unsupported_type_extends k c c' ty :
  extends c c' ->
  unsupported_type k c ty = false -> unsupported_type k c' ty = false.
Proof.
  intros He. unfold unsupported_type.
  destruct (GetType c ty) as [T|] eqn:ET; [|discriminate].
  now rewrite (GetType_extends _ _ _ _ He ET).
Qed.

Lemma count_class_cons c k i l :
  count_class c k (i :: l)
  = ((match classify c i with
      | Some k' => if Bool.eqb k k' then 1 else 0
      | None => 0
      end) + count_class c k l)%nat.
Proof.
  unfold count_class. simpl. destruct (classify c i) as [k'|]; [|reflexivity].
  destruct (Bool.eqb k k'); reflexivity.
Qed.

(** With a supported result type and three identifiers free (four for a
    vector), the visit of a matched shift rewrites it. *)
Lemma visit_room st i (k : bool) :
  wf_context (ctx st) = true ->
  classify (ctx st) i = Some k ->
  unsupported_type k (ctx st) (type_id i) = false ->
  id_bound (ctx st) + (if k then 3 else 4) <= max_id_bound (ctx st) ->
  exists st' shift barrier,
    visit st i = Rewritten st' shift barrier
    /\ id_bound (ctx st') <= id_bound (ctx st) + (if k then 3 else 4).
Proof.
  intros Hw Hc Hs Hr. pose proof (visit_cases st i) as H.
  assert (Hr' : id_bound (ctx st) + (if k then 2 else 3)
                <= max_id_bound (ctx st)) by (destruct k; lia).
  assert (Hroom : forall z c1,
             synthesize k (ctx st) (type_id i) = (z, c1) ->
             z <> 0 /\ id_bound c1 < max_id_bound c1
             /\ id_bound c1 + 1 <= id_bound (ctx st) + (if k then 3 else 4)).
  { intros z c1 Hsy.
    destruct (synthesize_room _ _ _ _ _ Hw Hr' Hs Hsy) as [Hz Hb].
    destruct (synthesize_grows _ _ _ _ _ Hsy) as [[_ Hm _ _ _ _] _].
    split; [assumption|]. destruct k; lia. }
  destruct (visit st i) as [|st'|st' shift barrier].
  - congruence.
  - exfalso. destruct H as (k' & z & c1 & Hc' & Hsy & Hf).
    rewrite Hc in Hc'. inversion Hc'; subst k'.
    destruct (Hroom _ _ Hsy) as (Hz & Hlt & _).
    destruct Hf as [[Hz0 _]|[_ (c2 & Ht & _)]]; [contradiction|].
    rewrite (TakeNextId_room _ Hlt) in Ht. inversion Ht.
    pose proof (wf_positive _ Hw).
    destruct (synthesize_grows _ _ _ _ _ Hsy) as [[Hb' _ _ _ _ _] _]. lia.
  - destruct H as (k' & z & c1 & t & Hc' & Hsy & Hz & Ht & Hnz & _).
    rewrite Hc in Hc'. inversion Hc'; subst k'.
    destruct (Hroom _ _ Hsy) as (_ & Hlt & Hb).
    rewrite (TakeNextId_room _ Hlt) in Ht.
    inversion Ht as [[Et Ec]]. exists st', shift, barrier.
    split; [reflexivity|]. rewrite <- Ec. simpl. exact Hb.
Qed.

Lemma scan_block_progress c : forall l st,
  wf_context (ctx st) = true ->
  extends c (ctx st) ->
  operands_below c l = true ->
  supported_results c l = true ->
  id_bound (ctx st) + ids_needed c l <= max_id_bound c ->
  exists st' l',
    scan_block st l = (Next st', l')
    /\ id_bound (ctx st') <= id_bound (ctx st) + ids_needed c l.
Proof.
  induction l as [|i l IH]; intros st Hw He Hop Hsup Hr.
  - exists st, []. rewrite scan_block_nil. split; [reflexivity|].
    unfold ids_needed, count_class. simpl. lia.
  - simpl in Hop, Hsup. apply andb_true_iff in Hop, Hsup.
    destruct Hop as [Hi Hop], Hsup as [Hsi Hsup].
    assert (Hcl : classify (ctx st) i = classify c i).
    { apply classify_below; [assumption|]. intros Hsh. rewrite Hsh in Hi.
      simpl in Hi. now apply Z.ltb_lt. }
    unfold ids_needed in Hr |- *. rewrite !count_class_cons in Hr |- *.
    unfold ids_needed in IH.
    rewrite scan_block_cons.
    destruct (classify c i) as [k|] eqn:Hc.
    + assert (Hm : max_id_bound (ctx st) = max_id_bound c) by now destruct He.
      apply negb_true_iff in Hsi.
      pose proof (unsupported_type_extends _ _ _ _ He Hsi) as Hsi'.
      destruct (visit_room st i k Hw Hcl Hsi') as (st' & sh & ba & Hv & Hb).
      { rewrite Hm. destruct k; cbn [Bool.eqb] in Hr; lia. }
      rewrite Hv. pose proof (visit_grows st i) as Hg. rewrite Hv in Hg.
      destruct Hg as [He' Hw'].
      destruct (IH st' (Hw' Hw) (extends_trans _ _ _ He He') Hop Hsup)
        as (st2 & l2 & Hs2 & Hb2).
      { destruct k; cbn [Bool.eqb] in Hr; lia. }
      rewrite Hs2. exists st2, (sh :: ba :: l2). split; [reflexivity|].
      destruct k; cbn [Bool.eqb]; lia.
    + rewrite (visit_Continue _ _ Hcl).
      destruct (IH st Hw He Hop Hsup) as (st2 & l2 & Hs2 & Hb2); [lia|].
      rewrite Hs2. exists st2, (i :: l2). split; [reflexivity|]. lia.
Qed.

(** X7: [Process] does not fail for lack of anything else than result types
    and identifiers.  In a well-formed context, for a module whose shift
    amounts are ids below the bound, if the result type of every matched
    shift is one that the synthesizer of its path supports and there are
    three free identifiers for every shift matched as scalar and four for
    every shift matched as vector, [Process] does not return the failed
    outcome, and it allocates no more identifiers than that. *)
Theorem X7_succeeds_with_room c m :
  wf_context c = true ->
  operands_below c (stream m) = true ->
  supported_results c (stream m) = true ->
  id_bound c + ids_needed c (stream m) <= max_id_bound c ->
  fst (fst (Process c m)) <> Failure
  /\ id_bound (snd (fst (Process c m)))
     <= id_bound c + ids_needed c (stream m).
Proof.
  intros Hw Hop Hsup Hr.
  destruct (scan_block_progress c (stream m) (initial_state c) Hw
              (extends_refl _) Hop Hsup Hr) as (st' & l' & Hs & Hb).
  rewrite scan_functions_stream in Hs. unfold Process.
  destruct (scan_functions (initial_state c) m) as [f m']. simpl in Hs.
  inversion Hs; subst. simpl in Hb.
  destruct (modified st'); simpl; split; try discriminate; assumption.
Qed.

Lemma X7_witness :
  wf_context (sample_context 27) = true
  /\ operands_below (sample_context 27) (stream sample_module) = true
  /\ supported_results (sample_context 27) (stream sample_module) = true
  /\ id_bound (sample_context 27) + ids_needed (sample_context 27)
                                      (stream sample_module)
     <= max_id_bound (sample_context 27)
  /\ fst (fst (Process (sample_context 27) sample_module)) <> Failure
  /\ id_bound (snd (fst (Process (sample_context 27) sample_module)))
     <= id_bound (sample_context 27)
        + ids_needed (sample_context 27) (stream sample_module).
Proof.
  split; [reflexivity|]. split; [reflexivity|]. split; [reflexivity|].
  split; [vm_compute; discriminate|].
  apply (X7_succeeds_with_room (sample_context 27) sample_module);
    [reflexivity|reflexivity|reflexivity|vm_compute; discriminate].
Defined.

(** ** Blocks and functions do not matter *)



(** ** What is matched stays matched *)

Lemma Touched_matching c c' l l' :
  extends c c' ->
  operands_below c l = true ->
  Touched c c' l l' ->
  operands_below c' l' = true
  /\ forall k, count_class c' k l' = count_class c k l.
Proof.
  intros He Hop Ht. pose proof He as [Hb _ _ _ _ _].
  induction Ht as [|i l l' _ _ IH|i t z l l' _ _ _ IH].
  - split; [reflexivity|]. reflexivity.
  - simpl in Hop. apply andb_true_iff in Hop. destruct Hop as [Hi Hop].
    destruct (IH Hop) as [IH1 IH2]. split.
    + simpl. rewrite IH1, andb_true_r.
      destruct (is_shift i); [|reflexivity]. simpl in *.
      apply Z.ltb_lt in Hi. apply Z.ltb_lt. lia.
    + intros k. rewrite !count_class_cons, IH2.
      rewrite (classify_below _ _ _ He); [reflexivity|].
      intros Hs. rewrite Hs in Hi. simpl in Hi. now apply Z.ltb_lt.
  - simpl in Hop. apply andb_true_iff in Hop. destruct Hop as [Hi Hop].
    destruct (IH Hop) as [IH1 IH2]. split.
    + cbn [operands_below forallb].
      change (is_shift (SetResultId i t)) with (is_shift i).
      change (forallb _ l') with (operands_below c' l'). rewrite IH1.
      change (is_shift (noop_barrier_inst (type_id i) (result_id i) t z))
        with false.
      change (GetSingleWordInOperand (SetResultId i t) 1)
        with (GetSingleWordInOperand i 1).
      simpl. rewrite andb_true_r.
      destruct (is_shift i); [|reflexivity]. simpl in *.
      apply Z.ltb_lt in Hi. apply Z.ltb_lt. lia.
    + intros k. rewrite !count_class_cons, IH2.
      rewrite classify_barrier, classify_SetResultId.
      rewrite (classify_below _ _ _ He); [reflexivity|].
      intros Hs. rewrite Hs in Hi. simpl in Hi. now apply Z.ltb_lt.
Qed.

(** X9: for a module whose shift amounts are ids below the bound, whatever
    [Process] returns, the returned context matches in the returned module
    as many shifts as scalar, and as many as vector, as the context did in
    the module before: the renamed shifts are matched as they were, no
    barrier is matched, and no other instruction has become a match or
    ceased to be one.  The shift amounts of the returned module are again
    ids below the bound, so this holds run after run. *)
Theorem X9_matching_is_kept c m s c' m' :
  operands_below c (stream m) = true ->
  Process c m = (s, c', m') ->
  operands_below c' (stream m') = true
  /\ forall k, count_class c' k (stream m') = count_class c k (stream m).
Proof.
  intros Hop HP. apply Touched_matching; [|assumption|].
  - apply (Process_grows _ _ _ _ _ HP).
  - eapply Process_Touched_stream; eassumption.
Qed.

Lemma X9_witness :
  let r := Process (sample_context 100) sample_module in
  operands_below (sample_context 100) (stream sample_module) = true
  /\ operands_below (snd (fst r)) (stream (snd r)) = true
  /\ forall k, count_class (snd (fst r)) k (stream (snd r))
               = count_class (sample_context 100) k (stream sample_module).
Proof.
  intros r. split; [reflexivity|].
  apply (X9_matching_is_kept (sample_context 100) sample_module
           SuccessWithChange); reflexivity.
Defined.

(** ** The zero that a barrier inserts *)

Lemma Zeroed_refl c l : Zeroed c l l.
Proof. induction l; constructor; assumption. Qed.

Lemma scan_block_Zeroed c' : forall l st f l',
  scan_block st l = (f, l') ->
  wf_context (ctx st) = true ->
  extends (ctx (flow_state f)) c' ->
  Zeroed c' l l'.
Proof.
  induction l as [|i l IH]; intros st f l' H Hw He.
  - rewrite scan_block_nil in H. inversion H; subst. constructor.
  - rewrite scan_block_cons in H. pose proof (visit_cases st i) as Hv.
    pose proof (visit_grows st i) as Hg.
    destruct (visit st i) as [|st'|st' shift barrier].
    + destruct (scan_block st l) as [f0 l0] eqn:E. inversion H; subst f l'.
      constructor. apply (IH _ _ _ E Hw He).
    + inversion H; subst. apply Zeroed_refl.
    + destruct Hv as (k & z & c1 & t & _ & Hs & Hz & Ht & _ & -> & -> & _).
      destruct Hg as [_ Hw'].
      destruct (scan_block st' l) as [f0 l0] eqn:E. inversion H; subst f l'.
      simpl in He.
      destruct (scan_block_rel _ _ _ _ E) as ([He0 _] & _).
      pose proof (TakeNextId_grows _ _ _ Ht) as [He1 _].
      assert (He' : extends c1 c').
      { eapply extends_trans; [exact He1|].
        eapply extends_trans; [exact He0|exact He]. }
      destruct (synthesize_denotes _ _ _ _ _ Hw Hs Hz)
        as (T & kz & ca & ET & HD & _).
      destruct (synthesize_grows _ _ _ _ _ Hs) as [Hec _].
      simpl. apply Zeroed_guard with (T := T).
      * eapply GetType_extends; [|exact ET].
        eapply extends_trans; [exact Hec|exact He'].
      * eapply denotes_zero_extends; [exact He'|exact HD].
      * apply (IH _ _ _ E (Hw' Hw) He).
Qed.

(** X14: whatever [Process] returns, in a run from a well-formed context
    every barrier that it inserted has one and the same id as its insert,
    offset and count operand, and the returned context declares that id as
    a zero for the result type of the barrier's shift: the 32-bit literal 0
    of the type's signedness when the type is an integer, and a composite
    of exactly that type with one such literal per component when it is a
    vector of integers. *)
Theorem X14_barriers_insert_declared_zeros c m s c' m' :
  wf_context c = true ->
  Process c m = (s, c', m') ->
  Zeroed c' (stream m) (stream m').
Proof.
  intros Hw HP. destruct (Process_scan _ _ _ _ _ HP) as (f & Hs & He).
  apply scan_functions_as_stream in Hs.
  apply (scan_block_Zeroed c' _ _ _ _ Hs Hw He).
Qed.

Lemma X14_witness :
  wf_context (sample_context 100) = true
  /\ Zeroed (snd (fst (Process (sample_context 100) sample_module)))
       (stream sample_module)
       (stream (snd (Process (sample_context 100) sample_module))).
Proof.
  split; [reflexivity|].
  apply (X14_barriers_insert_declared_zeros (sample_context 100) sample_module
           SuccessWithChange); reflexivity.
Defined.

(** ** A failed run fails again *)

Lemma exhausted_extends c c' :
  extends c c' -> max_id_bound c <= id_bound c ->
  max_id_bound c' <= id_bound c'.
Proof. intros [Hb Hm _ _ _ _] H. lia. Qed.

Lemma TakeNextId_exhausted c :
  max_id_bound c <= id_bound c -> TakeNextId c = (0, c).
Proof.
  intros H. destruct (TakeNextId_cases c) as [[_ E]|[Hm _]]; [exact E|lia].
Qed.

Lemma TakeNextId_zero c c1 :
  0 < id_bound c -> TakeNextId c = (0, c1) ->
  c1 = c /\ max_id_bound c <= id_bound c.
Proof.
  intros Hp H. destruct (TakeNextId_cases c) as [[Hm E]|[Hm E]];
    rewrite E in H; inversion H; subst; [auto|lia].
Qed.

Lemma GetTypeInstruction_zero c t c1 :
  wf_context c = true -> GetTypeInstruction c t = (0, c1) ->
  max_id_bound c1 <= id_bound c1.
Proof.
  intros Hw. destruct (wf_context_inv _ Hw) as (Hp & Ht & _).
  unfold GetTypeInstruction.
  destruct (find_id Type_eqb t (id_to_type c)) as [i|] eqn:E.
  - intros H; inversion H; subst.
    pose proof (wf_table_below _ _ _ Ht (find_id_In _ Type_eqb_eq _ _ _ E))
      as Hi.
    simpl in Hi. lia.
  - destruct (TakeNextId c) as [n c0] eqn:En.
    destruct (n =? 0) eqn:E0.
    + apply Z.eqb_eq in E0. subst n. intros H; inversion H; subst.
      destruct (TakeNextId_zero _ _ Hp En) as [-> Hm]. exact Hm.
    + apply Z.eqb_neq in E0. intros H; inversion H; subst. contradiction.
Qed.

Lemma GetDefiningInstruction_zero c k c1 :
  wf_context c = true -> GetDefiningInstruction c k = (0, c1) ->
  max_id_bound c1 <= id_bound c1.
Proof.
  intros Hw. destruct (wf_context_inv _ Hw) as (Hp & _ & Hk).
  unfold GetDefiningInstruction.
  destruct (find_id Constant_eqb k (id_to_constant c)) as [i|] eqn:E.
  - intros H; inversion H; subst.
    pose proof (wf_table_below _ _ _ Hk
                  (find_id_In _ Constant_eqb_eq _ _ _ E)) as Hi.
    simpl in Hi. lia.
  - destruct (TakeNextId c) as [n c0] eqn:En.
    destruct (n =? 0) eqn:E0.
    + apply Z.eqb_eq in E0. subst n. intros H; inversion H; subst.
      destruct (TakeNextId_zero _ _ Hp En) as [-> Hm]. exact Hm.
    + apply Z.eqb_neq in E0. intros H; inversion H; subst. contradiction.
Qed.

Lemma GetIntConstId_zero s c v c1 :
  wf_context c = true -> GetIntConstId s c v = (0, c1) ->
  max_id_bound c1 <= id_bound c1.
Proof.
  intros Hw. unfold GetIntConstId.
  destruct (GetTypeInstruction c (Integer 32 s)) as [tid c0] eqn:E.
  destruct (GetTypeInstruction_grows _ _ _ _ E) as [_ Hw0].
  destruct (tid =? 0) eqn:E0.
  - apply Z.eqb_eq in E0. subst tid. intros H; inversion H; subst.
    eapply GetTypeInstruction_zero; eassumption.
  - apply GetDefiningInstruction_zero. auto.
Qed.

Lemma synthesize_zero k c ty c1 :
  wf_context c = true ->
  unsupported_type k c ty = false ->
  synthesize k c ty = (0, c1) ->
  max_id_bound c1 <= id_bound c1.
Proof.
  intros Hw Hs. destruct k; simpl.
  - destruct (supported_scalar _ _ Hs) as (w & s & ET).
    unfold GetOrCreateConstantZero. rewrite ET. simpl.
    destruct s; apply GetIntConstId_zero; assumption.
  - destruct (supported_vector _ _ Hs) as (w & s & n & ET).
    pose proof (wf_positive _ Hw) as Hp.
    unfold GetOrCreateConstantZeroVector. rewrite ET. simpl.
    destruct (zero_components s (Z.to_nat n) c []) as [ids ca] eqn:E1.
    destruct (zero_components_grows _ _ _ _ _ _ E1) as [He1 Hw1].
    specialize (Hw1 Hw).
    destruct (GetTypeInstruction ca (Vector (Integer w s) n)) as [vid cb] eqn:E2.
    destruct (GetTypeInstruction_found _ ty _ _ _
                (GetType_extends _ _ _ _ He1 ET) E2) as [-> Hin].
    destruct (wf_context_inv _ Hw1) as (_ & Hta & _).
    pose proof (wf_table_below _ _ _ Hta Hin) as Hv. simpl in Hv.
    destruct (vid =? 0) eqn:E0; [lia|].
    rewrite (wf_GetType _ _ _ Hw1 Hin). unfold GetConstant.
    destruct (forallb (fun id => match FindDeclaredConstant ca id with
                                 | Some _ => true
                                 | None => false
                                 end) ids) eqn:Ef.
    + apply GetDefiningInstruction_zero. assumption.
    + intros H. inversion H; subst c1.
      destruct (Z.to_nat n) as [|j] eqn:En.
      * simpl in E1. inversion E1; subst. simpl in Ef. discriminate Ef.
      * destruct (GetIntConstId s c 0) as [zs cz] eqn:Ez.
        rewrite (zero_components_repeat _ _ _ _ Hp Ez) in E1.
        inversion E1; subst ids cz.
        destruct (Z.eq_dec zs 0) as [->|Hz].
        -- apply (GetIntConstId_zero _ _ _ _ Hw Ez).
        -- exfalso.
           destruct (GetIntConstId_registered _ _ _ _ _ Ez Hz) as [Hinz _].
           pose proof (wf_FindDeclaredConstant _ _ _ Hw1 Hinz) as Hf.
           assert (Ht : forallb (fun id => match FindDeclaredConstant ca id with
                                           | Some _ => true
                                           | None => false
                                           end) ([] ++ repeat zs (S j)) = true).
           { apply forallb_forall. intros id Hid.
             change ([] ++ repeat zs (S j)) with (repeat zs (S j)) in Hid.
             apply repeat_spec in Hid. subst id. now rewrite Hf. }
           congruence.
Qed.

Lemma visit_exhausted st i k :
  max_id_bound (ctx st) <= id_bound (ctx st) ->
  classify (ctx st) i = Some k ->
  exists st', visit st i = ReturnFailure st'.
Proof.
  intros Hex Hc. apply visit_ReturnFailure_iff.
  destruct (synthesize k (ctx st) (type_id i)) as [z c1] eqn:Hs.
  exists k, z, c1. split; [assumption|]. split; [exact Hs|]. right.
  destruct (synthesize_grows _ _ _ _ _ Hs) as [He _].
  now rewrite (TakeNextId_exhausted _ (exhausted_extends _ _ He Hex)).
Qed.

Lemma unsupported_type_kept k c c' ty T :
  extends c c' -> GetType c ty = Some T ->
  unsupported_type k c' ty = unsupported_type k c ty.
Proof.
  intros He ET. unfold unsupported_type.
  now rewrite ET, (GetType_extends _ _ _ _ He ET).
Qed.

(** A visit that failed fails again in every later context. *)
Lemma visit_fails_again st1 i st' st2 T :
  wf_context (ctx st1) = true ->
  GetType (ctx st1) (type_id i) = Some T ->
  visit st1 i = ReturnFailure st' ->
  extends (ctx st') (ctx st2) ->
  exists st3, visit st2 i = ReturnFailure st3.
Proof.
  intros Hw ET Hv He. pose proof (visit_cases st1 i) as H. rewrite Hv in H.
  destruct H as (k & z & c1 & Hc & Hs & Hf).
  destruct (synthesize_grows _ _ _ _ _ Hs) as [He1 Hw1]. specialize (Hw1 Hw).
  assert (Hc2 : classify (ctx st2) i = Some k).
  { eapply classify_extends; [|exact Hc].
    destruct Hf as [[_ ->]|[_ (c2 & Ht & ->)]]; simpl in He.
    - eapply extends_trans; [exact He1|].
      eapply extends_trans; [apply grows_consumer|exact He].
    - eapply extends_trans; [exact He1|].
      eapply extends_trans; [apply (TakeNextId_grows _ _ _ Ht)|].
      eapply extends_trans; [apply grows_consumer|exact He]. }
  destruct Hf as [[-> ->]|[Hz (c2 & Ht & ->)]]; simpl in He.
  - assert (He2 : extends c1 (ctx st2)).
    { eapply extends_trans; [apply grows_consumer|exact He]. }
    destruct (unsupported_type k (ctx st1) (type_id i)) eqn:Hu.
    + apply visit_ReturnFailure_iff.
      exists k, 0, (ctx st2). split; [assumption|]. split; [|now left].
      apply synthesize_unsupported.
      rewrite (unsupported_type_kept k (ctx st1) (ctx st2) (type_id i) T);
        [exact Hu| |exact ET].
      eapply extends_trans; eassumption.
    + apply (visit_exhausted _ _ k); [|assumption].
      eapply exhausted_extends; [exact He2|].
      apply (synthesize_zero k (ctx st1) (type_id i) c1 Hw Hu Hs).
  - destruct (TakeNextId_zero _ _ (wf_positive _ Hw1) Ht) as [-> Hex].
    apply (visit_exhausted _ _ k); [|assumption].
    eapply exhausted_extends; [|exact Hex].
    eapply extends_trans; [apply grows_consumer|exact He].
Qed.

Lemma typed_shifts_In c l i :
  typed_shifts c l = true -> In i l -> is_shift i = true ->
  exists T, GetType c (type_id i) = Some T.
Proof.
  unfold typed_shifts. rewrite forallb_forall. intros H Hi Hs.
  specialize (H _ Hi). rewrite Hs in H. simpl in H.
  destruct (GetType c (type_id i)); [eauto|discriminate].
Qed.

Lemma Touched_typed_shifts c c' l l' :
  extends c c' -> typed_shifts c l = true -> Touched c c' l l' ->
  typed_shifts c' l' = true.
Proof.
  intros He Hty Ht.
  assert (Hstep : forall i,
             negb (is_shift i)
             || match GetType c (type_id i) with
                | Some _ => true
                | None => false
                end = true ->
             negb (is_shift i)
             || match GetType c' (type_id i) with
                | Some _ => true
                | None => false
                end = true).
  { intros i. destruct (is_shift i); [|reflexivity]. simpl.
    destruct (GetType c (type_id i)) as [T|] eqn:ET; [|discriminate].
    now rewrite (GetType_extends _ _ _ _ He ET). }
  induction Ht as [|i l l' _ _ IH|i t z l l' _ _ _ IH]; [reflexivity| |];
    simpl in Hty; apply andb_true_iff in Hty; destruct Hty as [Hi Hty].
  - simpl. rewrite (Hstep _ Hi). now apply IH.
  - cbn [typed_shifts forallb].
    change (is_shift (SetResultId i t)) with (is_shift i).
    change (type_id (SetResultId i t)) with (type_id i).
    rewrite (Hstep _ Hi).
    change (is_shift (noop_barrier_inst (type_id i) (result_id i) t z))
      with false.
    simpl. now apply IH.
Qed.

(** X15: a failed run is not repaired by running the pass again.  In a
    well-formed context, for a module in which the result type of every
    shift is a declared type, when [Process] returns the failed outcome,
    [Process] on the context and the module that it returned fails again:
    the instruction at which it stopped is still there, still matched, and
    its type is still unsupported or the identifiers are still exhausted.
    The returned context and module satisfy the same two conditions, so
    every further run fails as well. *)
Theorem X15_failure_persists c m c' m' :
  wf_context c = true ->
  typed_shifts c (stream m) = true ->
  Process c m = (Failure, c', m') ->
  fst (fst (Process c' m')) = Failure
  /\ wf_context c' = true
  /\ typed_shifts c' (stream m') = true.
Proof.
  intros Hw Hty HP.
  destruct (Process_grows _ _ _ _ _ HP) as [Hec Hwc].
  split; [|split; [now apply Hwc|]].
  - destruct (Process_Failure_inv _ _ _ _ HP)
      as (pre & i & post & pre' & st1 & st' & Hm & Hp & Hv & Hm' & ->).
    destruct (scan_block_rel _ _ _ _ Hp) as ([He1 Hw1] & _). simpl in He1, Hw1.
    specialize (Hw1 Hw).
    pose proof (visit_cases st1 i) as Hcase. rewrite Hv in Hcase.
    destruct Hcase as (k & _ & _ & Hc & _).
    destruct (typed_shifts_In c (stream m) i Hty) as [T ET].
    { rewrite Hm. apply in_or_app. right. now left. }
    { eapply classify_is_shift; eassumption. }
    pose proof (GetType_extends _ _ _ _ He1 ET) as ET1.
    assert (Hret : exists st3 l3,
               scan_block (initial_state (ctx st')) (stream m')
               = (Return st3, l3)).
    { rewrite Hm', scan_block_app.
      destruct (scan_block (initial_state (ctx st')) pre')
        as [[st2|st2] l2] eqn:E2; [|eauto].
      destruct (scan_block_rel _ _ _ _ E2) as ([He2 _] & _). simpl in He2.
      destruct (visit_fails_again st1 i st' st2 T Hw1 ET1 Hv He2)
        as [st3 Hv3].
      rewrite scan_block_cons, Hv3. simpl. eauto. }
    destruct Hret as (st3 & l3 & Hret).
    rewrite scan_functions_stream in Hret. unfold Process.
    destruct (scan_functions (initial_state (ctx st')) m') as [f o].
    simpl in Hret. inversion Hret; subst. reflexivity.
  - eapply Touched_typed_shifts; [exact Hec|exact Hty|].
    eapply Process_Touched_stream; eassumption.
Qed.

Lemma X15_witness :
  let r := Process (sample_context 20) (one_block [scalar_shift]) in
  wf_context (sample_context 20) = true
  /\ typed_shifts (sample_context 20) (stream (one_block [scalar_shift])) = true
  /\ fst (fst (Process (snd (fst r)) (snd r))) = Failure
  /\ wf_context (snd (fst r)) = true
  /\ typed_shifts (snd (fst r)) (stream (snd r)) = true.
Proof.
  intros r. split; [reflexivity|]. split; [reflexivity|].
  apply (X15_failure_persists (sample_context 20) (one_block [scalar_shift]));
    reflexivity.
Defined.

(** * The earlier revision *)

(** ** Its loop body *)

(** The earlier revision matches what the later one classifies as
    scalar. *)
Lemma Earlier_matches_classify c i :
  Earlier.matches c i
  = match classify c i with
    | Some true => true
    | _ => false
    end.
Proof.
  unfold Earlier.matches, classify.
  destruct (negb (Op_eqb (opcode i) OpShiftLeftLogical)); [reflexivity|].
  destruct (FindDeclaredConstant c (GetSingleWordInOperand i 1)) as [k|];
    [|reflexivity].
  destruct (AsInteger (const_type k)); [reflexivity|].
  destruct (AsVector (const_type k)) as [[e n]|]; [|reflexivity].
  destruct (AsInteger e); reflexivity.
Qed.

Lemma Earlier_visit_cases e i :
  match Earlier.visit e i with
  | Earlier.Continue => classify (Earlier.ctx e) i <> Some true
  | Earlier.ReturnFailure e' =>
      exists z c1,
        classify (Earlier.ctx e) i = Some true
        /\ GetOrCreateConstantZero (Earlier.ctx e) (type_id i) = (z, c1)
        /\ Earlier.modified e' = Earlier.modified e
        /\ ((z = 0 /\ Earlier.ctx e' = c1
             /\ Earlier.sent e'
                = Earlier.sent e
                  ++ [(SPV_MSG_ERROR, Earlier.FailedConstantZero)])
            \/ (z <> 0
                /\ TakeNextId c1 = (0, Earlier.ctx e')
                /\ Earlier.sent e'
                   = Earlier.sent e
                     ++ [(SPV_MSG_ERROR, Earlier.FailedTempResultId i)]))
  | Earlier.Rewritten e' shift barrier =>
      exists z c1 t,
        classify (Earlier.ctx e) i = Some true
        /\ GetOrCreateConstantZero (Earlier.ctx e) (type_id i) = (z, c1)
        /\ z <> 0
        /\ TakeNextId c1 = (t, Earlier.ctx e')
        /\ t <> 0
        /\ shift = SetResultId i t
        /\ barrier = noop_barrier_inst (type_id i) (result_id i) t z
        /\ Earlier.modified e' = true
        /\ Earlier.sent e' = Earlier.sent e
  end.
Proof.
  unfold Earlier.visit. rewrite Earlier_matches_classify.
  destruct (classify (Earlier.ctx e) i) as [[|]|] eqn:Hc; simpl;
    try discriminate.
  change (Earlier.GetOrCreateConstantZero (Earlier.ctx e) (type_id i))
    with (GetOrCreateConstantZero (Earlier.ctx e) (type_id i)).
  destruct (GetOrCreateConstantZero (Earlier.ctx e) (type_id i)) as [z c1].
  destruct (z =? 0) eqn:Ez.
  - apply Z.eqb_eq in Ez. exists z, c1. simpl.
    do 3 (split; [reflexivity|]). left. auto.
  - apply Z.eqb_neq in Ez. destruct (TakeNextId c1) as [t c2] eqn:Ht.
    destruct (t =? 0) eqn:Et.
    + apply Z.eqb_eq in Et. subst t. exists z, c1. simpl.
      do 3 (split; [reflexivity|]). right. auto.
    + apply Z.eqb_neq in Et. exists z, c1, t. simpl.
      do 2 (split; [reflexivity|]). split; [assumption|].
      split; [assumption|]. split; [assumption|]. auto.
Qed.

Lemma Earlier_visit_Continue e i :
  classify (Earlier.ctx e) i <> Some true ->
  Earlier.visit e i = Earlier.Continue.
Proof.
  intros H. unfold Earlier.visit. rewrite Earlier_matches_classify.
  destruct (classify (Earlier.ctx e) i) as [[|]|]; try reflexivity. congruence.
Qed.

Lemma Earlier_visit_extends e i :
  match Earlier.visit e i with
  | Earlier.Continue => True
  | Earlier.ReturnFailure e' => extends (Earlier.ctx e) (Earlier.ctx e')
  | Earlier.Rewritten e' _ _ => extends (Earlier.ctx e) (Earlier.ctx e')
  end.
Proof.
  pose proof (Earlier_visit_cases e i) as H.
  destruct (Earlier.visit e i) as [|e'|e' sh ba]; [exact I| |].
  - destruct H as (z & c1 & _ & Hs & _ & [(_ & -> & _)|(_ & Ht & _)]).
    + apply (GetOrCreateConstantZero_grows _ _ _ _ Hs).
    + eapply extends_trans;
        [apply (GetOrCreateConstantZero_grows _ _ _ _ Hs)
        |apply (TakeNextId_grows _ _ _ Ht)].
  - destruct H as (z & c1 & t & _ & Hs & _ & Ht & _).
    eapply extends_trans;
      [apply (GetOrCreateConstantZero_grows _ _ _ _ Hs)
      |apply (TakeNextId_grows _ _ _ Ht)].
Qed.

(** ** Its instruction loop, by structural recursion *)

Lemma Earlier_scan_block_cons e i rest :
  Earlier.scan_block e (i :: rest) =
  match Earlier.visit e i with
  | Earlier.Continue => Earlier.emit i (Earlier.scan_block e rest)
  | Earlier.ReturnFailure e' => (Earlier.Return e', i :: rest)
  | Earlier.Rewritten e' shift barrier =>
      Earlier.emit shift (Earlier.emit barrier (Earlier.scan_block e' rest))
  end.
Proof.
  rewrite Earlier.scan_block_equation_2.
  destruct (inspect (Earlier.visit e i)) as [v ev].
  destruct v as [|e'|e' shift barrier].
  - rewrite Earlier.scan_block_clause_2_equation_1. now rewrite ev.
  - rewrite Earlier.scan_block_clause_2_equation_2. now rewrite ev.
  - rewrite Earlier.scan_block_clause_2_equation_3. rewrite ev.
    pose proof (Earlier_visit_cases e i) as H. rewrite ev in H.
    destruct H as (z & c1 & t & _ & _ & _ & _ & _ & _ & Hb & _).
    rewrite Earlier.scan_block_equation_2.
    destruct (inspect (Earlier.visit e' barrier)) as [v' ev'].
    assert (Hv : Earlier.visit e' barrier = Earlier.Continue).
    { apply Earlier_visit_Continue. subst barrier.
      rewrite classify_barrier. discriminate. }
    destruct v'; try congruence.
    now rewrite Earlier.scan_block_clause_2_equation_1.
Qed.

Lemma Earlier_scan_block_nil e :
  Earlier.scan_block e [] = (Earlier.Next e, []).
Proof. apply Earlier.scan_block_equation_1. Qed.

(** ** What it rewrites *)

Lemma Earlier_scan_block_rel c : forall l e f l',
  Earlier.scan_block e l = (f, l') ->
  extends c (Earlier.ctx e) ->
  operands_below c l = true ->
  extends c (Earlier.ctx (Earlier.flow_state f))
  /\ Barriers (fun _ => True) (fun i _ => classify c i = Some true) l l'
  /\ (forall e', f = Earlier.Next e' ->
        Barriers (fun i => classify c i <> Some true)
          (fun i _ => classify c i = Some true) l l').
Proof.
  induction l as [|i l IH]; intros e f l' H He Hop.
  - rewrite Earlier_scan_block_nil in H. inversion H; subst. simpl.
    split; [assumption|]. split; [constructor|]. intros; constructor.
  - simpl in Hop. apply andb_true_iff in Hop. destruct Hop as [Hi Hop].
    assert (Hcl : classify (Earlier.ctx e) i = classify c i).
    { apply classify_below; [assumption|]. intros Hsh. rewrite Hsh in Hi.
      simpl in Hi. now apply Z.ltb_lt. }
    rewrite Earlier_scan_block_cons in H.
    pose proof (Earlier_visit_cases e i) as Hv.
    pose proof (Earlier_visit_extends e i) as Hg.
    destruct (Earlier.visit e i) as [|e'|e' sh ba].
    + destruct (Earlier.scan_block e l) as [f0 l0] eqn:E.
      inversion H; subst f l'.
      destruct (IH _ _ _ E He Hop) as (He0 & Ht & Hs).
      split; [assumption|]. split.
      * now constructor.
      * intros e' Hf. simpl in Hf. constructor; [congruence|].
        now apply (Hs e').
    + inversion H; subst. simpl. split; [eapply extends_trans; eassumption|].
      split; [apply Barriers_refl|]. intros; discriminate.
    + destruct Hv as (z & c1 & t & Hc & _ & Hz & _ & _ & -> & -> & _).
      destruct (Earlier.scan_block e' l) as [f0 l0] eqn:E.
      inversion H; subst f l'.
      destruct (IH _ _ _ E (extends_trans _ _ _ He Hg) Hop) as (He0 & Ht & Hs).
      split; [assumption|]. split.
      * constructor; [congruence|assumption|assumption].
      * intros e2 Hf. simpl in Hf.
        constructor; [congruence|assumption|]. now apply (Hs e2).
Qed.

Lemma Earlier_scan_blocks_rel c : forall bs e f bs',
  Earlier.scan_blocks e bs = (f, bs') ->
  extends c (Earlier.ctx e) ->
  operands_below c (block_stream bs) = true ->
  extends c (Earlier.ctx (Earlier.flow_state f))
  /\ Blocks_rel
       (Barriers (fun _ => True) (fun i _ => classify c i = Some true)) bs bs'
  /\ (forall e', f = Earlier.Next e' ->
        Blocks_rel
          (Barriers (fun i => classify c i <> Some true)
             (fun i _ => classify c i = Some true)) bs bs').
Proof.
  induction bs as [|b bs IH]; intros e f bs' H He Hop; simpl in H.
  - inversion H; subst. simpl. split; [assumption|].
    split; [constructor|]. intros; constructor.
  - unfold block_stream, operands_below in Hop. simpl in Hop.
    rewrite forallb_app in Hop. apply andb_true_iff in Hop.
    destruct Hop as [Hb Hop].
    destruct (Earlier.scan_block e (insts b)) as [[e1|e1] l1] eqn:E1;
      destruct (Earlier_scan_block_rel c _ _ _ _ E1 He Hb) as (He1 & Ht1 & Hs1);
      simpl in He1.
    + destruct (Earlier.scan_blocks e1 bs) as [f0 out] eqn:E2.
      inversion H; subst f bs'.
      destruct (IH _ _ _ E2 He1 Hop) as (He2 & Ht2 & Hs2).
      split; [assumption|]. split.
      * constructor; [split; [reflexivity|exact Ht1]|exact Ht2].
      * intros e' ->.
        constructor; [split; [reflexivity|apply (Hs1 e1 eq_refl)]|].
        apply (Hs2 e' eq_refl).
    + inversion H; subst. simpl. split; [assumption|]. split.
      * constructor; [split; [reflexivity|exact Ht1]|].
        apply Blocks_rel_refl. intros l. apply Barriers_refl.
      * intros; discriminate.
Qed.

Lemma Earlier_scan_functions_rel c : forall m e f m',
  Earlier.scan_functions e m = (f, m') ->
  extends c (Earlier.ctx e) ->
  operands_below c (stream m) = true ->
  extends c (Earlier.ctx (Earlier.flow_state f))
  /\ Module_rel
       (Barriers (fun _ => True) (fun i _ => classify c i = Some true)) m m'
  /\ (forall e', f = Earlier.Next e' ->
        Module_rel
          (Barriers (fun i => classify c i <> Some true)
             (fun i _ => classify c i = Some true)) m m').
Proof.
  induction m as [|fn m IH]; intros e f m' H He Hop; simpl in H.
  - inversion H; subst. simpl. split; [assumption|].
    split; [constructor|]. intros; constructor.
  - unfold stream, operands_below in Hop. simpl in Hop.
    rewrite forallb_app in Hop. apply andb_true_iff in Hop.
    destruct Hop as [Hb Hop].
    destruct (IsDeclaration fn) eqn:Hd.
    + destruct (Earlier.scan_functions e m) as [f0 out] eqn:E2.
      inversion H; subst f m'.
      destruct (IH _ _ _ E2 He Hop) as (He2 & Ht2 & Hs2).
      split; [assumption|]. split.
      * constructor; [now rewrite Hd|assumption].
      * intros e' ->. constructor; [now rewrite Hd|apply (Hs2 e' eq_refl)].
    + destruct (Earlier.scan_blocks e (blocks fn)) as [[e1|e1] l1] eqn:E1;
        destruct (Earlier_scan_blocks_rel c _ _ _ _ E1 He Hb)
          as (He1 & Ht1 & Hs1); simpl in He1.
      * destruct (Earlier.scan_functions e1 m) as [f0 out] eqn:E2.
        inversion H; subst f m'.
        destruct (IH _ _ _ E2 He1 Hop) as (He2 & Ht2 & Hs2).
        split; [assumption|]. split.
        -- constructor; [rewrite Hd; split; [reflexivity|exact Ht1]|exact Ht2].
        -- intros e' ->.
           constructor;
             [rewrite Hd; split; [reflexivity|apply (Hs1 e1 eq_refl)]|].
           apply (Hs2 e' eq_refl).
      * inversion H; subst. simpl. split; [assumption|]. split.
        -- constructor; [rewrite Hd; split; [reflexivity|exact Ht1]|].
           apply Module_rel_refl. intros l. apply Barriers_refl.
        -- intros; discriminate.
Qed.

(** X10: the earlier revision rewrites shifts by scalar constants only.
    For a module whose shift amounts are ids below the bound, whatever its
    [Process] returns, every instruction that it renamed and gave a barrier
    is an [OpShiftLeftLogical] whose shift amount is a declared constant of
    integer type; everything else, a shift by a constant vector of integers
    among it, is in the module as it was; and unless the failed outcome is
    returned every shift by a constant of integer type has its barrier. *)
Theorem X10_earlier_rewrites_scalar_only c m s c' m' log :
  operands_below c (stream m) = true ->
  Earlier.Process c m = (s, c', m', log) ->
  Module_rel
    (Barriers (fun _ => True) (fun i _ => classify c i = Some true)) m m'
  /\ (s <> Failure ->
      Module_rel
        (Barriers (fun i => classify c i <> Some true)
           (fun i _ => classify c i = Some true)) m m').
Proof.
  intros Hop HP. unfold Earlier.Process in HP.
  destruct (Earlier.scan_functions (Earlier.initial_state c) m) as [f m0] eqn:E.
  destruct (Earlier_scan_functions_rel c _ _ _ _ E (extends_refl _) Hop)
    as (_ & Ht & Hs).
  destruct f as [e|e].
  - assert (m0 = m') as <- by (destruct (Earlier.modified e); now inversion HP).
    split; [assumption|]. intros _. now apply (Hs e).
  - inversion HP; subst. split; [assumption|]. congruence.
Qed.

Lemma X10_witness :
  let r := Earlier.Process (sample_context 100) sample_module in
  operands_below (sample_context 100) (stream sample_module) = true
  /\ Module_rel
       (Barriers (fun _ => True)
          (fun i _ => classify (sample_context 100) i = Some true))
       sample_module (snd (fst r))
  /\ (SuccessWithChange <> Failure ->
      Module_rel
        (Barriers (fun i => classify (sample_context 100) i <> Some true)
           (fun i _ => classify (sample_context 100) i = Some true))
        sample_module (snd (fst r))).
Proof.
  intros r. split; [reflexivity|].
  apply (X10_earlier_rewrites_scalar_only (sample_context 100) sample_module
           SuccessWithChange (snd (fst (fst r))) (snd (fst r)) (snd r));
    reflexivity.
Defined.

(** ** The two revisions side by side *)

Lemma agree_visit st e i :
  Earlier.ctx e = ctx st ->
  classify (ctx st) i <> Some false ->
  match visit st i, Earlier.visit e i with
  | Continue, Earlier.Continue => True
  | ReturnFailure st', Earlier.ReturnFailure e' =>
      registries (Earlier.ctx e') = registries (ctx st')
  | Rewritten st' sh ba, Earlier.Rewritten e' sh' ba' =>
      sh' = sh /\ ba' = ba /\ Earlier.ctx e' = ctx st'
      /\ Earlier.modified e' = true /\ modified st' = true
  | _, _ => False
  end.
Proof.
  intros Ec Hnv.
  pose proof (visit_cases st i) as H.
  pose proof (Earlier_visit_cases e i) as H'. rewrite Ec in H'.
  destruct (visit st i) as [|st'|st' sh ba].
  - destruct (Earlier.visit e i) as [|e'|e' sh' ba']; [exact I| |].
    + destruct H' as (z & c1 & Hc & _). congruence.
    + destruct H' as (z & c1 & t & Hc & _). congruence.
  - destruct H as (k & z & c1 & Hc & Hs & Hf).
    assert (k = true) as -> by (destruct k; congruence). simpl in Hs.
    destruct (Earlier.visit e i) as [|e'|e' sh' ba'].
    + congruence.
    + destruct H' as (z' & c1' & _ & Hs' & _ & Hf').
      rewrite Hs in Hs'. inversion Hs'; subst z' c1'.
      destruct Hf as [[Hz ->]|[Hz (c2 & Ht & ->)]];
        destruct Hf' as [(Hz' & E & _)|(Hz' & Ht' & _)]; try contradiction.
      * now rewrite E.
      * rewrite Ht in Ht'. inversion Ht' as [E]. now rewrite <- E.
    + destruct H' as (z' & c1' & t' & _ & Hs' & Hz' & Ht' & Hnz' & _).
      rewrite Hs in Hs'. inversion Hs'; subst z' c1'.
      destruct Hf as [[Hz _]|[_ (c2 & Ht & _)]]; [contradiction|].
      rewrite Ht in Ht'. inversion Ht'. congruence.
  - destruct H as (k & z & c1 & t & Hc & Hs & Hz & Ht & Hnz & -> & -> & Hm & _).
    assert (k = true) as -> by (destruct k; congruence). simpl in Hs.
    destruct (Earlier.visit e i) as [|e'|e' sh' ba'].
    + congruence.
    + destruct H' as (z' & c1' & _ & Hs' & _ & Hf').
      rewrite Hs in Hs'. inversion Hs'; subst z' c1'.
      destruct Hf' as [(Hz' & _)|(_ & Ht' & _)]; [contradiction|].
      rewrite Ht in Ht'. inversion Ht'. congruence.
    + destruct H' as (z' & c1' & t' & _ & Hs' & _ & Ht' & _ & -> & -> & Hm' & _).
      rewrite Hs in Hs'. inversion Hs'; subst z' c1'.
      rewrite Ht in Ht'. inversion Ht' as [[Et Ectx]]. auto.
Qed.

Lemma agree_scan_block c : forall l st e,
  Earlier.ctx e = ctx st ->
  Earlier.modified e = modified st ->
  extends c (ctx st) ->
  Forall (fun i => (is_shift i = true
                    -> GetSingleWordInOperand i 1 < id_bound c)
                   /\ classify c i <> Some false) l ->
  match scan_block st l, Earlier.scan_block e l with
  | (Next st', l1), (Earlier.Next e', l2) =>
      l2 = l1 /\ Earlier.ctx e' = ctx st'
      /\ Earlier.modified e' = modified st'
  | (Return st', l1), (Earlier.Return e', l2) =>
      l2 = l1 /\ registries (Earlier.ctx e') = registries (ctx st')
  | _, _ => False
  end.
Proof.
  induction l as [|i l IH]; intros st e Ec Em He Hall.
  - rewrite scan_block_nil, Earlier_scan_block_nil. auto.
  - inversion Hall as [|? ? [Hop Hnv] Hall']; subst.
    rewrite scan_block_cons, Earlier_scan_block_cons.
    assert (Hcl : classify (ctx st) i <> Some false)
      by (rewrite (classify_below _ _ _ He Hop); exact Hnv).
    pose proof (agree_visit st e i Ec Hcl) as Hv.
    pose proof (visit_grows st i) as Hg.
    destruct (visit st i) as [|st'|st' sh ba];
      destruct (Earlier.visit e i) as [|e'|e' sh' ba']; try contradiction.
    + specialize (IH st e Ec Em He Hall').
      destruct (scan_block st l) as [[st1|st1] l1];
        destruct (Earlier.scan_block e l) as [[e1|e1] l2]; try contradiction;
        simpl; destruct IH as [-> IH]; auto.
    + auto.
    + destruct Hv as (-> & -> & Ec' & Em' & Hm'). destruct Hg as [He' _].
      assert (Em2 : Earlier.modified e' = modified st') by congruence.
      specialize (IH st' e' Ec' Em2 (extends_trans _ _ _ He He') Hall').
      destruct (scan_block st' l) as [[st1|st1] l1];
        destruct (Earlier.scan_block e' l) as [[e1|e1] l2]; try contradiction;
        simpl; destruct IH as [-> IH]; auto.
Qed.

Lemma agree_scan_blocks c : forall bs st e,
  Earlier.ctx e = ctx st ->
  Earlier.modified e = modified st ->
  extends c (ctx st) ->
  Forall (fun i => (is_shift i = true
                    -> GetSingleWordInOperand i 1 < id_bound c)
                   /\ classify c i <> Some false) (block_stream bs) ->
  match scan_blocks st bs, Earlier.scan_blocks e bs with
  | (Next st', l1), (Earlier.Next e', l2) =>
      l2 = l1 /\ Earlier.ctx e' = ctx st'
      /\ Earlier.modified e' = modified st'
  | (Return st', l1), (Earlier.Return e', l2) =>
      l2 = l1 /\ registries (Earlier.ctx e') = registries (ctx st')
  | _, _ => False
  end.
Proof.
  induction bs as [|b bs IH]; intros st e Ec Em He Hall; simpl; [auto|].
  unfold block_stream in Hall. simpl in Hall. apply Forall_app in Hall.
  destruct Hall as [Hb Hall].
  pose proof (agree_scan_block c _ st e Ec Em He Hb) as H.
  destruct (scan_block st (insts b)) as [[st1|st1] l1] eqn:E1;
    destruct (Earlier.scan_block e (insts b)) as [[e1|e1] l2];
    try contradiction.
  - destruct H as (-> & Ec1 & Em1).
    destruct (scan_block_rel _ _ _ _ E1) as ([He1 _] & _). simpl in He1.
    specialize (IH st1 e1 Ec1 Em1 (extends_trans _ _ _ He He1) Hall).
    destruct (scan_blocks st1 bs) as [[st2|st2] o1];
      destruct (Earlier.scan_blocks e1 bs) as [[e2|e2] o2];
      try contradiction; destruct IH as [-> IH]; auto.
  - destruct H as [-> H]. auto.
Qed.

Lemma agree_scan_functions c : forall m st e,
  Earlier.ctx e = ctx st ->
  Earlier.modified e = modified st ->
  extends c (ctx st) ->
  Forall (fun i => (is_shift i = true
                    -> GetSingleWordInOperand i 1 < id_bound c)
                   /\ classify c i <> Some false) (stream m) ->
  match scan_functions st m, Earlier.scan_functions e m with
  | (Next st', l1), (Earlier.Next e', l2) =>
      l2 = l1 /\ Earlier.ctx e' = ctx st'
      /\ Earlier.modified e' = modified st'
  | (Return st', l1), (Earlier.Return e', l2) =>
      l2 = l1 /\ registries (Earlier.ctx e') = registries (ctx st')
  | _, _ => False
  end.
Proof.
  induction m as [|fn m IH]; intros st e Ec Em He Hall; simpl; [auto|].
  unfold stream in Hall. simpl in Hall. apply Forall_app in Hall.
  destruct Hall as [Hb Hall].
  destruct (IsDeclaration fn).
  - specialize (IH st e Ec Em He Hall).
    destruct (scan_functions st m) as [[st2|st2] o1];
      destruct (Earlier.scan_functions e m) as [[e2|e2] o2];
      try contradiction; destruct IH as [-> IH]; auto.
  - pose proof (agree_scan_blocks c _ st e Ec Em He Hb) as H.
    destruct (scan_blocks st (blocks fn)) as [[st1|st1] l1] eqn:E1;
      destruct (Earlier.scan_blocks e (blocks fn)) as [[e1|e1] l2];
      try contradiction.
    + destruct H as (-> & Ec1 & Em1).
      destruct (scan_blocks_rel _ _ _ _ E1) as ([He1 _] & _). simpl in He1.
      specialize (IH st1 e1 Ec1 Em1 (extends_trans _ _ _ He He1) Hall).
      destruct (scan_functions st1 m) as [[st2|st2] o1];
        destruct (Earlier.scan_functions e1 m) as [[e2|e2] o2];
        try contradiction; destruct IH as [-> IH]; auto.
    + destruct H as [-> H]. auto.
Qed.

Lemma count_class_zero c k l :
  count_class c k l = 0%nat -> Forall (fun i => classify c i <> Some k) l.
Proof.
  induction l as [|i l IH]; [constructor|].
  rewrite count_class_cons. intros H. constructor.
  - intros Hc. rewrite Hc, Bool.eqb_reflx in H. discriminate.
  - apply IH. lia.
Qed.

(** X11: the later revision changes nothing for modules without shifts by
    constant vectors.  For a module whose shift amounts are ids below the
    bound and in which no shift is matched as vector, the two revisions of
    [Process] return the same status and the same module, and contexts
    with the same identifier bound and the same types and constants (the
    messages differ: the later revision reports its counts). *)
Theorem X11_revisions_agree c m :
  operands_below c (stream m) = true ->
  count_class c false (stream m) = 0%nat ->
  match Earlier.Process c m, Process c m with
  | (s1, c1, m1, _), (s2, c2, m2) =>
      s1 = s2 /\ m1 = m2 /\ registries c1 = registries c2
  end.
Proof.
  intros Hop Hnv.
  assert (Hall : Forall (fun i => (is_shift i = true ->
                                   GetSingleWordInOperand i 1 < id_bound c)
                                  /\ classify c i <> Some false) (stream m)).
  { apply operands_below_Forall in Hop. apply count_class_zero in Hnv.
    rewrite Forall_forall in *. intros i Hi. split; auto. }
  pose proof (agree_scan_functions c m (initial_state c)
                (Earlier.initial_state c) eq_refl eq_refl (extends_refl _)
                Hall) as H.
  unfold Earlier.Process, Process.
  destruct (scan_functions (initial_state c) m) as [[st|st] o1];
    destruct (Earlier.scan_functions (Earlier.initial_state c) m)
      as [[e|e] o2]; try contradiction.
  - destruct H as (-> & Ec & Em). rewrite Em.
    destruct (modified st); rewrite Ec; auto.
  - destruct H as (-> & Er). auto.
Qed.

Lemma X11_witness :
  let m := one_block [scalar_shift; dynamic_shift] in
  operands_below (sample_context 100) (stream m) = true
  /\ count_class (sample_context 100) false (stream m) = 0%nat
  /\ match Earlier.Process (sample_context 100) m,
           Process (sample_context 100) m with
     | (s1, c1, m1, _), (s2, c2, m2) =>
         s1 = s2 /\ m1 = m2 /\ registries c1 = registries c2
     end.
Proof.
  intros m. split; [reflexivity|]. split; [reflexivity|].
  apply (X11_revisions_agree (sample_context 100) m); reflexivity.
Defined.

(** ** The messages of the earlier revision *)

Lemma Earlier_scan_block_sent : forall l e f l',
  Earlier.scan_block e l = (f, l') ->
  match f with
  | Earlier.Next e' => Earlier.sent e' = Earlier.sent e
  | Earlier.Return e' =>
      exists text, Earlier.sent e' = Earlier.sent e ++ [(SPV_MSG_ERROR, text)]
                   /\ text <> Earlier.AddedBarriers
  end.
Proof.
  induction l as [|i l IH]; intros e f l' H.
  - rewrite Earlier_scan_block_nil in H. now inversion H.
  - rewrite Earlier_scan_block_cons in H.
    pose proof (Earlier_visit_cases e i) as Hv.
    destruct (Earlier.visit e i) as [|e'|e' sh ba].
    + destruct (Earlier.scan_block e l) as [f0 l0] eqn:E.
      inversion H; subst f l'. apply (IH _ _ _ E).
    + inversion H; subst.
      destruct Hv as (z & c1 & _ & _ & _ & [(_ & _ & Hs)|(_ & _ & Hs)]);
        rewrite Hs; eexists; (split; [reflexivity|discriminate]).
    + destruct Hv as (z & c1 & t & _ & _ & _ & _ & _ & _ & _ & _ & Hs).
      destruct (Earlier.scan_block e' l) as [f0 l0] eqn:E.
      inversion H; subst f l'. specialize (IH _ _ _ E). simpl.
      rewrite Hs in IH. exact IH.
Qed.

Lemma Earlier_scan_blocks_sent : forall bs e f bs',
  Earlier.scan_blocks e bs = (f, bs') ->
  match f with
  | Earlier.Next e' => Earlier.sent e' = Earlier.sent e
  | Earlier.Return e' =>
      exists text, Earlier.sent e' = Earlier.sent e ++ [(SPV_MSG_ERROR, text)]
                   /\ text <> Earlier.AddedBarriers
  end.
Proof.
  induction bs as [|b bs IH]; intros e f bs' H; simpl in H.
  - now inversion H.
  - destruct (Earlier.scan_block e (insts b)) as [[e1|e1] l1] eqn:E1;
      apply Earlier_scan_block_sent in E1.
    + destruct (Earlier.scan_blocks e1 bs) as [f0 out] eqn:E2.
      inversion H; subst f bs'. specialize (IH _ _ _ E2).
      rewrite E1 in IH. exact IH.
    + inversion H; subst. exact E1.
Qed.

Lemma Earlier_scan_functions_sent : forall m e f m',
  Earlier.scan_functions e m = (f, m') ->
  match f with
  | Earlier.Next e' => Earlier.sent e' = Earlier.sent e
  | Earlier.Return e' =>
      exists text, Earlier.sent e' = Earlier.sent e ++ [(SPV_MSG_ERROR, text)]
                   /\ text <> Earlier.AddedBarriers
  end.
Proof.
  induction m as [|fn m IH]; intros e f m' H; simpl in H.
  - now inversion H.
  - destruct (IsDeclaration fn).
    + destruct (Earlier.scan_functions e m) as [f0 out] eqn:E2.
      inversion H; subst f m'. apply (IH _ _ _ E2).
    + destruct (Earlier.scan_blocks e (blocks fn)) as [[e1|e1] l1] eqn:E1;
        apply Earlier_scan_blocks_sent in E1.
      * destruct (Earlier.scan_functions e1 m) as [f0 out] eqn:E2.
        inversion H; subst f m'. specialize (IH _ _ _ E2).
        rewrite E1 in IH. exact IH.
      * inversion H; subst. exact E1.
Qed.

(** X12: a run of the earlier revision's [Process] sends at most one
    message through its own logging, and the message tells the outcome:
    none when nothing was changed, the summary at debug level when
    something was changed, and one of the two failure messages at error
    level when it failed. *)
Theorem X12_earlier_one_message c m :
  match Earlier.Process c m with
  | (Failure, _, _, log) =>
      exists text, log = [(SPV_MSG_ERROR, text)]
                   /\ text <> Earlier.AddedBarriers
  | (SuccessWithChange, _, _, log) =>
      log = [(SPV_MSG_DEBUG, Earlier.AddedBarriers)]
  | (SuccessWithoutChange, _, _, log) => log = []
  end.
Proof.
  unfold Earlier.Process.
  destruct (Earlier.scan_functions (Earlier.initial_state c) m) as [f m'] eqn:E.
  apply Earlier_scan_functions_sent in E. destruct f as [e|e].
  - destruct (Earlier.modified e); simpl; [now rewrite E|exact E].
  - exact E.
Qed.

(** * The build script *)

Module ScriptFacts.

Import String Ascii.









End ScriptFacts.
